(** * netmap on Linux: socket data path and interrupt mitigation

    A shallow embedding of [LINUX/netmap_linux.c]:
    - [generic_timer_handler] and the [netmap_mitigation_*] helpers;
    - [netmap_socket_sendmsg], which copies an iovec into netmap TX slots;
    - [netmap_socket_recvmsg], which copies netmap RX slots into an iovec;
    - the generic adapter support ([netmap_catch_packet_steering],
      [generic_ndo_select_queue], [generic_xmit_frame]);
    - the life cycle of the socket ([netmap_sock_setup],
      [netmap_sock_teardown], [netmap_socket_nm_dtor],
      [netmap_sock_write_space], [get_netmap_socket]);
    - the file operations ([linux_netmap_open], [linux_netmap_release],
      [linux_netmap_ioctl], [linux_netmap_mmap]).

    C integers are [Z] with the wrap-around of their width written out
    ([u32] for [unsigned], [s32] for a value returned as [int]).  Kernel
    memory (the netmap buffers) is a finite map from buffer index to bytes,
    user memory is the list of byte buffers the iovec points to.  Calls to
    collaborators ([nm_txsync], [netmap_common_irq], the hrtimer service,
    the log macros) are recorded in a trace of events. *)

From Stdlib Require Import ZArith Lia List Bool.
From Stdlib.Init Require Import Byte.
From stdpp Require Import base option list gmap.

Local Open Scope Z_scope.

(** ** Machine integers *)

(** [unsigned] / [u_int] / [uint32_t]: arithmetic modulo 2^32. *)
Definition u32 (x : Z) : Z := x mod 2 ^ 32.

(** Conversion of a value to the [int] a function returns. *)
Definition s32 (x : Z) : Z := (x + 2 ^ 31) mod 2 ^ 32 - 2 ^ 31.

Definition INT_MAX : Z := 2 ^ 31 - 1.

(** ** Constants of the headers *)

(** Modelled from the spec: [netmap.h], [netmap_kern.h] and [bsd_glue.h]
    are not among the sources, so the values they give to the slot flags,
    to the interface capability bit and to the mitigation interval are
    parameters of the development.  The spec names [MORE_FRAGMENTS] as one
    flag of a flag set: it is a non-empty mask, disjoint from that of the
    other slot flag the socket code touches. *)
Class netmap_consts := {
  NS_MOREFRAG : Z;
  NS_VNET_HDR : Z;
  IFCAP_NETMAP : Z;
  netmap_generic_mit : Z;
  NS_MOREFRAG_pos : 0 < NS_MOREFRAG;
  NS_VNET_HDR_nonneg : 0 <= NS_VNET_HDR;
  NS_flags_disjoint : Z.land NS_MOREFRAG NS_VNET_HDR = 0
}.

(** ** Data model *)

(** Modelled from the spec: [struct netmap_slot] is declared in netmap.h.
    A slot holds a reference to a buffer, the number of valid bytes and a
    flag set; the field names are those the socket code uses, and a field
    holds the value the code stores in it. *)
Record netmap_slot := {
  buf_idx : Z;
  len : Z;
  flags : Z
}.

(** Modelled from the spec: [struct netmap_ring] is declared in netmap.h.
    A ring is a fixed-length sequence of slots with the two cursors [cur]
    and [avail]; the capacity and the size of the slot buffers are fixed.
    The fields are those the socket code reads and writes. *)
Record netmap_ring := {
  num_slots : Z;
  nr_buf_size : Z;
  cur : Z;
  avail : Z;
  slot : list netmap_slot
}.

(** Modelled from the spec: [struct netmap_adapter] is declared in
    netmap_kern.h.  The socket code uses [tx_rings[0].ring] and
    [rx_rings[0].ring]; [nm_mem] is the buffer memory that [BDG_NMB]
    resolves slots into. *)
Record netmap_adapter := {
  tx_rings0 : netmap_ring;
  rx_rings0 : netmap_ring;
  nm_mem : gmap Z (list byte)
}.

(** [struct msghdr]: [msg_iov] holds, for each [struct iovec], the user
    memory [iov_base] points to ([iov_len] bytes). *)
Record msghdr := {
  msg_iov : list (list byte)
}.

Definition iov_len (v : list byte) : Z := Z.of_nat (length v).
Definition msg_iovlen (m : msghdr) : Z := Z.of_nat (length (msg_iov m)).

(** Sum of the segment lengths: what the socket layer passes as
    [total_len]. *)
Definition iov_total (iov : list (list byte)) : Z :=
  Z.of_nat (length (concat iov)).

(** Calls to collaborators and log lines, in program order. *)
Inductive event :=
| Ev_nm_txsync (na : netmap_adapter) (ring_nr fl : Z)
| Ev_RD_null_adapter
| Ev_RD_out_of_slots
| Ev_D_read (copied j : Z)
| Ev_netmap_common_irq (q : Z)
| Ev_hrtimer_forward_now (interval : Z).

(** ** Ring and memory access *)

Definition zero_slot : netmap_slot := {| buf_idx := 0; len := 0; flags := 0 |}.

(** [ring->slot[i]].  An index outside the array is undefined behaviour in
    C; here the read yields a zeroed slot and a write is dropped.  The ring
    invariant [ring_wf] keeps every index in range. *)
Definition slot_at (r : netmap_ring) (i : Z) : netmap_slot :=
  default zero_slot (slot r !! Z.to_nat i).

Definition upd_slot (f : netmap_slot -> netmap_slot) (i : Z) (r : netmap_ring)
  : netmap_ring :=
  {| num_slots := num_slots r; nr_buf_size := nr_buf_size r;
     cur := cur r; avail := avail r;
     slot := alter f (Z.to_nat i) (slot r) |}.

Definition set_len (x : Z) (s : netmap_slot) : netmap_slot :=
  {| buf_idx := buf_idx s; len := x; flags := flags s |}.

Definition set_flags (x : Z) (s : netmap_slot) : netmap_slot :=
  {| buf_idx := buf_idx s; len := len s; flags := x |}.

Definition set_cur_avail (c a : Z) (r : netmap_ring) : netmap_ring :=
  {| num_slots := num_slots r; nr_buf_size := nr_buf_size r;
     cur := c; avail := a; slot := slot r |}.

Definition set_tx_ring (r : netmap_ring) (na : netmap_adapter) : netmap_adapter :=
  {| tx_rings0 := r; rx_rings0 := rx_rings0 na; nm_mem := nm_mem na |}.

Definition set_rx_ring (r : netmap_ring) (na : netmap_adapter) : netmap_adapter :=
  {| tx_rings0 := tx_rings0 na; rx_rings0 := r; nm_mem := nm_mem na |}.

Definition set_nm_mem (mem : gmap Z (list byte)) (na : netmap_adapter)
  : netmap_adapter :=
  {| tx_rings0 := tx_rings0 na; rx_rings0 := rx_rings0 na; nm_mem := mem |}.

(** Modelled from the spec: [NETMAP_RING_NEXT] is a macro of netmap.h.
    "Contract: next_index(i) = (i + 1) mod capacity." *)
Definition NETMAP_RING_NEXT (r : netmap_ring) (i : Z) : Z :=
  (i + 1) mod num_slots r.

(** Modelled from the spec: [BDG_NMB] is a macro of netmap_kern.h.  A slot
    "holds a reference to an externally-owned fixed-size buffer"; the
    reference is the slot's buffer index, resolved in the adapter's memory. *)
Definition BDG_NMB (na : netmap_adapter) (s : netmap_slot) : Z := buf_idx s.

(** The bytes of the netmap buffer at address [p]. *)
Definition nm_buf (na : netmap_adapter) (p : Z) : list byte :=
  default [] (nm_mem na !! p).

(** [memcpy]-like store of [bs] at offset [ofs] of [dst]. *)
Definition splice (dst : list byte) (ofs : nat) (bs : list byte) : list byte :=
  take ofs dst ++ bs ++ drop (ofs + length bs) dst.

(** [copy_from_user(dst, iov_frag + offset, n)]: the user memory is valid,
    so the copy always succeeds. *)
Definition copy_from_user (na : netmap_adapter) (dst : Z) (iov_frag : list byte)
    (offset n : Z) : netmap_adapter :=
  set_nm_mem
    (alter (fun b => splice b 0 (take (Z.to_nat n) (drop (Z.to_nat offset) iov_frag)))
           dst (nm_mem na))
    na.

(** [copy_to_user(dst + iov_frag_ofs, src + nm_frag_ofs, n)], where [dst]
    is the base of segment [dst] of the user iovec. *)
Definition copy_to_user (umem : list (list byte)) (dst : Z) (iov_frag_ofs : Z)
    (src : list byte) (nm_frag_ofs n : Z) : list (list byte) :=
  alter (fun b => splice b (Z.to_nat iov_frag_ofs)
                    (take (Z.to_nat n) (drop (Z.to_nat nm_frag_ofs) src)))
        (Z.to_nat dst) umem.

(** ** Mitigation support *)

Inductive hrtimer_restart := HRTIMER_NORESTART | HRTIMER_RESTART.

(** Modelled from the spec: [struct netmap_generic_adapter] is declared in
    netmap_kern.h.  The mitigation state is the pending flag and whether
    the timer is armed ([mit_timer] queued); the handler also reads the
    capability word of the attached interface ([na->ifp->if_capenable]). *)
Record netmap_generic_adapter := {
  mit_pending : Z;
  if_capenable : Z;
  mit_timer_active : bool
}.

Definition set_mit_pending (p : Z) (gna : netmap_generic_adapter)
  : netmap_generic_adapter :=
  {| mit_pending := p; if_capenable := if_capenable gna;
     mit_timer_active := mit_timer_active gna |}.

Definition set_mit_timer_active (b : bool) (gna : netmap_generic_adapter)
  : netmap_generic_adapter :=
  {| mit_pending := mit_pending gna; if_capenable := if_capenable gna;
     mit_timer_active := b |}.

(** How a loop nest hands control back: it runs to its end, or a [return]
    inside it leaves the function with a value. *)
Inductive flow (A : Type) :=
| Next (a : A)
| Return (v : Z) (a : A).
Arguments Next {A} a.
Arguments Return {A} v a.

Definition flow_state {A} (f : flow A) : A :=
  match f with Next a => a | Return _ a => a end.

Section Model.
Context {K : netmap_consts}.

Definition netmap_mitigation_init (gna : netmap_generic_adapter)
  : netmap_generic_adapter :=
  set_mit_pending 0 (set_mit_timer_active false gna).

Definition netmap_mitigation_start (gna : netmap_generic_adapter)
  : netmap_generic_adapter :=
  set_mit_timer_active true gna.

Definition netmap_mitigation_restart (gna : netmap_generic_adapter)
  : netmap_generic_adapter * list event :=
  (gna, [Ev_hrtimer_forward_now netmap_generic_mit]).

Definition netmap_mitigation_active (gna : netmap_generic_adapter) : Z :=
  if mit_timer_active gna then 1 else 0.

Definition netmap_mitigation_cleanup (gna : netmap_generic_adapter)
  : netmap_generic_adapter :=
  set_mit_timer_active false gna.

Definition generic_timer_handler (gna : netmap_generic_adapter)
  : hrtimer_restart * netmap_generic_adapter * list event :=
  if mit_pending gna =? 0 then
    (HRTIMER_NORESTART, gna, [])
  else
    let gna := set_mit_pending 0 gna in
    let irq :=
      if Z.land (if_capenable gna) IFCAP_NETMAP =? 0 then []
      else [Ev_netmap_common_irq 0] in
    let '(gna, fwd) := netmap_mitigation_restart gna in
    (HRTIMER_RESTART, gna, irq ++ fwd).

(** The hrtimer service at the expiry of [mit_timer]: it runs the callback
    and queues the timer again exactly when the callback answers
    [HRTIMER_RESTART]. *)
Definition mit_timer_expiry (gna : netmap_generic_adapter)
  : netmap_generic_adapter * list event :=
  let '(r, gna, tr) := generic_timer_handler gna in
  (set_mit_timer_active
     (match r with HRTIMER_RESTART => true | HRTIMER_NORESTART => false end)
     gna,
   tr).

(** ** Socket support: sendmsg *)

(** The locals of [netmap_socket_sendmsg] that live across iterations,
    together with the adapter memory they point into. *)
Record tx_vars := {
  tx_na : netmap_adapter;
  tx_i : Z;
  tx_last : Z;
  tx_avail : Z;
  tx_slot_flags : Z
}.

(** Lines 291-302: fill the slot at [i] with [nm_frag_size] bytes of the
    segment, starting at [offset], and step to the next slot. *)
Definition sendmsg_fill (iov_frag : list byte) (offset nm_frag_size : Z)
    (v : tx_vars) : tx_vars :=
  let na := tx_na v in
  let ring := tx_rings0 na in
  let i := tx_i v in
  let dst := BDG_NMB na (slot_at ring i) in
  let ring := upd_slot (set_len nm_frag_size) i ring in
  let ring := upd_slot (set_flags (tx_slot_flags v)) i ring in
  let slot_flags := Z.land (tx_slot_flags v) (Z.lnot NS_VNET_HDR) in
  let na := copy_from_user (set_tx_ring ring na) dst iov_frag offset nm_frag_size in
  {| tx_na := na;
     tx_i := NETMAP_RING_NEXT ring i;
     tx_last := i;
     tx_avail := u32 (tx_avail v - 1);
     tx_slot_flags := slot_flags |}.

(** Lines 283-306: [while (iov_frag_size) { ... }].  Every iteration that
    does not leave the loop takes one slot, so [fuel] above [avail] is
    never exhausted ([None]). *)
Fixpoint sendmsg_frag_loop (fuel : nat) (nm_buf_size : Z) (iov_frag : list byte)
    (offset iov_frag_size : Z) (v : tx_vars) : option (flow tx_vars) :=
  if iov_frag_size =? 0 then Some (Next v)
  else
    match fuel with
    | O => None
    | S fuel =>
        let nm_frag_size := Z.min iov_frag_size nm_buf_size in
        if tx_avail v =? 0 then Some (Return 0 v)
        else
          sendmsg_frag_loop fuel nm_buf_size iov_frag
            (u32 (offset + nm_frag_size))
            (u32 (iov_frag_size - nm_frag_size))
            (sendmsg_fill iov_frag offset nm_frag_size v)
    end.

(** Lines 267-307: [for (j=0; j<iovcnt; j++)] over the segments. *)
Fixpoint sendmsg_iov_loop (nm_buf_size : Z) (iov : list (list byte))
    (v : tx_vars) : option (flow tx_vars) :=
  match iov with
  | [] => Some (Next v)
  | iov_frag :: iov =>
      match sendmsg_frag_loop (S (Z.to_nat (tx_avail v))) nm_buf_size
              iov_frag 0 (u32 (iov_len iov_frag)) v with
      | Some (Next v) => sendmsg_iov_loop nm_buf_size iov v
      | out => out
      end
  end.

(** The [return] statement a call of [netmap_socket_sendmsg] leaves by. *)
Inductive sendmsg_exit :=
| Tx_null_adapter   (* line 251 *)
| Tx_no_slots       (* line 264 *)
| Tx_out_of_space   (* line 288 *)
| Tx_done.          (* line 318 *)

Record sendmsg_result := {
  tx_ret : Z;
  tx_exit : sendmsg_exit;
  tx_na_out : option netmap_adapter;
  tx_trace : list event
}.

(** Lines 245-259: the locals at the entry of the loops. *)
Definition sendmsg_init (na : netmap_adapter) : tx_vars :=
  {| tx_na := na;
     tx_i := u32 (cur (tx_rings0 na));
     tx_last := u32 (cur (tx_rings0 na));
     tx_avail := u32 (avail (tx_rings0 na));
     tx_slot_flags := Z.lor NS_MOREFRAG NS_VNET_HDR |}.

(** Line 309: [ring->slot[last].flags &= ~NS_MOREFRAG]. *)
Definition clear_morefrag (s : netmap_slot) : netmap_slot :=
  set_flags (Z.land (flags s) (Z.lnot NS_MOREFRAG)) s.

(** Lines 309-312: clear the flag of the last slot and publish the
    cursors. *)
Definition sendmsg_publish (v : tx_vars) : netmap_adapter :=
  let na := tx_na v in
  let ring := upd_slot clear_morefrag (tx_last v) (tx_rings0 na) in
  let ring := set_cur_avail (tx_i v) (tx_avail v) ring in
  set_tx_ring ring na.

Definition netmap_socket_sendmsg (na : option netmap_adapter) (m : msghdr)
    (total_len : Z) : option sendmsg_result :=
  let iov := msg_iov m in
  let iovcnt := msg_iovlen m in
  match na with
  | None =>
      Some {| tx_ret := s32 total_len; tx_exit := Tx_null_adapter;
              tx_na_out := None; tx_trace := [Ev_RD_null_adapter] |}
  | Some na =>
      let nm_buf_size := u32 (nr_buf_size (tx_rings0 na)) in
      let v := sendmsg_init na in
      if tx_avail v <? iovcnt then
        Some {| tx_ret := 0; tx_exit := Tx_no_slots;
                tx_na_out := Some na; tx_trace := [] |}
      else
        match sendmsg_iov_loop nm_buf_size iov v with
        | None => None
        | Some (Return r v) =>
            Some {| tx_ret := r; tx_exit := Tx_out_of_space;
                    tx_na_out := Some (tx_na v); tx_trace := [] |}
        | Some (Next v) =>
            let na := sendmsg_publish v in
            Some {| tx_ret := s32 total_len; tx_exit := Tx_done;
                    tx_na_out := Some na;
                    tx_trace := [Ev_nm_txsync na 0 0] |}
        end
  end.

(** ** Socket support: recvmsg *)

(** The locals of [netmap_socket_recvmsg]: the netmap variables, the iovec
    variables, the counter, and the user memory the iovec points to.
    [rx_src] and [rx_dst] are the addresses [src] and [dst]: a netmap buffer
    and the base of a user segment. *)
Record rx_vars := {
  rx_i : Z;
  rx_avail : Z;
  rx_morefrag : bool;
  rx_nm_frag_size : Z;
  rx_nm_frag_ofs : Z;
  rx_src : Z;
  rx_j : Z;
  rx_dst : Z;
  rx_iov_frag_size : Z;
  rx_iov_frag_ofs : Z;
  rx_copied : Z;
  rx_umem : list (list byte)
}.

(** [(ring->slot[i].flags & NS_MOREFRAG)] converted to [bool]. *)
Definition slot_morefrag (s : netmap_slot) : bool :=
  negb (Z.land (flags s) NS_MOREFRAG =? 0).

(** [iov[j].iov_len]; reading past the iovec array is undefined in C and
    yields 0 here. *)
Definition iov_len_at (umem : list (list byte)) (j : Z) : Z :=
  iov_len (default [] (umem !! Z.to_nat j)).

(** Lines 382-389: copy what fits and advance both cursors. *)
Definition recvmsg_copy (na : netmap_adapter) (v : rx_vars) : rx_vars :=
  let copy_size := Z.min (rx_nm_frag_size v) (rx_iov_frag_size v) in
  {| rx_i := rx_i v;
     rx_avail := rx_avail v;
     rx_morefrag := rx_morefrag v;
     rx_nm_frag_size := u32 (rx_nm_frag_size v - copy_size);
     rx_nm_frag_ofs := u32 (rx_nm_frag_ofs v + copy_size);
     rx_src := rx_src v;
     rx_j := rx_j v;
     rx_dst := rx_dst v;
     rx_iov_frag_size := u32 (rx_iov_frag_size v - copy_size);
     rx_iov_frag_ofs := u32 (rx_iov_frag_ofs v + copy_size);
     rx_copied := u32 (rx_copied v + copy_size);
     rx_umem := copy_to_user (rx_umem v) (rx_dst v) (rx_iov_frag_ofs v)
                  (nm_buf na (rx_src v)) (rx_nm_frag_ofs v) copy_size |}.

(** Lines 397-403: take the next slot. *)
Definition recvmsg_next_slot (na : netmap_adapter) (v : rx_vars) : rx_vars :=
  let ring := rx_rings0 na in
  let i := NETMAP_RING_NEXT ring (rx_i v) in
  {| rx_i := i;
     rx_avail := u32 (rx_avail v - 1);
     rx_morefrag := slot_morefrag (slot_at ring i);
     rx_nm_frag_size := u32 (len (slot_at ring i));
     rx_nm_frag_ofs := 0;
     rx_src := BDG_NMB na (slot_at ring i);
     rx_j := rx_j v;
     rx_dst := rx_dst v;
     rx_iov_frag_size := rx_iov_frag_size v;
     rx_iov_frag_ofs := rx_iov_frag_ofs v;
     rx_copied := rx_copied v;
     rx_umem := rx_umem v |}.

(** Line 415: [j++]. *)
Definition recvmsg_incr_j (v : rx_vars) : rx_vars :=
  {| rx_i := rx_i v;
     rx_avail := rx_avail v;
     rx_morefrag := rx_morefrag v;
     rx_nm_frag_size := rx_nm_frag_size v;
     rx_nm_frag_ofs := rx_nm_frag_ofs v;
     rx_src := rx_src v;
     rx_j := u32 (rx_j v + 1);
     rx_dst := rx_dst v;
     rx_iov_frag_size := rx_iov_frag_size v;
     rx_iov_frag_ofs := rx_iov_frag_ofs v;
     rx_copied := rx_copied v;
     rx_umem := rx_umem v |}.

(** Lines 419-422: take the next iovec fragment (after [j++]). *)
Definition recvmsg_next_iov (v : rx_vars) : rx_vars :=
  {| rx_i := rx_i v;
     rx_avail := rx_avail v;
     rx_morefrag := rx_morefrag v;
     rx_nm_frag_size := rx_nm_frag_size v;
     rx_nm_frag_ofs := rx_nm_frag_ofs v;
     rx_src := rx_src v;
     rx_j := rx_j v;
     rx_dst := rx_j v;
     rx_iov_frag_size := u32 (iov_len_at (rx_umem v) (rx_j v));
     rx_iov_frag_ofs := 0;
     rx_copied := rx_copied v;
     rx_umem := rx_umem v |}.

(** The way the copy loop of [netmap_socket_recvmsg] ends. *)
Inductive rx_loop_exit :=
| Rx_cond         (* line 381: [copied < total_len] is false *)
| Rx_break_slot   (* line 396: slot exhausted, last slot or none left *)
| Rx_break_iov.   (* line 417: iovec exhausted *)

(** Lines 382-423: one iteration of the copy loop.  [inl] continues the
    loop, [inr] is a [break]. *)
Definition recvmsg_body (na : netmap_adapter) (iovcnt : Z) (v : rx_vars)
  : rx_vars + rx_loop_exit * rx_vars :=
  let v := recvmsg_copy na v in
  let slot_step :=
    if rx_nm_frag_size v =? 0 then
      if negb (rx_morefrag v) || (rx_avail v =? 0) then inr (Rx_break_slot, v)
      else inl (recvmsg_next_slot na v)
    else inl v in
  match slot_step with
  | inr out => inr out
  | inl v =>
      if rx_iov_frag_size v =? 0 then
        let v := recvmsg_incr_j v in
        if iovcnt <=? rx_j v then inr (Rx_break_iov, v)
        else inl (recvmsg_next_iov v)
      else inl v
  end.

(** Lines 381-424: [while (copied < total_len) { ... }]. *)
Fixpoint recvmsg_loop (fuel : nat) (na : netmap_adapter) (iovcnt total_len : Z)
    (v : rx_vars) : option (rx_loop_exit * rx_vars) :=
  if rx_copied v <? total_len then
    match fuel with
    | O => None
    | S fuel =>
        match recvmsg_body na iovcnt v with
        | inl v => recvmsg_loop fuel na iovcnt total_len v
        | inr out => Some out
        end
    end
  else Some (Rx_cond, v).

(** The [return] statement a call of [netmap_socket_recvmsg] leaves by. *)
Inductive recvmsg_exit :=
| Rx_null_adapter                 (* line 349 *)
| Rx_spurious                     (* line 365 *)
| Rx_done (e : rx_loop_exit).     (* line 436 *)

Record recvmsg_result := {
  rx_ret : Z;
  rx_exit : recvmsg_exit;
  rx_na_out : option netmap_adapter;
  rx_msg_out : msghdr;
  rx_trace : list event
}.

(** Lines 353-376: the locals at the entry of the copy loop. *)
Definition recvmsg_init (na : netmap_adapter) (m : msghdr) : rx_vars :=
  let ring := rx_rings0 na in
  let i := u32 (cur ring) in
  {| rx_i := i;
     rx_avail := u32 (avail ring);
     rx_morefrag := slot_morefrag (slot_at ring i);
     rx_nm_frag_size := u32 (len (slot_at ring i));
     rx_nm_frag_ofs := 0;
     rx_src := BDG_NMB na (slot_at ring i);
     rx_j := 0;
     rx_dst := 0;
     rx_iov_frag_size := u32 (iov_len_at (msg_iov m) 0);
     rx_iov_frag_ofs := 0;
     rx_copied := 0;
     rx_umem := msg_iov m |}.

(** Enough iterations for the copy loop: each one that does not [break]
    takes a slot or a segment. *)
Definition recvmsg_fuel (na : netmap_adapter) (m : msghdr) : nat :=
  S (Z.to_nat (u32 (avail (rx_rings0 na))) + length (msg_iov m)).

Definition netmap_socket_recvmsg (na : option netmap_adapter) (m : msghdr)
    (total_len : Z) (fl : Z) : option recvmsg_result :=
  let iovcnt := msg_iovlen m in
  match na with
  | None =>
      Some {| rx_ret := s32 total_len; rx_exit := Rx_null_adapter;
              rx_na_out := None; rx_msg_out := m;
              rx_trace := [Ev_RD_null_adapter] |}
  | Some na =>
      if u32 (avail (rx_rings0 na)) =? 0 then
        Some {| rx_ret := 0; rx_exit := Rx_spurious;
                rx_na_out := Some na; rx_msg_out := m; rx_trace := [] |}
      else
        match recvmsg_loop (recvmsg_fuel na m) na iovcnt total_len
                (recvmsg_init na m) with
        | None => None
        | Some (e, v) =>
            let warn :=
              if (rx_avail v =? 0) && rx_morefrag v then [Ev_RD_out_of_slots]
              else [] in
            let ring := set_cur_avail (rx_i v) (rx_avail v) (rx_rings0 na) in
            Some {| rx_ret := s32 (rx_copied v);
                    rx_exit := Rx_done e;
                    rx_na_out := Some (set_rx_ring ring na);
                    rx_msg_out := {| msg_iov := rx_umem v |};
                    rx_trace := warn ++ [Ev_D_read (rx_copied v) (rx_j v)] |}
        end
  end.

End Model.

(** * The rest of the file: generic adapter, socket life cycle, file
    operations *)

(** Error numbers and transmit codes of the Linux headers. *)
Definition EBADF : Z := 9.
Definition ENOMEM : Z := 12.
Definition EFAULT : Z := 14.
Definition EBUSY : Z := 16.
Definition EINVAL : Z := 22.
Definition NET_XMIT_SUCCESS : Z := 0.
Definition NET_XMIT_DROP : Z := 1.

(** [u16] and [unsigned long]. *)
Definition u16 (x : Z) : Z := x mod 2 ^ 16.
Definition u64 (x : Z) : Z := x mod 2 ^ 64.

(** ** Generic adapter support: packet steering *)

(** A function pointer in the [ndo_select_queue] member: the function of
    this file or another one, by address (0 for [NULL]). *)
Inductive select_queue_fn :=
| Select_generic                (* &generic_ndo_select_queue *)
| Select_other (f : Z).

(** A [struct net_device_ops]: the member [netmap_catch_packet_steering]
    replaces and, taken together, the members it copies. *)
Record net_device_ops := {
  ndo_select_queue : select_queue_fn;
  ndo_others : Z
}.

Definition set_ndo_select_queue (f : select_queue_fn) (ops : net_device_ops)
  : net_device_ops :=
  {| ndo_select_queue := f; ndo_others := ndo_others ops |}.

(** What [netmap_catch_packet_steering] reads and writes: the pointers
    [ifp->netdev_ops] and [na->if_transmit], and the tables in memory by
    address, [gna->generic_ndo] among them.  (The members are declared in
    netmap_kern.h and in the Linux headers; they are taken as the
    function uses them.) *)
Record steering := {
  netdev_ops : Z;
  if_transmit : Z;
  ops_mem : gmap Z net_device_ops
}.

(** Lines 144-164.  [generic_ndo] is the address of [gna->generic_ndo].
    Reading through a pointer to no table is undefined ([None]). *)
Definition netmap_catch_packet_steering (generic_ndo : Z) (enable : Z)
    (st : steering) : option steering :=
  if enable =? 0 then
    Some {| netdev_ops := if_transmit st;
            if_transmit := if_transmit st;
            ops_mem := ops_mem st |}
  else
    match ops_mem st !! netdev_ops st with
    | None => None
    | Some ops =>
        let mem := <[generic_ndo := ops]> (ops_mem st) in
        let mem := alter (set_ndo_select_queue Select_generic) generic_ndo mem in
        Some {| netdev_ops := generic_ndo;
                if_transmit := netdev_ops st;
                ops_mem := mem |}
    end.

(** The queue selection the device uses: the member of the table
    [ifp->netdev_ops] points to. *)
Definition select_queue_in_use (st : steering) : option select_queue_fn :=
  ndo_select_queue <$> ops_mem st !! netdev_ops st.

(** ** Generic adapter support: transmission *)

(** An [sk_buff] with linear data only, as [generic_xmit_frame] uses it:
    the buffer from [skb->data] to [skb->end], of which the first
    [skb_len] bytes are the data of the frame, and the members the
    function sets. *)
Record mbuf := {
  skb_buf : list byte;
  skb_len : Z;
  users : Z;
  dev : Z;
  priority : Z;
  queue_mapping : Z
}.

Definition set_skb_buf (b : list byte) (m : mbuf) : mbuf :=
  {| skb_buf := b; skb_len := skb_len m; users := users m;
     dev := dev m; priority := priority m; queue_mapping := queue_mapping m |}.

Definition set_skb_len (n : Z) (m : mbuf) : mbuf :=
  {| skb_buf := skb_buf m; skb_len := n; users := users m;
     dev := dev m; priority := priority m; queue_mapping := queue_mapping m |}.

(** The Linux helpers for an skb with linear data.  [skb_trim] cuts the
    data down to [len] bytes; [skb_copy_to_linear_data] is a [memcpy] to
    [skb->data], undefined ([None]) when it reads past the source or
    writes past the buffer; [skb_put] makes the data [len] bytes longer
    and stops the kernel ([None]) when the buffer has no room for
    them. *)
Definition skb_trim (m : mbuf) (len : Z) : mbuf :=
  if len <? skb_len m then set_skb_len len m else m.

Definition skb_copy_to_linear_data (m : mbuf) (from : list byte) (len : Z)
  : option mbuf :=
  if (Z.of_nat (length from) <? len) || (Z.of_nat (length (skb_buf m)) <? len)
  then None
  else Some (set_skb_buf (splice (skb_buf m) 0 (take (Z.to_nat len) from)) m).

Definition skb_put (m : mbuf) (len : Z) : option mbuf :=
  if Z.of_nat (length (skb_buf m)) <? skb_len m + len then None
  else Some (set_skb_len (skb_len m + len) m).

(** [skb_set_queue_mapping] takes a [u16]; [skb_get_queue_mapping]
    reads the member back. *)
Definition skb_set_queue_mapping (m : mbuf) (q : Z) : mbuf :=
  {| skb_buf := skb_buf m; skb_len := skb_len m; users := users m;
     dev := dev m; priority := priority m; queue_mapping := u16 q |}.

Definition skb_get_queue_mapping (m : mbuf) : Z := queue_mapping m.

(** Lines 138-141. *)
Definition generic_ndo_select_queue (ifp : Z) (m : mbuf) : Z :=
  skb_get_queue_mapping m.

Inductive xmit_event :=
| Ev_dev_queue_xmit (m : mbuf)
| Ev_RD_hard_error (ret : Z).

(** Lines 168-195.  [addr] is the netmap buffer the frame is copied from
    and [dev_queue_xmit] the answer of the device layer to the skb it is
    given. *)
Definition generic_xmit_frame (dev_queue_xmit : mbuf -> Z) (ifp : Z) (m : mbuf)
    (addr : list byte) (len ring_nr : Z) : option (Z * mbuf * list xmit_event) :=
  let m := skb_trim m 0 in
  match skb_copy_to_linear_data m addr len with
  | None => None
  | Some m =>
      match skb_put m len with
      | None => None
      | Some m =>
          let m :=
            {| skb_buf := skb_buf m; skb_len := skb_len m;
               users := users m + 1;
               dev := ifp;
               priority := 100;
               queue_mapping := queue_mapping m |} in
          let m := skb_set_queue_mapping m ring_nr in
          let ret := dev_queue_xmit m in
          if ret =? NET_XMIT_SUCCESS then Some (0, m, [Ev_dev_queue_xmit m])
          else if negb (ret =? NET_XMIT_DROP) then
            Some (-1, m, [Ev_dev_queue_xmit m; Ev_RD_hard_error ret])
          else Some (-1, m, [Ev_dev_queue_xmit m])
      end
  end.

(** The frame an skb carries: its first [skb_len] bytes. *)
Definition skb_frame (m : mbuf) : list byte :=
  take (Z.to_nat (skb_len m)) (skb_buf m).

(** ** Socket support: write space *)

(** Bit number of the socket flag and poll bits, from the Linux
    headers. *)
Definition SOCK_ASYNC_NOSPACE : Z := 0.
Definition POLLOUT : Z := 0x4.
Definition POLLWRNORM : Z := 0x100.
Definition POLLWRBAND : Z := 0x200.

(** What [netmap_sock_write_space] looks at: the answer of
    [sock_writeable(sk)], the flags of [sk->sk_socket] and the wait queue
    [sk_sleep(sk)] returns ([None] for [NULL]) with its waiters. *)
Record sock_space := {
  sock_writeable : bool;
  sk_socket_flags : Z;
  sk_sleep : option (list Z)
}.

Inductive space_event :=
| Ev_wake_up_interruptible_poll (mask : Z).

Definition waitqueue_active (q : list Z) : bool :=
  match q with [] => false | _ => true end.

(** Lines 450-463.  [||] evaluates [test_and_clear_bit] only for a
    writeable socket. *)
Definition netmap_sock_write_space (sk : sock_space)
  : sock_space * list space_event :=
  if negb (sock_writeable sk) then (sk, [])
  else
    let was_set := Z.testbit (sk_socket_flags sk) SOCK_ASYNC_NOSPACE in
    let sk := {| sock_writeable := sock_writeable sk;
                 sk_socket_flags := Z.clearbit (sk_socket_flags sk) SOCK_ASYNC_NOSPACE;
                 sk_sleep := sk_sleep sk |} in
    if negb was_set then (sk, [])
    else
      match sk_sleep sk with
      | Some wqueue =>
          if waitqueue_active wqueue then
            (sk, [Ev_wake_up_interruptible_poll
                    (Z.lor (Z.lor POLLOUT POLLWRNORM) POLLWRBAND)])
          else (sk, [])
      | None => (sk, [])
      end.

(** ** Socket support: life cycle *)

(** A function pointer in [nm_dtor]: the destructor of this file or
    another one, by address. *)
Inductive nm_dtor_fn :=
| Dtor_netmap_socket            (* &netmap_socket_nm_dtor *)
| Dtor_other (f : Z).

(** [struct netmap_sock]: the file the socket belongs to, the skbs on
    [sk.sk_receive_queue], and the members of the structure itself. *)
Record netmap_sock := {
  sock_file : Z;
  sk_receive_queue : list Z;
  saved_nm_dtor : option nm_dtor_fn;
  owner : Z;
  nm_sock_na : Z
}.

(** Modelled from the spec: [struct netmap_adapter] is declared in
    netmap_kern.h.  The socket life cycle, which the spec leaves to the
    host transport, uses two members of it: [na_private], the socket
    allocated for the adapter ([None] for [NULL]), and the destructor
    [nm_dtor]. *)
Record netmap_adapter_sock := {
  na_private : option netmap_sock;
  nm_dtor : option nm_dtor_fn
}.

Inductive sock_event :=
| Ev_sk_alloc (ok : bool)
| Ev_sock_init_data
| Ev_alloc_skb (ok : bool)
| Ev_skb_queue_tail (skb : Z)
| Ev_sock_hold
| Ev_skb_queue_purge
| Ev_sock_put
| Ev_sk_free
| Ev_D_skb_failed
| Ev_D_socket_ok
| Ev_D_socket_freed
| Ev_nm_dtor (f : Z)
| Ev_NMG_LOCK
| Ev_NMG_UNLOCK.

(** Lines 465-486. *)
Definition netmap_sock_teardown (a : netmap_adapter_sock)
  : netmap_adapter_sock * list sock_event :=
  match na_private a with
  | Some nm_sock =>
      ({| na_private := None; nm_dtor := saved_nm_dtor nm_sock |},
       [Ev_skb_queue_purge; Ev_sock_put; Ev_sk_free; Ev_D_socket_freed])
  | None => (a, [])
  end.

(** Lines 488-494.  The saved destructor runs outside this file: its call
    is an event.  When the pointer is [netmap_socket_nm_dtor] itself the
    function calls itself, one unit of [fuel] per call. *)
Fixpoint netmap_socket_nm_dtor (fuel : nat) (a : netmap_adapter_sock)
  : option (netmap_adapter_sock * list sock_event) :=
  let '(a, tr) := netmap_sock_teardown a in
  match nm_dtor a with
  | None => Some (a, tr)
  | Some (Dtor_other f) => Some (a, tr ++ [Ev_nm_dtor f])
  | Some Dtor_netmap_socket =>
      match fuel with
      | O => None
      | S fuel =>
          match netmap_socket_nm_dtor fuel a with
          | Some (a, tr') => Some (a, tr ++ tr')
          | None => None
          end
      end
  end.

(** Lines 496-538.  [sk_alloc_ok] tells whether [sk_alloc] finds memory
    and [skb] is what [alloc_skb] returns; [na] is the address of the
    adapter and [current] the calling task.  The result is the socket,
    [None] for [NULL]. *)
Definition netmap_sock_setup (sk_alloc_ok : bool) (skb : option Z)
    (current na filp : Z) (a : netmap_adapter_sock)
  : netmap_adapter_sock * option netmap_sock * list sock_event :=
  if negb sk_alloc_ok then
    ({| na_private := None; nm_dtor := nm_dtor a |}, None, [Ev_sk_alloc false])
  else
    match skb with
    | None =>
        ({| na_private := None; nm_dtor := nm_dtor a |}, None,
         [Ev_sk_alloc true; Ev_sock_init_data; Ev_alloc_skb false;
          Ev_D_skb_failed; Ev_sk_free])
    | Some skb =>
        let nm_sock :=
          {| sock_file := filp;
             sk_receive_queue := [skb];
             saved_nm_dtor := nm_dtor a;
             owner := current;
             nm_sock_na := na |} in
        ({| na_private := Some nm_sock; nm_dtor := Some Dtor_netmap_socket |},
         Some nm_sock,
         [Ev_sk_alloc true; Ev_sock_init_data; Ev_alloc_skb true;
          Ev_skb_queue_tail skb; Ev_sock_hold; Ev_D_socket_ok])
    end.

(** ** File operations *)

(** The [f_op] member of a file: [&netmap_fops] or another table. *)
Inductive f_op_ref :=
| Fops_netmap
| Fops_other (p : Z).

(** Modelled from the spec: [struct netmap_priv_d] is declared in
    netmap_kern.h.  The file operations use its member [np_na], the
    adapter the descriptor is bound to, by address ([None] for [NULL]). *)
Record netmap_priv_d := {
  np_na : option Z
}.

(** A [struct file]: its operations, its private data and its reference
    count. *)
Record file := {
  f_op : f_op_ref;
  private_data : option netmap_priv_d;
  f_count : Z
}.

(** The kernel objects [get_netmap_socket] walks through: the descriptor
    table of the calling task, the files and the adapters, by address.
    Descriptors may share a file and files may share an adapter. *)
Record kernel := {
  fdtable : gmap Z Z;
  filemem : gmap Z file;
  adapters : gmap Z netmap_adapter_sock
}.

(** Lines 668-682.  [malloc] with [M_ZERO] returns zeroed memory or
    [NULL]. *)
Definition linux_netmap_open (malloc_ok : bool) (f : file) : Z * file :=
  if negb malloc_ok then (- ENOMEM, f)
  else (0, {| f_op := f_op f;
              private_data := Some {| np_na := None |};
              f_count := f_count f |}).

Inductive file_event :=
| Ev_netmap_dtor (priv : netmap_priv_d).

(** Lines 658-665. *)
Definition linux_netmap_release (f : file) : Z * list file_event :=
  match private_data f with
  | Some priv => (0, [Ev_netmap_dtor priv])
  | None => (0, [])
  end.

(** What [get_netmap_socket] returns: [ERR_PTR(e)], or the address of
    the [sock] member of the socket of the adapter at [na]. *)
Inductive socket_ptr :=
| ERR_PTR (e : Z)
| Socket_of (na : Z).

(** [fget]: the file of a descriptor, with one more reference on it, or
    [NULL] (the inner [None]) for a descriptor that is not open.  A
    descriptor of a file that is not in memory is a broken table: the
    answer is undefined (the outer [None]). *)
Definition fget (fd : Z) (k : kernel) : option (option (Z * file) * kernel) :=
  match fdtable k !! fd with
  | None => Some (None, k)
  | Some filp =>
      match filemem k !! filp with
      | None => None
      | Some f =>
          let f := {| f_op := f_op f; private_data := private_data f;
                      f_count := f_count f + 1 |} in
          Some (Some (filp, f),
                {| fdtable := fdtable k;
                   filemem := <[filp := f]> (filemem k);
                   adapters := adapters k |})
      end
  end.

Section FileOperations.

(** [NETMAP_OWNED_BY_KERN] is a macro of netmap_kern.h over the adapter;
    the development holds for any such test. *)
Variable NETMAP_OWNED_BY_KERN : netmap_adapter_sock -> bool.

(** Lines 695-737.  [sk_alloc_ok] and [skb] are the answers of the
    allocators, should the socket have to be set up.  A file bound to an
    adapter that is not in memory is a dangling pointer: the call is
    undefined ([None]). *)
Definition get_netmap_socket (sk_alloc_ok : bool) (skb : option Z)
    (current fd : Z) (k : kernel)
  : option (socket_ptr * kernel * list sock_event) :=
  match fget fd k with
  | None => None
  | Some (None, k) => Some (ERR_PTR EBADF, k, [])
  | Some (Some (filp, f), k) =>
      match f_op f with
      | Fops_other _ => Some (ERR_PTR EINVAL, k, [])
      | Fops_netmap =>
          match private_data f with
          | None => Some (ERR_PTR EBADF, k, [])
          | Some priv =>
              match np_na priv with
              | None => Some (ERR_PTR EBADF, k, [Ev_NMG_LOCK; Ev_NMG_UNLOCK])
              | Some na =>
                  match adapters k !! na with
                  | None => None
                  | Some a =>
                      let nm_sock := na_private a in
                      if NETMAP_OWNED_BY_KERN a
                         && match nm_sock with
                            | None => true
                            | Some s => negb (owner s =? current)
                            end
                      then Some (ERR_PTR EBUSY, k, [Ev_NMG_LOCK; Ev_NMG_UNLOCK])
                      else
                        match nm_sock with
                        | Some _ =>
                            Some (Socket_of na, k, [Ev_NMG_LOCK; Ev_NMG_UNLOCK])
                        | None =>
                            let '(a, nm_sock, tr) :=
                              netmap_sock_setup sk_alloc_ok skb current na filp a in
                            let k := {| fdtable := fdtable k;
                                        filemem := filemem k;
                                        adapters := <[na := a]> (adapters k) |} in
                            Some (match nm_sock with
                                  | Some _ => Socket_of na
                                  | None => ERR_PTR ENOMEM
                                  end,
                                  k, [Ev_NMG_LOCK] ++ tr ++ [Ev_NMG_UNLOCK])
                        end
                  end
              end
          end
      end
  end.

End FileOperations.

(** ** File operations: ioctl *)

Section Ioctl.

(** [struct nmreq] and the ioctl numbers are declared in netmap.h, and
    [netmap_ioctl] is defined in netmap.c: the request type, its zeroed
    value, the two synchronisation commands and the function (with the
    kernel state it works on) are parameters. *)
Variable nmreq : Type.
Variable nmreq_zero : nmreq.
Variable kstate : Type.
Variable netmap_ioctl : Z -> nmreq -> kstate -> Z * nmreq * kstate.
Variables NIOCTXSYNC NIOCRXSYNC : Z.

(** User memory as the ioctl sees it: at an address, a request that can
    be read, and whether the place can be written. *)
Definition nmreq_mem : Type := gmap Z (nmreq * bool).

(** Lines 631-655 (the variant for kernels from 2.6.37 on). *)
Definition linux_netmap_ioctl (cmd data : Z) (umem : nmreq_mem) (ks : kstate)
  : Z * nmreq_mem * kstate :=
  let nmr := nmreq_zero in
  let data := if (cmd =? NIOCTXSYNC) || (cmd =? NIOCRXSYNC) then 0 else data in
  let copy_in :=
    if data =? 0 then Some nmr
    else fst <$> umem !! data in
  match copy_in with
  | None => (- EFAULT, umem, ks)
  | Some nmr =>
      let '(ret, nmr, ks) := netmap_ioctl cmd nmr ks in
      if data =? 0 then (s32 (- ret), umem, ks)
      else
        match umem !! data with
        | Some (_, true) => (s32 (- ret), <[data := (nmr, true)]> umem, ks)
        | _ => (- EFAULT, umem, ks)
        end
  end.

End Ioctl.

(** ** File operations: mmap *)

Inductive mmap_event :=
| Ev_remap_pfn_range (va pfn size : Z).

Section Mmap.

(** [PAGE_SHIFT] is fixed by the architecture; [netmap_mem_ofstophys] is
    defined in netmap_mem2.c and [remap_pfn_range] by the kernel: the
    physical address of an offset and the answer to a remapping are
    parameters. *)
Variable PAGE_SHIFT : Z.
Variable netmap_mem_ofstophys : Z -> Z.
Variable remap_pfn_range : Z -> Z -> Z.

Definition PAGE_SIZE : Z := Z.shiftl 1 PAGE_SHIFT.
Definition PAGE_MASK : Z := Z.lnot (PAGE_SIZE - 1).

(** Lines 604-616: the loop over the pages, from [va] and [off] on. *)
Fixpoint mmap_loop (fuel : nat) (vm_end va off : Z)
  : option (Z * list mmap_event) :=
  if va <? vm_end then
    match fuel with
    | O => None
    | S fuel =>
        let pa := netmap_mem_ofstophys (u64 (Z.shiftl off PAGE_SHIFT)) in
        if pa =? 0 then Some (- EINVAL, [])
        else
          let pfn := Z.shiftr pa PAGE_SHIFT in
          let error := remap_pfn_range va pfn in
          if negb (error =? 0) then
            Some (error, [Ev_remap_pfn_range va pfn PAGE_SIZE])
          else
            match mmap_loop fuel vm_end (u64 (va + PAGE_SIZE)) (u64 (off + 1)) with
            | Some (r, tr) => Some (r, Ev_remap_pfn_range va pfn PAGE_SIZE :: tr)
            | None => None
            end
    end
  else Some (0, []).

(** The pages of a mapping. *)
Definition mmap_pages (vm_start vm_end : Z) : nat :=
  Z.to_nat ((vm_end - vm_start) / PAGE_SIZE).

(** Lines 580-618.  [get_memory] is the answer of [netmap_get_memory]. *)
Definition linux_netmap_mmap (get_memory : Z) (vm_start vm_end vm_pgoff : Z)
  : option (Z * list mmap_event) :=
  let error := get_memory in
  if negb (error =? 0) then Some (s32 (- error), [])
  else if negb (Z.land vm_start (Z.lnot PAGE_MASK) =? 0)
          || negb (Z.land vm_end (Z.lnot PAGE_MASK) =? 0)
  then Some (- EINVAL, [])
  else mmap_loop (S (mmap_pages vm_start vm_end)) vm_end vm_start vm_pgoff.

End Mmap.

(** ** Specification vocabulary *)

(** The notifications ([netmap_common_irq]) in a trace. *)
Definition is_notification (e : event) : bool :=
  match e with Ev_netmap_common_irq _ => true | _ => false end.

Definition notifications (tr : list event) : nat :=
  length (List.filter is_notification tr).

(** The ring invariant: [avail] never exceeds the capacity and [cur] is a
    valid slot index. *)
Definition ring_inv (r : netmap_ring) : Prop :=
  0 <= avail r <= num_slots r /\ 0 <= cur r < num_slots r.

(** A well-formed ring: the invariant, a slot array of [num_slots] entries
    and a capacity that fits the [uint32_t] field. *)
Definition ring_wf (r : netmap_ring) : Prop :=
  ring_inv r /\ Z.of_nat (length (slot r)) = num_slots r /\ num_slots r < 2 ^ 32.

(** Projections of the ring a [sendmsg] call leaves behind. *)
Definition tx_ring_out (r : sendmsg_result) : option netmap_ring :=
  tx_rings0 <$> tx_na_out r.

Definition rx_ring_out (r : recvmsg_result) : option netmap_ring :=
  rx_rings0 <$> rx_na_out r.

(** Stepping an index [k] times, each step as [NETMAP_RING_NEXT] does. *)
Definition ring_steps (n : Z) (k : nat) (i : Z) : Z :=
  Nat.iter k (fun i => (i + 1) mod n) i.

(** The bytes held by the [k] slots that start at index [i0]. *)
Fixpoint chain_bytes (r : netmap_ring) (i0 : Z) (k : nat) : Z :=
  match k with
  | O => 0
  | S k' => chain_bytes r i0 k'
            + u32 (len (slot_at r (ring_steps (num_slots r) k' i0)))
  end.

(** The state a loop step of [netmap_socket_recvmsg] leaves, whether it
    continues or breaks. *)
Definition rx_out_state (o : rx_vars + rx_loop_exit * rx_vars) : rx_vars :=
  match o with inl v => v | inr (_, v) => v end.

(** The states of the locals at the head of the copy loop in a call of
    [netmap_socket_recvmsg]: the entry state, and every state an iteration
    that does not [break] leads to. *)
Inductive recvmsg_reaches {K : netmap_consts} (na : netmap_adapter) (m : msghdr)
    (total_len : Z) : rx_vars -> Prop :=
| reaches_init : recvmsg_reaches na m total_len (recvmsg_init na m)
| reaches_step v v' :
    recvmsg_reaches na m total_len v ->
    rx_copied v < total_len ->
    recvmsg_body na (msg_iovlen m) v = inl v' ->
    recvmsg_reaches na m total_len v'.

(** The valid bytes of a slot: the first [len] bytes of its buffer. *)
Definition slot_payload (na : netmap_adapter) (s : netmap_slot) : list byte :=
  take (Z.to_nat (u32 (len s))) (nm_buf na (BDG_NMB na s)).

(** The payloads of the [k] slots that start at index [i0]. *)
Definition payloads (na : netmap_adapter) (r : netmap_ring) (i0 : Z) (k : nat)
  : list (list byte) :=
  (fun t => slot_payload na (slot_at r (ring_steps (num_slots r) t i0))) <$> seq 0 k.

(** The [k] slots that start at [i0] hold one packet: every slot has some
    bytes, all of them inside its buffer, and [NS_MOREFRAG] is set on all
    slots but the last. *)
Definition holds_packet {K : netmap_consts} (na : netmap_adapter)
    (r : netmap_ring) (i0 : Z) (k : nat) : Prop :=
  forall t, (t < k)%nat ->
    let s := slot_at r (ring_steps (num_slots r) t i0) in
    0 < u32 (len s)
    /\ Z.of_nat (length (slot_payload na s)) = u32 (len s)
    /\ slot_morefrag s = bool_decide (S t < k)%nat.

(** Every slot of the ring has a buffer of its own in the adapter's
    memory. *)
Definition bufs_wf (na : netmap_adapter) (r : netmap_ring) : Prop :=
  NoDup (buf_idx <$> slot r)
  /\ forall s, s ∈ slot r -> is_Some (nm_mem na !! buf_idx s).

(** What reaches the receiving side of a transmission: [nm_txsync] and the
    peer are outside netmap_linux.c, so the hand-over is stated here.  The
    receiver's ring is the sender's ring after the call, read from the
    sender's entry cursor, with as many slots available as the call
    took. *)
Definition tx_to_rx (na0 na1 : netmap_adapter) : netmap_adapter :=
  set_rx_ring
    (set_cur_avail (cur (tx_rings0 na0))
       (avail (tx_rings0 na0) - avail (tx_rings0 na1))
       (tx_rings0 na1))
    na1.

(** Slots a segment of [n] bytes takes in buffers of [cap] bytes, and the
    slots an iovec takes when every segment starts a slot of its own. *)
Definition slots_for (cap n : Z) : Z := (n + cap - 1) / cap.

Fixpoint slots_needed (cap : Z) (iov : list (list byte)) : Z :=
  match iov with
  | [] => 0
  | seg :: iov => slots_for cap (iov_len seg) + slots_needed cap iov
  end.

(** A transmission followed by a reception on the ring handed over: the
    bytes the destination holds afterwards. *)
Definition round_trip {K : netmap_consts} (na : netmap_adapter)
    (src dst : msghdr) : option (list byte) :=
  match netmap_socket_sendmsg (Some na) src (iov_total (msg_iov src)) with
  | Some res =>
      match tx_na_out res with
      | Some na1 =>
          match netmap_socket_recvmsg (Some (tx_to_rx na na1)) dst
                  (iov_total (msg_iov src)) 0 with
          | Some res2 => Some (concat (msg_iov (rx_msg_out res2)))
          | None => None
          end
      | None => None
      end
  | None => None
  end.

(** ** Loop invariants *)

Section Invariants.
Context {K : netmap_consts}.

Definition tx_avail_in_range (v : tx_vars) : Prop := 0 <= tx_avail v < 2 ^ 32.

(** The cursors stored in the TX ring while the loops run: those of the
    ring at entry. *)
Definition tx_cursors_kept (na : netmap_adapter) (v : tx_vars) : Prop :=
  cur (tx_rings0 (tx_na v)) = cur (tx_rings0 na)
  /\ avail (tx_rings0 (tx_na v)) = avail (tx_rings0 na).

(** After [k] slot fills the loops stand [k] slots past the entry cursor
    and have [k] slots less at their disposal. *)
Definition tx_progress (na : netmap_adapter) (k : nat) (v : tx_vars) : Prop :=
  num_slots (tx_rings0 (tx_na v)) = num_slots (tx_rings0 na)
  /\ tx_i v = ring_steps (num_slots (tx_rings0 na)) k (u32 (cur (tx_rings0 na)))
  /\ tx_avail v = u32 (avail (tx_rings0 na)) - Z.of_nat k
  /\ 0 <= tx_avail v.

(** The unsigned locals stay in range, and [j] stays inside the iovec
    (an empty iovec is left at once). *)
Definition rx_in_range (iovcnt : Z) (v : rx_vars) : Prop :=
  0 <= rx_avail v < 2 ^ 32
  /\ 0 <= rx_nm_frag_size v < 2 ^ 32
  /\ 0 <= rx_iov_frag_size v < 2 ^ 32
  /\ 0 <= rx_j v <= iovcnt
  /\ (rx_j v < iovcnt \/ iovcnt = 0).

(** What one iteration does to the measure [avail + (iovcnt - j)]. *)
Definition rx_measure (iovcnt : Z) (v : rx_vars) : Z :=
  rx_avail v + (iovcnt - rx_j v).

(** After [k] slot changes the loop stands [k] slots past the entry
    cursor, has [k] slots less, holds the flag and the buffer of the slot
    it stands on, and has copied the [k] slots behind it and
    [nm_frag_ofs] bytes of the current one. *)
Definition rx_progress (na : netmap_adapter) (k : nat) (v : rx_vars) : Prop :=
  let r := rx_rings0 na in
  rx_i v = ring_steps (num_slots r) k (u32 (cur r))
  /\ rx_avail v = u32 (avail r) - Z.of_nat k
  /\ 0 <= rx_avail v
  /\ rx_morefrag v = slot_morefrag (slot_at r (rx_i v))
  /\ rx_src v = buf_idx (slot_at r (rx_i v))
  /\ 0 <= rx_nm_frag_ofs v
  /\ 0 <= rx_nm_frag_size v
  /\ rx_nm_frag_ofs v + rx_nm_frag_size v = u32 (len (slot_at r (rx_i v)))
  /\ rx_copied v = u32 (chain_bytes r (u32 (cur r)) k + rx_nm_frag_ofs v)
  /\ 0 <= rx_iov_frag_size v.

(** The slot fills keep the shape of the TX ring and leave the RX ring
    alone. *)
Definition tx_frame (na : netmap_adapter) (v : tx_vars) : Prop :=
  num_slots (tx_rings0 (tx_na v)) = num_slots (tx_rings0 na)
  /\ length (slot (tx_rings0 (tx_na v))) = length (slot (tx_rings0 na))
  /\ rx_rings0 (tx_na v) = rx_rings0 na.

(** Bytes in the first [j] segments. *)
Definition iov_prefix (l : list (list byte)) (j : Z) : Z :=
  iov_total (take (Z.to_nat j) l).

(** Accounting on the destination side, for an iovec whose total length
    fits [unsigned]: [dst] is segment [j], the cursor stays inside it, the
    segments keep their lengths, and [copied] is what lies before the
    cursor. *)
Definition rx_dest (m : msghdr) (v : rx_vars) : Prop :=
  length <$> rx_umem v = length <$> msg_iov m
  /\ rx_dst v = rx_j v
  /\ 0 <= rx_j v < msg_iovlen m
  /\ 0 <= rx_iov_frag_ofs v
  /\ 0 <= rx_iov_frag_size v
  /\ rx_iov_frag_ofs v + rx_iov_frag_size v = iov_len_at (msg_iov m) (rx_j v)
  /\ rx_copied v = iov_prefix (msg_iov m) (rx_j v) + rx_iov_frag_ofs v
  /\ 0 <= rx_nm_frag_size v.

(** After [k] slot fills on a well-formed ring: every slot filled carries
    [NS_MOREFRAG], [last] is the slot filled last, and the flags for the
    next fill still carry [NS_MOREFRAG]. *)
Definition tx_flagged (na : netmap_adapter) (k : nat) (v : tx_vars) : Prop :=
  tx_progress na k v
  /\ length (slot (tx_rings0 (tx_na v))) = length (slot (tx_rings0 na))
  /\ Z.land (tx_slot_flags v) NS_MOREFRAG = NS_MOREFRAG
  /\ tx_last v =
       ring_steps (num_slots (tx_rings0 na)) (pred k) (cur (tx_rings0 na))
  /\ forall t, (t < k)%nat ->
       slot_morefrag
         (slot_at (tx_rings0 (tx_na v))
            (ring_steps (num_slots (tx_rings0 na)) t (cur (tx_rings0 na)))) = true.

(** The destination agrees, on the bytes copied so far, with the packet
    of [nf] fragments at the entry cursor. *)
Definition rx_content (na : netmap_adapter) (nf : nat) (v : rx_vars) : Prop :=
  take (Z.to_nat (rx_copied v)) (concat (rx_umem v))
  = take (Z.to_nat (rx_copied v))
      (concat (payloads na (rx_rings0 na) (u32 (cur (rx_rings0 na))) nf)).

(** The loop stands inside that packet, at fragment [k]. *)
Definition rx_reading (na : netmap_adapter) (m : msghdr) (nf : nat)
    (v : rx_vars) : Prop :=
  exists k, (k < nf)%nat /\ rx_progress na k v /\ rx_dest m v /\ rx_content na nf v.

(** After [k] slot fills the slots from the entry cursor on hold [data],
    each with some bytes inside its buffer; the slots keep their buffers
    and the buffers stay in memory. *)
Definition tx_data (na : netmap_adapter) (data : list byte) (k : nat)
    (v : tx_vars) : Prop :=
  tx_progress na k v
  /\ buf_idx <$> slot (tx_rings0 (tx_na v)) = buf_idx <$> slot (tx_rings0 na)
  /\ (forall p, is_Some (nm_mem na !! p) -> is_Some (nm_mem (tx_na v) !! p))
  /\ concat (payloads (tx_na v) (tx_rings0 (tx_na v)) (cur (tx_rings0 na)) k) = data
  /\ forall t, (t < k)%nat ->
       let s := slot_at (tx_rings0 (tx_na v))
                  (ring_steps (num_slots (tx_rings0 na)) t (cur (tx_rings0 na))) in
       0 < u32 (len s)
       /\ Z.of_nat (length (slot_payload (tx_na v) s)) = u32 (len s).

End Invariants.

(** The constants used for closed examples: [NS_MOREFRAG] as in netmap.h,
    [IFCAP_NETMAP] as in bsd_glue.h, a free bit for [NS_VNET_HDR]. *)
#[export] Instance linux_consts : netmap_consts :=
  {| NS_MOREFRAG := 0x20; NS_VNET_HDR := 0x40; IFCAP_NETMAP := 0x100000;
     netmap_generic_mit := 100000;
     NS_MOREFRAG_pos := eq_refl;
     NS_VNET_HDR_nonneg := ltac:(discriminate);
     NS_flags_disjoint := eq_refl |}.

(** A ring of [n] empty slots over buffers [2 .. n+1] of [sz] zero bytes. *)
Definition blank_ring (n : nat) (sz c a : Z) : netmap_ring :=
  {| num_slots := Z.of_nat n; nr_buf_size := sz; cur := c; avail := a;
     slot := map (fun k => {| buf_idx := Z.of_nat k + 2; len := 0; flags := 0 |})
                 (seq 0 n) |}.

Definition blank_mem (n : nat) (sz : Z) : gmap Z (list byte) :=
  list_to_map (map (fun k => (Z.of_nat k + 2, repeat x00 (Z.to_nat sz))) (seq 0 n)).

Definition blank_adapter (n : nat) (sz c a : Z) : netmap_adapter :=
  {| tx_rings0 := blank_ring n sz c a; rx_rings0 := blank_ring n sz c a;
     nm_mem := blank_mem n sz |}.

(** An adapter whose RX ring holds, from slot 0 on, one packet of three
    fragments (4, 4 and 2 bytes) in a ring of 4 slots of 4 bytes; the
    reader stands at slot [c] with [a] slots available. *)
Definition packet_adapter (c a : Z) : netmap_adapter :=
  {| tx_rings0 := blank_ring 4 4 0 4;
     rx_rings0 :=
       {| num_slots := 4; nr_buf_size := 4; cur := c; avail := a;
          slot := [ {| buf_idx := 2; len := 4; flags := 0x20 |};
                    {| buf_idx := 3; len := 4; flags := 0x20 |};
                    {| buf_idx := 4; len := 2; flags := 0 |};
                    {| buf_idx := 5; len := 0; flags := 0 |} ] |};
     nm_mem := list_to_map [ (2, [x01; x02; x03; x04]);
                             (3, [x05; x06; x07; x08]);
                             (4, [x09; x0a; x00; x00]);
                             (5, [x00; x00; x00; x00]) ] |}.

(** The slots a ring offers to its user: the [avail] slots from [cur]
    on. *)
Definition in_window (r : netmap_ring) (j : Z) : Prop :=
  exists t, (t < Z.to_nat (avail r))%nat
            /\ j = ring_steps (num_slots r) t (cur r).

(** The shape of the adapter: the ring geometry, the buffer every slot
    refers to, the buffers in memory and the RX ring. *)
Definition same_geometry (na na1 : netmap_adapter) : Prop :=
  num_slots (tx_rings0 na1) = num_slots (tx_rings0 na)
  /\ nr_buf_size (tx_rings0 na1) = nr_buf_size (tx_rings0 na)
  /\ buf_idx <$> slot (tx_rings0 na1) = buf_idx <$> slot (tx_rings0 na)
  /\ rx_rings0 na1 = rx_rings0 na
  /\ forall p, is_Some (nm_mem na1 !! p) <-> is_Some (nm_mem na !! p).

(** The bytes of every buffer past the slot size, and the length of every
    buffer that has room for a slot. *)
Definition bufs_bounded (cap : Z) (na na1 : netmap_adapter) : Prop :=
  forall p b, nm_mem na !! p = Some b ->
    exists b', nm_mem na1 !! p = Some b'
               /\ length b' = length b
               /\ drop (Z.to_nat cap) b' = drop (Z.to_nat cap) b.

(** What a call leaves of slot [j] and of its buffer. *)
Definition tx_outside (na : netmap_adapter) (j : Z) (v : tx_vars) : Prop :=
  buf_idx <$> slot (tx_rings0 (tx_na v)) = buf_idx <$> slot (tx_rings0 na)
  /\ slot_at (tx_rings0 (tx_na v)) j = slot_at (tx_rings0 na) j
  /\ nm_buf (tx_na v) (buf_idx (slot_at (tx_rings0 na) j))
     = nm_buf na (buf_idx (slot_at (tx_rings0 na) j)).

(** The destructor pointer of an adapter is [netmap_socket_nm_dtor]
    exactly while the adapter has a socket, and the destructor the socket
    saved is another one. *)
Definition sock_inv (a : netmap_adapter_sock) : Prop :=
  match na_private a with
  | Some s => nm_dtor a = Some Dtor_netmap_socket
              /\ saved_nm_dtor s <> Some Dtor_netmap_socket
  | None => nm_dtor a <> Some Dtor_netmap_socket
  end.

Definition is_lock_event (e : sock_event) : bool :=
  match e with Ev_NMG_LOCK | Ev_NMG_UNLOCK => true | _ => false end.

(** The events of a tear-down. *)
Definition teardown_events : list sock_event :=
  [Ev_skb_queue_purge; Ev_sock_put; Ev_sk_free; Ev_D_socket_freed].

Section MmapVocabulary.
Variable PAGE_SHIFT : Z.
Variable netmap_mem_ofstophys : Z -> Z.
Variable remap_pfn_range : Z -> Z -> Z.

(** Page [i] of a mapping that starts at [va] with page offset [off]:
    its user address, its page frame, and the remapping of the one onto
    the other. *)
Definition mmap_va (va : Z) (i : nat) : Z :=
  va + Z.of_nat i * PAGE_SIZE PAGE_SHIFT.

Definition mmap_pfn (off : Z) (i : nat) : Z :=
  Z.shiftr
    (netmap_mem_ofstophys (u64 (Z.shiftl (u64 (off + Z.of_nat i)) PAGE_SHIFT)))
    PAGE_SHIFT.

Definition mmap_page (va off : Z) (i : nat) : mmap_event :=
  Ev_remap_pfn_range (mmap_va va i) (mmap_pfn off i) (PAGE_SIZE PAGE_SHIFT).

(** How a mapping of [n] pages ends after [d] remappings: all pages
    mapped; no memory behind page [d]; or the remapping of the last page
    tried refused. *)
Definition mmap_outcome (va off : Z) (n : nat) (r : Z) (d : nat) : Prop :=
  (r = 0 /\ d = n)
  \/ (r = - EINVAL /\ (d < n)%nat
      /\ netmap_mem_ofstophys
           (u64 (Z.shiftl (u64 (off + Z.of_nat d)) PAGE_SHIFT)) = 0)
  \/ (r <> 0 /\ (d <= n)%nat
      /\ exists j, d = S j
                   /\ r = remap_pfn_range (mmap_va va j) (mmap_pfn off j)).

End MmapVocabulary.

(** ** Closed examples for the rest of the file *)

(** A device that uses the table of its driver at address 100, and a
    generic adapter whose table lives at address 200. *)
Definition driver_steering : steering :=
  {| netdev_ops := 100;
     if_transmit := 0;
     ops_mem := {[ 100 := {| ndo_select_queue := Select_other 7;
                             ndo_others := 42 |} ]} |}.

(** An adapter without a socket whose destructor is the function at
    address 5. *)
Definition plain_adapter : netmap_adapter_sock :=
  {| na_private := None; nm_dtor := Some (Dtor_other 5) |}.

(** Descriptor 3 of a netmap file bound to the adapter at address 10,
    which has no socket yet; an adapter counts as owned by the kernel
    when it has a socket. *)
Definition one_file : kernel :=
  {| fdtable := {[ 3 := 20 ]};
     filemem := {[ 20 := {| f_op := Fops_netmap;
                            private_data := Some {| np_na := Some 10 |};
                            f_count := 1 |} ]};
     adapters := {[ 10 := plain_adapter ]} |}.

Definition owned_if_socket (a : netmap_adapter_sock) : bool :=
  match na_private a with Some _ => true | None => false end.

(** An ioctl back end that answers 0, counts the request up and counts
    its calls; the synchronisation commands are 1 and 2. *)
Definition counting_ioctl (cmd req ks : Z) : Z * Z * Z := (0, req + 1, ks + 1).

(** * Proofs *)

Section Proofs.
Context {K : netmap_consts}.

(** ** Machine integers *)

Lemma u32_range x : 0 <= u32 x < 2 ^ 32.
Proof. unfold u32. apply Z.mod_pos_bound. lia. Qed.

Lemma u32_id x : 0 <= x < 2 ^ 32 -> u32 x = x.
Proof. intros H. unfold u32. apply Z.mod_small. exact H. Qed.

Lemma s32_id x : 0 <= x <= INT_MAX -> s32 x = x.
Proof.
  unfold s32, INT_MAX. intros H.
  rewrite Z.mod_small; lia.
Qed.

(** ** Mitigation *)

Lemma generic_timer_handler_idle gna :
  mit_pending gna = 0 ->
  generic_timer_handler gna = (HRTIMER_NORESTART, gna, []).
Proof.
  intros H. unfold generic_timer_handler. rewrite H. reflexivity.
Qed.

Lemma generic_timer_handler_pending gna :
  mit_pending gna <> 0 ->
  generic_timer_handler gna =
    (HRTIMER_RESTART, set_mit_pending 0 gna,
     (if Z.land (if_capenable gna) IFCAP_NETMAP =? 0 then []
      else [Ev_netmap_common_irq 0])
     ++ [Ev_hrtimer_forward_now netmap_generic_mit]).
Proof.
  intros H. unfold generic_timer_handler.
  destruct (Z.eqb_spec (mit_pending gna) 0) as [E|_]; [contradiction|].
  reflexivity.
Qed.

(** C5 (as amended).  A timer expiry while [mit_pending] is set clears the
    flag, forwards the timer and keeps it queued, and raises exactly one
    notification when the interface has [IFCAP_NETMAP] enabled, none
    otherwise; an expiry while [mit_pending] is clear leaves the state
    alone, takes the timer off the queue and raises no notification. *)
Theorem mit_timer_expiry_spec gna :
  (mit_pending gna <> 0 ->
     mit_pending (mit_timer_expiry gna).1 = 0
     /\ mit_timer_active (mit_timer_expiry gna).1 = true
     /\ (generic_timer_handler gna).1.1 = HRTIMER_RESTART
     /\ In (Ev_hrtimer_forward_now netmap_generic_mit) (mit_timer_expiry gna).2
     /\ notifications (mit_timer_expiry gna).2 =
          if Z.land (if_capenable gna) IFCAP_NETMAP =? 0 then 0%nat else 1%nat)
  /\ (mit_pending gna = 0 ->
     (mit_timer_expiry gna).1 = set_mit_timer_active false gna
     /\ (generic_timer_handler gna).1.1 = HRTIMER_NORESTART
     /\ (mit_timer_expiry gna).2 = []
     /\ notifications (mit_timer_expiry gna).2 = 0%nat).
Proof.
  split; intros H; unfold mit_timer_expiry.
  - rewrite (generic_timer_handler_pending gna H). cbn.
    destruct (Z.land (if_capenable gna) IFCAP_NETMAP =? 0); cbn; auto 10.
  - rewrite (generic_timer_handler_idle gna H). cbn. auto.
Qed.

(** ** sendmsg: the loops *)

Lemma sendmsg_fill_avail seg off n v :
  tx_avail (sendmsg_fill seg off n v) = u32 (tx_avail v - 1).
Proof. reflexivity. Qed.

(** The inner loop never runs out of fuel once [fuel] exceeds [avail]. *)
Lemma sendmsg_frag_loop_total cap seg fuel : forall off size v,
  0 <= tx_avail v < 2 ^ 32 ->
  (Z.to_nat (tx_avail v) < fuel)%nat ->
  exists out, sendmsg_frag_loop fuel cap seg off size v = Some out.
Proof.
  induction fuel as [|fuel IH]; intros off size v Hr Hf; [lia|].
  cbn [sendmsg_frag_loop].
  destruct (size =? 0); [eauto|].
  destruct (Z.eqb_spec (tx_avail v) 0) as [E|E]; [eauto|].
  apply IH; rewrite sendmsg_fill_avail.
  - apply u32_range.
  - rewrite u32_id by lia. lia.
Qed.

(** Whatever each slot fill preserves holds when the inner loop is left,
    by its end or by [return 0]. *)
Lemma sendmsg_frag_loop_inv (P : tx_vars -> Prop) cap seg :
  (forall off n v, P v -> tx_avail v <> 0 -> P (sendmsg_fill seg off n v)) ->
  forall fuel off size v out,
    P v ->
    sendmsg_frag_loop fuel cap seg off size v = Some out ->
    P (flow_state out).
Proof.
  intros Hstep. induction fuel as [|fuel IH]; intros off size v out HP;
    cbn [sendmsg_frag_loop].
  - destruct (size =? 0); [|discriminate]. intros [= <-]. exact HP.
  - destruct (size =? 0); [intros [= <-]; exact HP|].
    destruct (Z.eqb_spec (tx_avail v) 0) as [E|E]; [intros [= <-]; exact HP|].
    apply IH. apply Hstep; assumption.
Qed.

Lemma sendmsg_iov_loop_inv (P : tx_vars -> Prop) cap :
  (forall seg off n v, P v -> tx_avail v <> 0 -> P (sendmsg_fill seg off n v)) ->
  forall iov v out,
    P v ->
    sendmsg_iov_loop cap iov v = Some out ->
    P (flow_state out).
Proof.
  intros Hstep. induction iov as [|seg iov IH]; intros v out HP; cbn [sendmsg_iov_loop].
  - intros [= <-]. exact HP.
  - destruct (sendmsg_frag_loop _ cap seg 0 _ v) as [[v'|r v']|] eqn:E.
    + apply IH.
      exact (sendmsg_frag_loop_inv P cap seg (Hstep seg) _ _ _ _ _ HP E).
    + intros [= <-].
      exact (sendmsg_frag_loop_inv P cap seg (Hstep seg) _ _ _ _ _ HP E).
    + discriminate.
Qed.

Lemma sendmsg_fill_in_range seg off n v :
  tx_avail_in_range (sendmsg_fill seg off n v).
Proof. unfold tx_avail_in_range. rewrite sendmsg_fill_avail. apply u32_range. Qed.

Lemma sendmsg_iov_loop_total cap : forall iov v,
  tx_avail_in_range v ->
  exists out, sendmsg_iov_loop cap iov v = Some out.
Proof.
  induction iov as [|seg iov IH]; intros v Hr; cbn [sendmsg_iov_loop]; [eauto|].
  destruct (sendmsg_frag_loop_total cap seg (S (Z.to_nat (tx_avail v))) 0
              (u32 (iov_len seg)) v Hr ltac:(lia)) as [out E].
  rewrite E. destruct out as [v'|r v']; [|eauto].
  apply IH.
  apply (sendmsg_frag_loop_inv tx_avail_in_range cap seg
           ltac:(intros; apply sendmsg_fill_in_range) _ _ _ _ _ Hr E).
Qed.

(** A [return] inside the loops is always [return 0]. *)
Lemma sendmsg_frag_loop_return cap seg : forall fuel off size v r v',
  sendmsg_frag_loop fuel cap seg off size v = Some (Return r v') -> r = 0.
Proof.
  induction fuel as [|fuel IH]; intros off size v r v'; cbn [sendmsg_frag_loop].
  - destruct (size =? 0); discriminate.
  - destruct (size =? 0); [discriminate|].
    destruct (tx_avail v =? 0); [intros [= <- _]; reflexivity|].
    apply IH.
Qed.

Lemma sendmsg_iov_loop_return cap : forall iov v r v',
  sendmsg_iov_loop cap iov v = Some (Return r v') -> r = 0.
Proof.
  induction iov as [|seg iov IH]; intros v r v'; cbn [sendmsg_iov_loop];
    [discriminate|].
  destruct (sendmsg_frag_loop _ cap seg 0 _ v) as [[v1|r1 v1]|] eqn:E.
  - apply IH.
  - intros [= <- _]. eapply sendmsg_frag_loop_return; eassumption.
  - discriminate.
Qed.

(** Every call returns. *)
Lemma netmap_socket_sendmsg_total na m total_len :
  exists r, netmap_socket_sendmsg na m total_len = Some r.
Proof.
  unfold netmap_socket_sendmsg. destruct na as [na|]; [|eauto].
  destruct (_ <? _); [eauto|].
  destruct (sendmsg_iov_loop_total (u32 (nr_buf_size (tx_rings0 na)))
              (msg_iov m) (sendmsg_init na)) as [out E].
  { apply u32_range. }
  rewrite E. destruct out; eauto.
Qed.

(** The slot fills leave the cursors stored in the rings alone. *)
Lemma sendmsg_fill_ring_fields seg off n v :
  let r := tx_rings0 (tx_na v) in
  let r' := tx_rings0 (tx_na (sendmsg_fill seg off n v)) in
  cur r' = cur r /\ avail r' = avail r /\ num_slots r' = num_slots r
  /\ nr_buf_size r' = nr_buf_size r
  /\ length (slot r') = length (slot r)
  /\ rx_rings0 (tx_na (sendmsg_fill seg off n v)) = rx_rings0 (tx_na v).
Proof.
  cbn. rewrite !length_alter. auto 10.
Qed.

Lemma sendmsg_loops_keep_cursors na cap iov out :
  sendmsg_iov_loop cap iov (sendmsg_init na) = Some out ->
  tx_cursors_kept na (flow_state out).
Proof.
  apply (sendmsg_iov_loop_inv (tx_cursors_kept na)).
  - intros seg off n v [Hc Ha] _. split; cbn; assumption.
  - split; reflexivity.
Qed.

(** C2.  A call that leaves by one of the two out-of-space exits (not
    enough slots for the segments, or [avail] reaching zero inside the
    loops) returns 0, leaves [cur] and [avail] of the ring as they were at
    entry and does not call [nm_txsync].  The same holds for every call
    that returns 0 on a request of non-zero length. *)
Theorem sendmsg_out_of_space_atomic na m total_len :
  exists r,
    netmap_socket_sendmsg (Some na) m total_len = Some r
    /\ (tx_exit r = Tx_no_slots \/ tx_exit r = Tx_out_of_space
        \/ (tx_ret r = 0 /\ s32 total_len <> 0) ->
        tx_ret r = 0
        /\ cur <$> tx_ring_out r = Some (cur (tx_rings0 na))
        /\ avail <$> tx_ring_out r = Some (avail (tx_rings0 na))
        /\ tx_trace r = []).
Proof.
  unfold netmap_socket_sendmsg.
  destruct (_ <? _).
  { eexists; split; [reflexivity|]. cbn. auto. }
  destruct (sendmsg_iov_loop_total (u32 (nr_buf_size (tx_rings0 na)))
              (msg_iov m) (sendmsg_init na)) as [out E].
  { apply u32_range. }
  rewrite E. destruct out as [v|r v]; (eexists; split; [reflexivity|]); cbn.
  - intros [H|[H|[H1 H2]]]; [discriminate..|congruence].
  - intros _. pose proof (sendmsg_iov_loop_return _ _ _ _ _ E) as ->.
    destruct (sendmsg_loops_keep_cursors _ _ _ _ E) as [Hc Ha]. cbn in Hc, Ha.
    unfold tx_ring_out. cbn. rewrite Hc, Ha. auto.
Qed.

Lemma ring_steps_S n k i : ring_steps n (S k) i = (ring_steps n k i + 1) mod n.
Proof. reflexivity. Qed.

Lemma ring_steps_mod n k i : 0 <= i < n -> ring_steps n k i = (i + Z.of_nat k) mod n.
Proof.
  intros Hi. induction k as [|k IH].
  - cbn. rewrite Z.add_0_r, Z.mod_small; lia.
  - rewrite ring_steps_S, IH.
    rewrite Z.add_mod_idemp_l by lia. f_equal. lia.
Qed.

Lemma ring_steps_bound n k i : 0 <= i < n -> 0 <= ring_steps n k i < n.
Proof.
  intros Hi. rewrite ring_steps_mod by assumption. apply Z.mod_pos_bound. lia.
Qed.

Lemma sendmsg_fill_progress na k seg off n v :
  tx_progress na k v -> tx_avail v <> 0 ->
  tx_progress na (S k) (sendmsg_fill seg off n v).
Proof.
  intros (Hn & Hi & Ha & H0) Hne. unfold tx_progress.
  rewrite sendmsg_fill_avail. cbn [tx_i sendmsg_fill].
  assert (tx_avail v < 2 ^ 32).
  { pose proof (u32_range (avail (tx_rings0 na))). lia. }
  rewrite (u32_id (tx_avail v - 1)) by lia.
  split; [cbn; exact Hn|].
  split; [|lia].
  rewrite ring_steps_S, <- Hi, <- Hn. reflexivity.
Qed.

Lemma sendmsg_loops_progress na cap iov out :
  sendmsg_iov_loop cap iov (sendmsg_init na) = Some out ->
  exists k, tx_progress na k (flow_state out).
Proof.
  apply (sendmsg_iov_loop_inv (fun v => exists k, tx_progress na k v)).
  - intros seg off n v [k Hk] Hne. exists (S k).
    apply sendmsg_fill_progress; assumption.
  - exists O. unfold tx_progress. cbn.
    pose proof (u32_range (avail (tx_rings0 na))). lia.
Qed.

(** ** recvmsg: the copy loop *)

(** The loop ends in a state reached in the call: either its condition
    fails there, or an iteration from a reached state breaks. *)
Lemma recvmsg_loop_reaches na m total_len : forall fuel v e v',
  recvmsg_reaches na m total_len v ->
  recvmsg_loop fuel na (msg_iovlen m) total_len v = Some (e, v') ->
  (e = Rx_cond /\ recvmsg_reaches na m total_len v' /\ total_len <= rx_copied v')
  \/ (exists v0, recvmsg_reaches na m total_len v0
                /\ rx_copied v0 < total_len
                /\ recvmsg_body na (msg_iovlen m) v0 = inr (e, v')).
Proof.
  induction fuel as [|fuel IH]; intros v e v' Hv; cbn [recvmsg_loop];
    destruct (Z.ltb_spec (rx_copied v) total_len) as [Hlt|Hge];
    try discriminate;
    try (intros [= <- <-]; left; auto).
  destruct (recvmsg_body na (msg_iovlen m) v) as [v1|[e1 v1]] eqn:E.
  - intros Hl. exact (IH v1 e v' (reaches_step _ _ _ _ _ Hv Hlt E) Hl).
  - intros [= <- <-]. right. exists v. auto.
Qed.

Lemma recvmsg_init_in_range na m : rx_in_range (msg_iovlen m) (recvmsg_init na m).
Proof.
  unfold rx_in_range, recvmsg_init, msg_iovlen. cbn.
  repeat split; try apply u32_range; lia.
Qed.

Lemma recvmsg_body_in_range na iovcnt v v' :
  iovcnt < 2 ^ 32 ->
  rx_in_range iovcnt v ->
  recvmsg_body na iovcnt v = inl v' ->
  rx_in_range iovcnt v' /\ rx_measure iovcnt v' < rx_measure iovcnt v.
Proof.
  intros Hcnt (Ha & Hn & Hi & Hj & Hjc). unfold recvmsg_body.
  set (c := Z.min (rx_nm_frag_size v) (rx_iov_frag_size v)).
  assert (Hnm : rx_nm_frag_size (recvmsg_copy na v) = rx_nm_frag_size v - c).
  { cbn. apply u32_id. lia. }
  assert (Hiv : rx_iov_frag_size (recvmsg_copy na v) = rx_iov_frag_size v - c).
  { cbn. apply u32_id. lia. }
  assert (Hj1 : iovcnt <> 0 -> u32 (rx_j v + 1) = rx_j v + 1).
  { intros. apply u32_id. lia. }
  destruct (Z.eqb_spec (rx_nm_frag_size (recvmsg_copy na v)) 0) as [En|En].
  - destruct (negb (rx_morefrag (recvmsg_copy na v))
              || (rx_avail (recvmsg_copy na v) =? 0)) eqn:Eb; [discriminate|].
    apply orb_false_elim in Eb as [_ Eb]. apply Z.eqb_neq in Eb. cbn in Eb.
    cbn [rx_iov_frag_size recvmsg_next_slot]. rewrite Hiv.
    destruct (Z.eqb_spec (rx_iov_frag_size v - c) 0) as [Ei|Ei].
    + destruct (Z.leb_spec iovcnt (rx_j (recvmsg_incr_j (recvmsg_next_slot na (recvmsg_copy na v)))))
        as [Hle|Hgt]; [discriminate|].
      intros [= <-]. cbn in Hgt. unfold rx_in_range, rx_measure.
      cbn [rx_avail rx_nm_frag_size rx_iov_frag_size rx_j recvmsg_next_iov
           recvmsg_incr_j recvmsg_next_slot recvmsg_copy].
      pose proof (u32_range (rx_j v + 1)) as Hu.
      rewrite (u32_id (rx_avail v - 1)) by lia.
      rewrite Hj1 in Hgt |- * by lia.
      repeat split; try apply u32_range; lia.
    + intros [= <-]. unfold rx_in_range, rx_measure.
      cbn [rx_avail rx_nm_frag_size rx_iov_frag_size rx_j
           recvmsg_next_slot recvmsg_copy].
      rewrite (u32_id (rx_avail v - 1)) by lia.
      repeat split; try apply u32_range; lia.
  - rewrite Hiv.
    destruct (Z.eqb_spec (rx_iov_frag_size v - c) 0) as [Ei|Ei]; [|lia].
    destruct (Z.leb_spec iovcnt (rx_j (recvmsg_incr_j (recvmsg_copy na v))))
      as [Hle|Hgt]; [discriminate|].
    intros [= <-]. cbn in Hgt. unfold rx_in_range, rx_measure.
    cbn [rx_avail rx_nm_frag_size rx_iov_frag_size rx_j recvmsg_next_iov
         recvmsg_incr_j recvmsg_copy].
    pose proof (u32_range (rx_j v + 1)) as Hu.
    rewrite Hj1 in Hgt |- * by lia.
    repeat split; try apply u32_range; lia.
Qed.

Lemma recvmsg_reaches_in_range na m total_len v :
  msg_iovlen m < 2 ^ 32 ->
  recvmsg_reaches na m total_len v ->
  rx_in_range (msg_iovlen m) v.
Proof.
  intros Hcnt. induction 1 as [|v v' _ IH _ E].
  - apply recvmsg_init_in_range.
  - exact (proj1 (recvmsg_body_in_range _ _ _ _ Hcnt IH E)).
Qed.

(** The copy loop ends within [avail + iovcnt + 1] iterations. *)
Lemma recvmsg_loop_total na iovcnt total_len :
  iovcnt < 2 ^ 32 ->
  forall fuel v,
    rx_in_range iovcnt v ->
    rx_measure iovcnt v < Z.of_nat fuel ->
    exists out, recvmsg_loop fuel na iovcnt total_len v = Some out.
Proof.
  intros Hcnt. induction fuel as [|fuel IH]; intros v Hr Hm; cbn [recvmsg_loop].
  - exfalso. destruct Hr as (Ha & _ & _ & Hj & Hjc). unfold rx_measure in Hm. lia.
  - destruct (rx_copied v <? total_len); [|eauto].
    destruct (recvmsg_body na iovcnt v) as [v1|out] eqn:E; [|eauto].
    destruct (recvmsg_body_in_range _ _ _ _ Hcnt Hr E) as [Hr1 Hm1].
    apply IH; [exact Hr1|lia].
Qed.

Lemma netmap_socket_recvmsg_total na m total_len fl :
  msg_iovlen m < 2 ^ 32 ->
  exists r, netmap_socket_recvmsg na m total_len fl = Some r.
Proof.
  intros Hcnt. unfold netmap_socket_recvmsg. destruct na as [na|]; [|eauto].
  destruct (_ =? 0); [eauto|].
  destruct (recvmsg_loop_total na (msg_iovlen m) total_len Hcnt
              (recvmsg_fuel na m) (recvmsg_init na m)) as [[e v] E].
  - apply recvmsg_init_in_range.
  - unfold rx_measure, recvmsg_fuel, msg_iovlen. cbn.
    pose proof (u32_range (avail (rx_rings0 na))). lia.
  - rewrite E. eauto.
Qed.

Lemma u32_add_l a b : u32 (u32 a + b) = u32 (a + b).
Proof. unfold u32. apply Z.add_mod_idemp_l. lia. Qed.

Lemma recvmsg_init_progress na m : rx_progress na 0 (recvmsg_init na m).
Proof.
  unfold rx_progress. cbn.
  pose proof (u32_range (avail (rx_rings0 na))).
  pose proof (u32_range (len (slot_at (rx_rings0 na) (u32 (cur (rx_rings0 na)))))).
  pose proof (u32_range (iov_len_at (msg_iov m) 0)).
  repeat split; try reflexivity; lia.
Qed.

Lemma recvmsg_copy_progress na k v :
  rx_progress na k v -> rx_progress na k (recvmsg_copy na v).
Proof.
  intros (Hi & Ha & Ha0 & Hm & Hs & Ho & Hz & Hl & Hc & Hv). unfold rx_progress.
  cbn [rx_i rx_avail rx_morefrag rx_src rx_nm_frag_ofs rx_nm_frag_size
       rx_copied rx_iov_frag_size recvmsg_copy].
  set (c := Z.min (rx_nm_frag_size v) (rx_iov_frag_size v)).
  pose proof (u32_range (len (slot_at (rx_rings0 na) (rx_i v)))) as Hr.
  rewrite (u32_id (rx_nm_frag_ofs v + c)) by lia.
  rewrite (u32_id (rx_nm_frag_size v - c)) by lia.
  repeat split; try assumption; try apply u32_range; try lia.
  rewrite Hc, u32_add_l. f_equal. lia.
Qed.

Lemma recvmsg_next_slot_progress na k v :
  rx_progress na k v -> rx_nm_frag_size v = 0 -> rx_avail v <> 0 ->
  rx_progress na (S k) (recvmsg_next_slot na v).
Proof.
  intros (Hi & Ha & Ha0 & Hm & Hs & Ho & Hz & Hl & Hc & Hv) Hsz Hne.
  unfold rx_progress.
  cbn [rx_i rx_avail rx_morefrag rx_src rx_nm_frag_ofs rx_nm_frag_size
       rx_copied rx_iov_frag_size recvmsg_next_slot BDG_NMB].
  pose proof (u32_range (avail (rx_rings0 na))).
  rewrite (u32_id (rx_avail v - 1)) by lia.
  pose proof (u32_range (len (slot_at (rx_rings0 na)
                 (NETMAP_RING_NEXT (rx_rings0 na) (rx_i v))))).
  repeat split; try assumption; try lia.
  - unfold NETMAP_RING_NEXT. rewrite Hi. reflexivity.
  - rewrite Hc. f_equal. cbn [chain_bytes]. rewrite <- Hi. lia.
Qed.

Lemma recvmsg_incr_j_progress na k v :
  rx_progress na k v -> rx_progress na k (recvmsg_incr_j v).
Proof. intros H. exact H. Qed.

Lemma recvmsg_next_iov_progress na k v :
  rx_progress na k v -> rx_progress na k (recvmsg_next_iov v).
Proof.
  intros (Hi & Ha & Ha0 & Hm & Hs & Ho & Hz & Hl & Hc & Hv).
  unfold rx_progress. cbn. repeat split; try assumption. apply u32_range.
Qed.

(** One iteration keeps the accounting, whether it continues or breaks;
    a slot break leaves the current slot fully read. *)
Lemma recvmsg_body_progress na iovcnt k v :
  rx_progress na k v ->
  exists k',
    rx_progress na k' (rx_out_state (recvmsg_body na iovcnt v))
    /\ (forall v', recvmsg_body na iovcnt v = inr (Rx_break_slot, v') ->
        k' = k /\ rx_nm_frag_size v' = 0
        /\ (rx_morefrag v' = false \/ rx_avail v' = 0)).
Proof.
  intros Hp. apply (recvmsg_copy_progress na) in Hp. unfold recvmsg_body.
  set (v1 := recvmsg_copy na v) in *. clearbody v1.
  destruct (Z.eqb_spec (rx_nm_frag_size v1) 0) as [En|En].
  - destruct (negb (rx_morefrag v1) || (rx_avail v1 =? 0)) eqn:Eb.
    + exists k. cbn. split; [exact Hp|]. intros v' [= <-].
      apply orb_true_iff in Eb as [Eb|Eb].
      * apply negb_true_iff in Eb. auto.
      * apply Z.eqb_eq in Eb. auto.
    + apply orb_false_elim in Eb as [_ Eb]. apply Z.eqb_neq in Eb.
      pose proof (recvmsg_next_slot_progress na k v1 Hp En Eb) as Hp2.
      set (v2 := recvmsg_next_slot na v1) in *. clearbody v2.
      exists (S k).
      destruct (rx_iov_frag_size v2 =? 0).
      * destruct (iovcnt <=? rx_j (recvmsg_incr_j v2)); cbn.
        -- split; [exact Hp2|]. intros v' [=].
        -- split; [apply recvmsg_next_iov_progress; exact Hp2|]. intros v' [=].
      * cbn. split; [exact Hp2|]. intros v' [=].
  - exists k.
    destruct (rx_iov_frag_size v1 =? 0).
    + destruct (iovcnt <=? rx_j (recvmsg_incr_j v1)); cbn.
      * split; [exact Hp|]. intros v' [=].
      * split; [apply recvmsg_next_iov_progress; exact Hp|]. intros v' [=].
    + cbn. split; [exact Hp|]. intros v' [=].
Qed.

Lemma recvmsg_reaches_progress na m total_len v :
  recvmsg_reaches na m total_len v -> exists k, rx_progress na k v.
Proof.
  induction 1 as [|v v' _ [k IH] _ E].
  - exists O. apply recvmsg_init_progress.
  - destruct (recvmsg_body_progress na (msg_iovlen m) k v IH) as (k' & Hk & _).
    rewrite E in Hk. eauto.
Qed.

(** The state the copy loop ends in obeys the accounting. *)
Lemma recvmsg_loop_progress na m total_len fuel e v' :
  recvmsg_loop fuel na (msg_iovlen m) total_len (recvmsg_init na m) = Some (e, v') ->
  exists k, rx_progress na k v'
            /\ (e = Rx_break_slot ->
                rx_nm_frag_size v' = 0
                /\ (rx_morefrag v' = false \/ rx_avail v' = 0)).
Proof.
  intros Hl.
  destruct (recvmsg_loop_reaches na m total_len _ _ _ _ (reaches_init _ _ _) Hl)
    as [(-> & Hr & _)|(v0 & Hr & _ & E)].
  - destruct (recvmsg_reaches_progress _ _ _ _ Hr) as [k Hk].
    exists k. split; [exact Hk|discriminate].
  - destruct (recvmsg_reaches_progress _ _ _ _ Hr) as [k Hk].
    destruct (recvmsg_body_progress na (msg_iovlen m) k v0 Hk) as (k' & Hk' & Hb).
    rewrite E in Hk'. exists k'. split; [exact Hk'|].
    intros ->. exact (proj2 (Hb _ E)).
Qed.

Lemma sendmsg_loops_frame na cap iov out :
  sendmsg_iov_loop cap iov (sendmsg_init na) = Some out ->
  tx_frame na (flow_state out).
Proof.
  apply (sendmsg_iov_loop_inv (tx_frame na)).
  - intros seg off n v (Hn & Hl & Hr) _.
    destruct (sendmsg_fill_ring_fields seg off n v) as (_ & _ & Hn' & _ & Hl' & Hr').
    cbv zeta in *. unfold tx_frame. rewrite Hn', Hl', Hr'. auto.
  - unfold tx_frame. auto.
Qed.

(** C9.  On well-formed rings a call of [netmap_socket_sendmsg] and a call
    of [netmap_socket_recvmsg] both return and leave well-formed rings:
    [avail] stays within the capacity and [cur] is a valid slot index.
    The ring a call works on has its [cur] stepped [k] times, each step
    [(i + 1) mod num_slots], and its [avail] lowered by the same [k]; the
    other ring is untouched. *)
Theorem ring_invariant_preserved na m total_len fl :
  ring_wf (tx_rings0 na) ->
  ring_wf (rx_rings0 na) ->
  msg_iovlen m < 2 ^ 32 ->
  (exists r na' k,
      netmap_socket_sendmsg (Some na) m total_len = Some r
      /\ tx_na_out r = Some na'
      /\ ring_wf (tx_rings0 na')
      /\ rx_rings0 na' = rx_rings0 na
      /\ cur (tx_rings0 na') =
           ring_steps (num_slots (tx_rings0 na)) k (cur (tx_rings0 na))
      /\ cur (tx_rings0 na') =
           (cur (tx_rings0 na) + Z.of_nat k) mod num_slots (tx_rings0 na)
      /\ avail (tx_rings0 na') = avail (tx_rings0 na) - Z.of_nat k)
  /\ (exists r na' k,
      netmap_socket_recvmsg (Some na) m total_len fl = Some r
      /\ rx_na_out r = Some na'
      /\ ring_wf (rx_rings0 na')
      /\ tx_rings0 na' = tx_rings0 na
      /\ cur (rx_rings0 na') =
           ring_steps (num_slots (rx_rings0 na)) k (cur (rx_rings0 na))
      /\ cur (rx_rings0 na') =
           (cur (rx_rings0 na) + Z.of_nat k) mod num_slots (rx_rings0 na)
      /\ avail (rx_rings0 na') = avail (rx_rings0 na) - Z.of_nat k).
Proof.
  intros Htx Hrx Hcnt. split.
  - destruct Htx as ((Ha & Hc) & Hlen & Hn).
    assert (Euc : u32 (cur (tx_rings0 na)) = cur (tx_rings0 na)) by (apply u32_id; lia).
    assert (Eua : u32 (avail (tx_rings0 na)) = avail (tx_rings0 na)) by (apply u32_id; lia).
    unfold netmap_socket_sendmsg.
    destruct (_ <? _).
    { exists {| tx_ret := 0; tx_exit := Tx_no_slots;
               tx_na_out := Some na; tx_trace := [] |}, na, O.
      cbn. rewrite Z.add_0_r, Z.sub_0_r, Z.mod_small by lia.
      unfold ring_wf, ring_inv. auto 10. }
    destruct (sendmsg_iov_loop_total (u32 (nr_buf_size (tx_rings0 na)))
                (msg_iov m) (sendmsg_init na)) as [out E].
    { apply u32_range. }
    rewrite E.
    destruct (sendmsg_loops_frame _ _ _ _ E) as (Fn & Fl & Fr).
    destruct (sendmsg_loops_keep_cursors _ _ _ _ E) as [Kc Ka].
    destruct (sendmsg_loops_progress _ _ _ _ E) as (k & _ & Pi & Pa & P0).
    rewrite Euc in Pi. rewrite Eua in Pa.
    destruct out as [v|r0 v]; cbn [flow_state] in *.
    + eexists _, (sendmsg_publish v), k.
      split; [reflexivity|]. cbn.
      pose proof (ring_steps_bound (num_slots (tx_rings0 na)) k _ Hc) as Hb.
      rewrite <- (ring_steps_mod _ k _ Hc).
      unfold ring_wf, ring_inv. cbn. rewrite length_alter, Fn, Fl.
      repeat split; try assumption; try lia.
    + eexists _, (tx_na v), O.
      split; [reflexivity|]. cbn.
      rewrite Z.add_0_r, Z.sub_0_r, Z.mod_small by lia.
      unfold ring_wf, ring_inv. rewrite Kc, Ka, Fn, Fl. auto 10.
  - destruct Hrx as ((Ha & Hc) & Hlen & Hn).
    assert (Euc : u32 (cur (rx_rings0 na)) = cur (rx_rings0 na)) by (apply u32_id; lia).
    assert (Eua : u32 (avail (rx_rings0 na)) = avail (rx_rings0 na)) by (apply u32_id; lia).
    unfold netmap_socket_recvmsg.
    destruct (_ =? 0).
    { exists {| rx_ret := 0; rx_exit := Rx_spurious; rx_na_out := Some na;
               rx_msg_out := m; rx_trace := [] |}, na, O.
      cbn. rewrite Z.add_0_r, Z.sub_0_r, Z.mod_small by lia.
      unfold ring_wf, ring_inv. auto 10. }
    destruct (recvmsg_loop_total na (msg_iovlen m) total_len Hcnt
                (recvmsg_fuel na m) (recvmsg_init na m)) as [[e v] E].
    { apply recvmsg_init_in_range. }
    { unfold rx_measure, recvmsg_fuel, msg_iovlen. cbn.
      pose proof (u32_range (avail (rx_rings0 na))). lia. }
    rewrite E.
    destruct (recvmsg_loop_progress _ _ _ _ _ _ E) as (k & Hp & _).
    destruct Hp as (Pi & Pa & P0 & _). cbv zeta in Pi, Pa.
    rewrite Euc in Pi. rewrite Eua in Pa.
    eexists _, _, k. split; [reflexivity|]. cbn.
    pose proof (ring_steps_bound (num_slots (rx_rings0 na)) k _ Hc) as Hb.
    rewrite <- (ring_steps_mod _ k _ Hc).
    unfold ring_wf, ring_inv. cbn.
    repeat split; cbn; try assumption; try lia.
Qed.

(** More fuel does not change the outcome of the copy loop. *)
Lemma recvmsg_loop_fuel_mono na iovcnt total_len : forall fuel fuel' v out,
  (fuel <= fuel')%nat ->
  recvmsg_loop fuel na iovcnt total_len v = Some out ->
  recvmsg_loop fuel' na iovcnt total_len v = Some out.
Proof.
  induction fuel as [|fuel IH]; intros fuel' v out Hle; cbn [recvmsg_loop].
  - destruct (rx_copied v <? total_len) eqn:Ec; [discriminate|].
    intros [= <-]. destruct fuel'; cbn [recvmsg_loop]; rewrite Ec; reflexivity.
  - destruct fuel' as [|fuel']; [lia|]. cbn [recvmsg_loop].
    destruct (rx_copied v <? total_len); [|auto].
    destruct (recvmsg_body na iovcnt v); [|auto].
    apply IH. lia.
Qed.

(** The outcome of the loop from a reached state is the outcome of the
    loop of the call. *)
Lemma recvmsg_loop_from_reached na m total_len v :
  recvmsg_reaches na m total_len v ->
  forall fuel out,
    recvmsg_loop fuel na (msg_iovlen m) total_len v = Some out ->
    exists fuel',
      recvmsg_loop fuel' na (msg_iovlen m) total_len (recvmsg_init na m) = Some out.
Proof.
  induction 1 as [|v v' _ IH Hlt E]; intros fuel out Hl.
  - eauto.
  - apply (IH (S fuel)). cbn [recvmsg_loop].
    apply Z.ltb_lt in Hlt. rewrite Hlt, E. exact Hl.
Qed.

Lemma recvmsg_call_from_reached na m total_len fl v fuel e v' :
  msg_iovlen m < 2 ^ 32 ->
  u32 (avail (rx_rings0 na)) <> 0 ->
  recvmsg_reaches na m total_len v ->
  recvmsg_loop fuel na (msg_iovlen m) total_len v = Some (e, v') ->
  exists r,
    netmap_socket_recvmsg (Some na) m total_len fl = Some r
    /\ rx_exit r = Rx_done e
    /\ rx_ret r = s32 (rx_copied v')
    /\ rx_na_out r =
         Some (set_rx_ring (set_cur_avail (rx_i v') (rx_avail v') (rx_rings0 na)) na)
    /\ rx_msg_out r = {| msg_iov := rx_umem v' |}
    /\ rx_trace r =
         (if (rx_avail v' =? 0) && rx_morefrag v' then [Ev_RD_out_of_slots] else [])
         ++ [Ev_D_read (rx_copied v') (rx_j v')].
Proof.
  intros Hcnt Hav Hr Hl.
  destruct (recvmsg_loop_from_reached _ _ _ _ Hr _ _ Hl) as [fuel' Hl'].
  unfold netmap_socket_recvmsg.
  destruct (Z.eqb_spec (u32 (avail (rx_rings0 na))) 0) as [?|_]; [contradiction|].
  destruct (recvmsg_loop_total na (msg_iovlen m) total_len Hcnt
              (recvmsg_fuel na m) (recvmsg_init na m)) as [[e1 v1] E1].
  { apply recvmsg_init_in_range. }
  { unfold rx_measure, recvmsg_fuel, msg_iovlen. cbn.
    pose proof (u32_range (avail (rx_rings0 na))). lia. }
  rewrite E1.
  set (big := Nat.max fuel' (recvmsg_fuel na m)).
  assert (H1 : recvmsg_loop big na (msg_iovlen m) total_len (recvmsg_init na m)
               = Some (e, v')).
  { apply (recvmsg_loop_fuel_mono _ _ _ fuel'); [lia|exact Hl']. }
  assert (H2 : recvmsg_loop big na (msg_iovlen m) total_len (recvmsg_init na m)
               = Some (e1, v1)).
  { apply (recvmsg_loop_fuel_mono _ _ _ (recvmsg_fuel na m)); [lia|exact E1]. }
  rewrite H1 in H2. injection H2 as <- <-.
  eexists. split; [reflexivity|]. cbn. auto 10.
Qed.

(** The outcome of the copy loop of a call, from the call's result. *)
Lemma recvmsg_call_loop na m total_len fl :
  msg_iovlen m < 2 ^ 32 ->
  u32 (avail (rx_rings0 na)) <> 0 ->
  exists e v',
    recvmsg_loop (recvmsg_fuel na m) na (msg_iovlen m) total_len (recvmsg_init na m)
      = Some (e, v')
    /\ netmap_socket_recvmsg (Some na) m total_len fl =
         Some {| rx_ret := s32 (rx_copied v');
                 rx_exit := Rx_done e;
                 rx_na_out :=
                   Some (set_rx_ring
                           (set_cur_avail (rx_i v') (rx_avail v') (rx_rings0 na)) na);
                 rx_msg_out := {| msg_iov := rx_umem v' |};
                 rx_trace :=
                   (if (rx_avail v' =? 0) && rx_morefrag v'
                    then [Ev_RD_out_of_slots] else [])
                   ++ [Ev_D_read (rx_copied v') (rx_j v')] |}.
Proof.
  intros Hcnt Hav.
  destruct (recvmsg_loop_total na (msg_iovlen m) total_len Hcnt
              (recvmsg_fuel na m) (recvmsg_init na m)) as [[e1 v1] E1].
  { apply recvmsg_init_in_range. }
  { unfold rx_measure, recvmsg_fuel, msg_iovlen. cbn.
    pose proof (u32_range (avail (rx_rings0 na))). lia. }
  exists e1, v1. split; [exact E1|].
  unfold netmap_socket_recvmsg.
  destruct (Z.eqb_spec (u32 (avail (rx_rings0 na))) 0) as [?|_]; [contradiction|].
  rewrite E1. reflexivity.
Qed.

(** C10.  In a call whose copy loop ends at the slot break (the current
    slot is exhausted and its [NS_MOREFRAG] is clear, or no slot is left),
    the published [cur] is the index of that last slot, [k] steps from the
    entry cursor, and [avail] went down by [k] only, although the call
    returns the bytes of [k + 1] slots: the last slot read is not
    released. *)
Theorem recvmsg_last_slot_not_released na m total_len fl :
  msg_iovlen m < 2 ^ 32 ->
  exists r,
    netmap_socket_recvmsg (Some na) m total_len fl = Some r
    /\ (rx_exit r = Rx_done Rx_break_slot ->
        exists (k : nat) ring',
          rx_ring_out r = Some ring'
          /\ cur ring' =
               ring_steps (num_slots (rx_rings0 na)) k (u32 (cur (rx_rings0 na)))
          /\ avail ring' = u32 (avail (rx_rings0 na)) - Z.of_nat k
          /\ (slot_morefrag (slot_at ring' (cur ring')) = false \/ avail ring' = 0)
          /\ rx_ret r =
               s32 (u32 (chain_bytes (rx_rings0 na) (u32 (cur (rx_rings0 na))) (S k)))).
Proof.
  intros Hcnt.
  destruct (Z.eq_dec (u32 (avail (rx_rings0 na))) 0) as [E0|Hav].
  { unfold netmap_socket_recvmsg. rewrite E0. cbn.
    eexists. split; [reflexivity|]. discriminate. }
  destruct (recvmsg_call_loop na m total_len fl Hcnt Hav) as (e & v & El & ->).
  eexists. split; [reflexivity|]. cbn. intros [= ->].
  destruct (recvmsg_loop_progress _ _ _ _ _ _ El) as (k & Hp & Hb).
  destruct (Hb eq_refl) as [Hz Hm].
  destruct Hp as (Pi & Pa & P0 & Pm & _ & Po & _ & Pl & Pc & _). cbv zeta in *.
  exists k, (set_cur_avail (rx_i v) (rx_avail v) (rx_rings0 na)).
  unfold rx_ring_out. cbn.
  repeat split; try assumption.
  - unfold slot_at in *. cbn. rewrite <- Pm. exact Hm.
  - rewrite Pc. do 2 f_equal. rewrite <- Pi, <- Pl. lia.
Qed.

(** The test the loop makes at an exhausted slot (line 395), on its
    local [avail], which at that point still counts the slot just read:
    if [NS_MOREFRAG] of the slot is clear or the local [avail] is 0 the
    call ends there, whatever length was requested, and publishes the
    cursors of that iteration; otherwise the iteration moves to the next
    slot and takes one off [avail], also when the local [avail] is 1 and
    the slot just read was the last one available. *)
Lemma recvmsg_exhausted_slot_test na m total_len fl v :
  msg_iovlen m < 2 ^ 32 ->
  u32 (avail (rx_rings0 na)) <> 0 ->
  recvmsg_reaches na m total_len v ->
  rx_copied v < total_len ->
  rx_nm_frag_size v <= rx_iov_frag_size v ->
  (rx_morefrag v = false \/ rx_avail v = 0 ->
     exists r,
       netmap_socket_recvmsg (Some na) m total_len fl = Some r
       /\ rx_exit r = Rx_done Rx_break_slot
       /\ rx_ret r = s32 (u32 (rx_copied v + rx_nm_frag_size v))
       /\ cur <$> rx_ring_out r = Some (rx_i v)
       /\ avail <$> rx_ring_out r = Some (rx_avail v))
  /\ (rx_morefrag v = true /\ rx_avail v <> 0 ->
     let v' := rx_out_state (recvmsg_body na (msg_iovlen m) v) in
     rx_i v' = NETMAP_RING_NEXT (rx_rings0 na) (rx_i v)
     /\ rx_avail v' = rx_avail v - 1
     /\ forall w, recvmsg_body na (msg_iovlen m) v <> inr (Rx_break_slot, w)).
Proof.
  intros Hcnt Hav Hr Hlt Hfit.
  destruct (recvmsg_reaches_progress _ _ _ _ Hr) as [k Hp].
  destruct Hp as (_ & Pa & P0 & _ & _ & _ & Pz & _ & _ & Pv). cbv zeta in *.
  assert (Hsz : rx_nm_frag_size (recvmsg_copy na v) = 0).
  { cbn. rewrite Z.min_l by lia. rewrite Z.sub_diag. reflexivity. }
  split.
  - intros Hstop.
    assert (Hb : recvmsg_body na (msg_iovlen m) v
                 = inr (Rx_break_slot, recvmsg_copy na v)).
    { unfold recvmsg_body. rewrite Hsz. cbn [Z.eqb rx_morefrag rx_avail recvmsg_copy].
      destruct Hstop as [->| ->]; cbn; [reflexivity|].
      rewrite orb_true_r. reflexivity. }
    destruct (recvmsg_call_from_reached na m total_len fl v 1 Rx_break_slot
                (recvmsg_copy na v) Hcnt Hav Hr) as (r & Hc & He & Hret & Hna & _).
    { cbn [recvmsg_loop]. apply Z.ltb_lt in Hlt. rewrite Hlt, Hb. reflexivity. }
    exists r. split; [exact Hc|]. split; [exact He|].
    unfold rx_ring_out. rewrite Hret, Hna. cbn.
    rewrite Z.min_l by lia. auto.
  - intros [Hm Hne]. cbv zeta. unfold recvmsg_body. rewrite Hsz.
    cbn [Z.eqb rx_morefrag rx_avail recvmsg_copy]. rewrite Hm.
    apply Z.eqb_neq in Hne. rewrite Hne. cbn [negb orb].
    pose proof (u32_range (avail (rx_rings0 na))).
    assert (Hu : u32 (rx_avail v - 1) = rx_avail v - 1).
    { apply Z.eqb_neq in Hne. apply u32_id. lia. }
    destruct (rx_iov_frag_size _ =? 0).
    + destruct (msg_iovlen m <=? _); cbn; rewrite Hu; repeat split; discriminate.
    + cbn. rewrite Hu. repeat split; discriminate.
Qed.

(** ** recvmsg: the destination side *)

Lemma length_splice (b : list byte) ofs bs :
  (ofs + length bs <= length b)%nat -> length (splice b ofs bs) = length b.
Proof.
  intros H. unfold splice. rewrite !length_app, length_take, length_drop. lia.
Qed.

Lemma alter_keeps_lengths (f : list byte -> list byte) i (l : list (list byte)) :
  (forall b, l !! i = Some b -> length (f b) = length b) ->
  length <$> alter f i l = length <$> l.
Proof.
  intros Hf. apply list_eq. intros k. rewrite !list_lookup_fmap.
  destruct (decide (i = k)) as [->|Hne].
  - rewrite list_lookup_alter_eq. destruct (l !! k) as [b|] eqn:E; [|reflexivity].
    cbn. f_equal. apply Hf. reflexivity.
  - rewrite list_lookup_alter_ne by assumption. reflexivity.
Qed.

Lemma iov_len_at_lengths (l1 l2 : list (list byte)) j :
  length <$> l1 = length <$> l2 -> iov_len_at l1 j = iov_len_at l2 j.
Proof.
  intros H. unfold iov_len_at, iov_len.
  assert (E : (length <$> l1) !! Z.to_nat j = (length <$> l2) !! Z.to_nat j)
    by (rewrite H; reflexivity).
  rewrite !list_lookup_fmap in E.
  destruct (l1 !! Z.to_nat j), (l2 !! Z.to_nat j); cbn in *; congruence.
Qed.

Lemma iov_prefix_succ l j :
  0 <= j -> iov_prefix l (j + 1) = iov_prefix l j + iov_len_at l j.
Proof.
  intros Hj. unfold iov_prefix, iov_len_at, iov_total, iov_len.
  replace (Z.to_nat (j + 1)) with (S (Z.to_nat j)) by lia.
  destruct (l !! Z.to_nat j) as [b|] eqn:E.
  - rewrite (take_S_r _ _ _ E), concat_app, length_app. cbn.
    rewrite app_nil_r. lia.
  - apply lookup_ge_None in E. rewrite !take_ge by lia. cbn. lia.
Qed.

Lemma iov_prefix_all l j : Z.of_nat (length l) <= j -> iov_prefix l j = iov_total l.
Proof. intros H. unfold iov_prefix. rewrite take_ge by lia. reflexivity. Qed.

Lemma iov_prefix_le l j : 0 <= j -> iov_prefix l j + iov_len_at l j <= iov_total l.
Proof.
  intros Hj. rewrite <- iov_prefix_succ by assumption.
  unfold iov_prefix, iov_total.
  rewrite <- (take_drop (Z.to_nat (j + 1)) l) at 2.
  rewrite concat_app, length_app. lia.
Qed.

Lemma iov_len_at_nonneg l j : 0 <= iov_len_at l j.
Proof. unfold iov_len_at, iov_len. lia. Qed.

Lemma recvmsg_init_dest na m :
  0 < msg_iovlen m -> iov_total (msg_iov m) < 2 ^ 32 ->
  rx_dest m (recvmsg_init na m).
Proof.
  intros Hne Htot. unfold rx_dest, recvmsg_init. cbn.
  pose proof (iov_prefix_le (msg_iov m) 0 ltac:(lia)) as Hle.
  pose proof (iov_len_at_nonneg (msg_iov m) 0).
  assert (0 <= iov_prefix (msg_iov m) 0) by (unfold iov_prefix, iov_total; lia).
  rewrite (u32_id (iov_len_at (msg_iov m) 0)) by lia.
  repeat split; try lia; try apply u32_range.
Qed.

Lemma recvmsg_copy_dest na m v :
  iov_total (msg_iov m) < 2 ^ 32 ->
  rx_dest m v -> rx_dest m (recvmsg_copy na v).
Proof.
  intros Htot (Hl & Hd & Hj & Ho & Hs & Hsum & Hc & Hn). unfold rx_dest.
  cbn [rx_umem rx_dst rx_j rx_iov_frag_ofs rx_iov_frag_size rx_copied
       rx_nm_frag_size recvmsg_copy].
  set (c := Z.min (rx_nm_frag_size v) (rx_iov_frag_size v)).
  pose proof (iov_prefix_le (msg_iov m) (rx_j v) ltac:(lia)) as Hle.
  assert (0 <= iov_prefix (msg_iov m) (rx_j v)) by (unfold iov_prefix, iov_total; lia).
  rewrite (u32_id (rx_iov_frag_ofs v + c)) by lia.
  rewrite (u32_id (rx_iov_frag_size v - c)) by lia.
  rewrite (u32_id (rx_copied v + c)) by lia.
  repeat split; try assumption; try lia; try apply u32_range.
  rewrite <- Hl. unfold copy_to_user. apply alter_keeps_lengths.
  intros b Hb. apply length_splice. rewrite length_take.
  assert (Z.of_nat (length b) = iov_len_at (msg_iov m) (rx_j v)) as Hlen.
  { rewrite <- (iov_len_at_lengths _ _ _ Hl). unfold iov_len_at, iov_len.
    rewrite <- Hd, Hb. reflexivity. }
  lia.
Qed.

Lemma recvmsg_next_slot_dest na m v :
  rx_dest m v -> rx_dest m (recvmsg_next_slot na v).
Proof.
  intros (Hl & Hd & Hj & Ho & Hs & Hsum & Hc & Hn). unfold rx_dest. cbn.
  repeat split; try assumption; try lia. apply u32_range.
Qed.

Lemma recvmsg_next_iov_dest m v :
  msg_iovlen m < 2 ^ 32 ->
  iov_total (msg_iov m) < 2 ^ 32 ->
  rx_dest m v -> rx_iov_frag_size v = 0 ->
  rx_j (recvmsg_incr_j v) < msg_iovlen m ->
  rx_dest m (recvmsg_next_iov (recvmsg_incr_j v)).
Proof.
  intros Hcnt Htot (Hl & Hd & Hj & Ho & Hs & Hsum & Hc & Hn) Hz Hlt.
  assert (Ej : u32 (rx_j v + 1) = rx_j v + 1) by (apply u32_id; lia).
  unfold rx_dest. cbn in Hlt |- *. rewrite Ej in Hlt |- *.
  pose proof (iov_prefix_le (msg_iov m) (rx_j v + 1) ltac:(lia)) as Hle.
  pose proof (iov_len_at_nonneg (msg_iov m) (rx_j v + 1)).
  assert (0 <= iov_prefix (msg_iov m) (rx_j v + 1)) by (unfold iov_prefix, iov_total; lia).
  rewrite (iov_len_at_lengths _ _ _ Hl).
  rewrite (u32_id (iov_len_at (msg_iov m) (rx_j v + 1))) by lia.
  repeat split; try assumption; try lia.
  rewrite iov_prefix_succ by lia. lia.
Qed.

(** An iovec break leaves the destination full. *)
Lemma recvmsg_break_iov_dest m v :
  msg_iovlen m < 2 ^ 32 ->
  rx_dest m v -> rx_iov_frag_size v = 0 ->
  msg_iovlen m <= rx_j (recvmsg_incr_j v) ->
  rx_copied v = iov_total (msg_iov m)
  /\ rx_j (recvmsg_incr_j v) = msg_iovlen m.
Proof.
  intros Hcnt (Hl & Hd & Hj & Ho & Hs & Hsum & Hc & Hn) Hz Hge.
  cbn in Hge |- *. rewrite (u32_id (rx_j v + 1)) in Hge |- * by lia.
  split; [|lia].
  rewrite Hc.
  rewrite <- (iov_prefix_all (msg_iov m) (rx_j v + 1)) by (unfold msg_iovlen in *; lia).
  rewrite iov_prefix_succ by lia. lia.
Qed.

(** One iteration on the destination side: it keeps the accounting, and
    if it breaks because the iovec is exhausted, every byte of the
    destination has been written. *)
Lemma recvmsg_body_dest na m v :
  msg_iovlen m < 2 ^ 32 ->
  iov_total (msg_iov m) < 2 ^ 32 ->
  rx_dest m v ->
  match recvmsg_body na (msg_iovlen m) v with
  | inl v' => rx_dest m v'
  | inr (Rx_break_iov, v') =>
      rx_copied v' = iov_total (msg_iov m)
      /\ rx_j v' = msg_iovlen m
      /\ length <$> rx_umem v' = length <$> msg_iov m
  | inr (_, v') => rx_dest m v'
  end.
Proof.
  intros Hcnt Htot Hd. apply (recvmsg_copy_dest na m v Htot) in Hd.
  unfold recvmsg_body.
  set (v1 := recvmsg_copy na v) in *. clearbody v1.
  assert (Hiov : forall v2, rx_dest m v2 ->
            match (if rx_iov_frag_size v2 =? 0
                   then if msg_iovlen m <=? rx_j (recvmsg_incr_j v2)
                        then inr (Rx_break_iov, recvmsg_incr_j v2)
                        else inl (recvmsg_next_iov (recvmsg_incr_j v2))
                   else inl v2) with
            | inl v' => rx_dest m v'
            | inr (Rx_break_iov, v') =>
                rx_copied v' = iov_total (msg_iov m)
                /\ rx_j v' = msg_iovlen m
                /\ length <$> rx_umem v' = length <$> msg_iov m
            | inr (_, v') => rx_dest m v'
            end).
  { intros v2 H2.
    destruct (Z.eqb_spec (rx_iov_frag_size v2) 0) as [Ez|Ez]; [|exact H2].
    destruct (Z.leb_spec (msg_iovlen m) (rx_j (recvmsg_incr_j v2))) as [Hge|Hlt].
    - destruct (recvmsg_break_iov_dest m v2 Hcnt H2 Ez Hge) as [Hc Hj].
      split; [exact Hc|]. split; [exact Hj|]. exact (proj1 H2).
    - apply recvmsg_next_iov_dest; assumption. }
  destruct (rx_nm_frag_size v1 =? 0).
  - destruct (negb (rx_morefrag v1) || (rx_avail v1 =? 0)).
    + exact Hd.
    + apply Hiov. apply recvmsg_next_slot_dest. exact Hd.
  - apply Hiov. exact Hd.
Qed.

Lemma recvmsg_reaches_dest na m total_len v :
  msg_iovlen m < 2 ^ 32 ->
  0 < msg_iovlen m ->
  iov_total (msg_iov m) < 2 ^ 32 ->
  recvmsg_reaches na m total_len v ->
  rx_dest m v.
Proof.
  intros Hcnt Hne Htot. induction 1 as [|v v' _ IH _ E].
  - apply recvmsg_init_dest; assumption.
  - pose proof (recvmsg_body_dest na m v Hcnt Htot IH) as H. rewrite E in H. exact H.
Qed.

(** C4 (as amended).  In a call that stops because the destination iovec
    is exhausted, the value returned is the total length of the
    destination: exactly the bytes that fit.  When slots are still
    available at that point ([avail] is published non-zero) the call logs
    no warning, whatever [NS_MOREFRAG] of the current slot says: the only
    warning, for running out of slots inside a packet, needs
    [avail = 0]. *)
Theorem recvmsg_iov_exhausted na m total_len fl :
  0 < msg_iovlen m < 2 ^ 32 ->
  iov_total (msg_iov m) <= INT_MAX ->
  exists r,
    netmap_socket_recvmsg (Some na) m total_len fl = Some r
    /\ (rx_exit r = Rx_done Rx_break_iov ->
        rx_ret r = iov_total (msg_iov m)
        /\ length <$> msg_iov (rx_msg_out r) = length <$> msg_iov m
        /\ (avail <$> rx_ring_out r <> Some 0 ->
            ~ In Ev_RD_out_of_slots (rx_trace r)
            /\ rx_trace r = [Ev_D_read (iov_total (msg_iov m)) (msg_iovlen m)])).
Proof.
  intros [Hne Hcnt] Hmax.
  assert (Htot : iov_total (msg_iov m) < 2 ^ 32) by (unfold INT_MAX in Hmax; lia).
  destruct (Z.eq_dec (u32 (avail (rx_rings0 na))) 0) as [E0|Hav].
  { unfold netmap_socket_recvmsg. rewrite E0. cbn.
    eexists. split; [reflexivity|]. discriminate. }
  destruct (recvmsg_call_loop na m total_len fl Hcnt Hav) as (e & v & El & ->).
  eexists. split; [reflexivity|]. cbn. intros [= ->].
  destruct (recvmsg_loop_reaches na m total_len _ _ _ _ (reaches_init _ _ _) El)
    as [(? & _)|(v0 & Hr & _ & E)]; [discriminate|].
  pose proof (recvmsg_reaches_dest _ _ _ _ Hcnt Hne Htot Hr) as Hd.
  pose proof (recvmsg_body_dest na m v0 Hcnt Htot Hd) as Hb. rewrite E in Hb.
  destruct Hb as (Hc & Hj & Hl).
  split; [rewrite Hc; apply s32_id; unfold iov_total in *; lia|].
  split; [exact Hl|].
  unfold rx_ring_out. cbn. intros Hne0.
  destruct (Z.eqb_spec (rx_avail v) 0) as [Ez|Ez]; [congruence|]. cbn.
  rewrite Hc, Hj. split; [|reflexivity].
  intros [H|[]]. discriminate.
Qed.

(** ** Flag bits *)

Lemma land_lnot_disjoint a b : Z.land a b = 0 -> Z.land (Z.lnot b) a = a.
Proof.
  intros H. apply Z.bits_inj'. intros n Hn.
  rewrite Z.land_spec, Z.lnot_spec by assumption.
  assert (Hb : Z.testbit (Z.land a b) n = false) by (rewrite H; apply Z.bits_0).
  rewrite Z.land_spec in Hb.
  destruct (Z.testbit a n), (Z.testbit b n); cbn in *; congruence.
Qed.

Lemma land_clear a x : Z.land (Z.land x (Z.lnot a)) a = 0.
Proof.
  apply Z.bits_inj'. intros n Hn.
  rewrite !Z.land_spec, Z.lnot_spec, Z.bits_0 by assumption.
  destruct (Z.testbit a n), (Z.testbit x n); reflexivity.
Qed.

Lemma slot_flags_init_morefrag :
  Z.land (Z.lor NS_MOREFRAG NS_VNET_HDR) NS_MOREFRAG = NS_MOREFRAG.
Proof.
  rewrite Z.land_lor_distr_l, Z.land_diag.
  rewrite (Z.land_comm NS_VNET_HDR), NS_flags_disjoint. apply Z.lor_0_r.
Qed.

Lemma slot_flags_step_morefrag x :
  Z.land x NS_MOREFRAG = NS_MOREFRAG ->
  Z.land (Z.land x (Z.lnot NS_VNET_HDR)) NS_MOREFRAG = NS_MOREFRAG.
Proof.
  intros H. rewrite <- Z.land_assoc.
  rewrite (land_lnot_disjoint _ _ NS_flags_disjoint). exact H.
Qed.

Lemma slot_morefrag_set s :
  Z.land (flags s) NS_MOREFRAG = NS_MOREFRAG -> slot_morefrag s = true.
Proof.
  intros H. unfold slot_morefrag. rewrite H.
  pose proof NS_MOREFRAG_pos. destruct (Z.eqb_spec NS_MOREFRAG 0); [lia|reflexivity].
Qed.

Lemma slot_morefrag_clear s : slot_morefrag (clear_morefrag s) = false.
Proof. unfold slot_morefrag, clear_morefrag. cbn. rewrite land_clear. reflexivity. Qed.

(** ** Slots of a ring *)

Lemma slot_at_upd_same f i r :
  0 <= i < Z.of_nat (length (slot r)) ->
  slot_at (upd_slot f i r) i = f (slot_at r i).
Proof.
  intros Hi. unfold slot_at, upd_slot. cbn.
  rewrite list_lookup_alter_eq.
  destruct (lookup_lt_is_Some_2 (slot r) (Z.to_nat i) ltac:(lia)) as [s Hs].
  rewrite Hs. reflexivity.
Qed.

Lemma slot_at_upd_other f i j r :
  0 <= i -> 0 <= j -> i <> j ->
  slot_at (upd_slot f i r) j = slot_at r j.
Proof.
  intros Hi Hj Hne. unfold slot_at, upd_slot. cbn.
  rewrite list_lookup_alter_ne by lia. reflexivity.
Qed.

Lemma slot_at_set_cur_avail c a r i : slot_at (set_cur_avail c a r) i = slot_at r i.
Proof. reflexivity. Qed.

(** Distinct step counts below the capacity reach distinct slots. *)
Lemma ring_steps_inj n i t k :
  0 <= i < n -> (t < k)%nat -> Z.of_nat k < n ->
  ring_steps n t i <> ring_steps n k i.
Proof.
  intros Hi Htk Hk. rewrite !ring_steps_mod by assumption. intros E.
  assert (Hd : (Z.of_nat k - Z.of_nat t) mod n = 0).
  { replace (Z.of_nat k - Z.of_nat t) with ((i + Z.of_nat k) - (i + Z.of_nat t)) by lia.
    rewrite Zminus_mod, E, Z.sub_diag. apply Z.mod_0_l. lia. }
  rewrite Z.mod_small in Hd by lia. lia.
Qed.

(** ** sendmsg: the fragment flags *)

Lemma sendmsg_fill_flagged na k seg off n v :
  ring_wf (tx_rings0 na) ->
  tx_flagged na k v -> tx_avail v <> 0 ->
  tx_flagged na (S k) (sendmsg_fill seg off n v).
Proof.
  intros ((Ha & Hc) & Hlen & Hn) (Hp & Hl & Hf & Hlast & Hall) Hne.
  assert (Euc : u32 (cur (tx_rings0 na)) = cur (tx_rings0 na)) by (apply u32_id; lia).
  assert (Eua : u32 (avail (tx_rings0 na)) = avail (tx_rings0 na)) by (apply u32_id; lia).
  pose proof (sendmsg_fill_progress na k seg off n v Hp Hne) as Hp'.
  destruct Hp as (Pn & Pi & Pa & P0). rewrite Euc in Pi. rewrite Eua in Pa.
  assert (Hk : Z.of_nat k < num_slots (tx_rings0 na)) by lia.
  pose proof (ring_steps_bound _ k _ Hc) as Hb. rewrite <- Pi in Hb.
  unfold tx_flagged. split; [exact Hp'|].
  cbn [tx_na tx_slot_flags tx_last sendmsg_fill]. cbn [pred].
  split; [cbn; rewrite !length_alter; exact Hl|].
  split; [apply slot_flags_step_morefrag; exact Hf|].
  split; [exact Pi|].
  intros t Ht. unfold copy_from_user, set_nm_mem, set_tx_ring. cbn [tx_rings0].
  destruct (Nat.eq_dec t k) as [->|Htk].
  - rewrite <- Pi. rewrite slot_at_upd_same by (cbn; rewrite length_alter; lia).
    apply slot_morefrag_set. cbn. exact Hf.
  - assert (ring_steps (num_slots (tx_rings0 na)) t (cur (tx_rings0 na)) <> tx_i v).
    { rewrite Pi. apply ring_steps_inj; lia. }
    pose proof (ring_steps_bound _ t _ Hc).
    rewrite !slot_at_upd_other by lia. apply Hall. lia.
Qed.

Lemma sendmsg_loops_flagged na cap iov out :
  ring_wf (tx_rings0 na) ->
  sendmsg_iov_loop cap iov (sendmsg_init na) = Some out ->
  exists k, tx_flagged na k (flow_state out).
Proof.
  intros Hwf.
  apply (sendmsg_iov_loop_inv (fun v => exists k, tx_flagged na k v)).
  - intros seg off n v [k Hk] Hne. exists (S k).
    apply sendmsg_fill_flagged; assumption.
  - exists O. destruct Hwf as ((Ha & Hc) & Hlen & Hn).
    unfold tx_flagged, tx_progress. cbn.
    pose proof (u32_range (avail (tx_rings0 na))).
    rewrite Z.sub_0_r.
    repeat split; try lia.
    + apply slot_flags_init_morefrag.
    + apply u32_id. lia.
Qed.

(** Publishing clears [NS_MOREFRAG] on the slot filled last and on no
    other filled slot. *)
Lemma sendmsg_publish_morefrag na k v :
  ring_wf (tx_rings0 na) ->
  tx_flagged na k v ->
  forall t, (t < k)%nat ->
    slot_morefrag
      (slot_at (tx_rings0 (sendmsg_publish v))
         (ring_steps (num_slots (tx_rings0 na)) t (cur (tx_rings0 na))))
    = bool_decide (S t < k)%nat.
Proof.
  intros ((Ha & Hc) & Hlen & Hn) (Hp & Hl & Hf & Hlast & Hall) t Ht.
  assert (Eua : u32 (avail (tx_rings0 na)) = avail (tx_rings0 na)) by (apply u32_id; lia).
  destruct Hp as (Pn & Pi & Pa & P0). rewrite Eua in Pa.
  cbn [sendmsg_publish set_tx_ring tx_rings0]. rewrite slot_at_set_cur_avail.
  assert (Hk : Z.of_nat k <= num_slots (tx_rings0 na)) by lia.
  pose proof (ring_steps_bound _ t _ Hc).
  pose proof (ring_steps_bound _ (pred k) _ Hc).
  rewrite Hlast.
  case_bool_decide as Hlt.
  - rewrite slot_at_upd_other; [apply Hall; exact Ht|lia|lia|].
    apply not_eq_sym, ring_steps_inj; lia.
  - assert (k = S t) as -> by lia. cbn [pred].
    rewrite slot_at_upd_same by lia. apply slot_morefrag_clear.
Qed.

(** C7.  After a call that consumes all its input on a well-formed ring,
    with [k] slots filled from the entry cursor on, every slot filled but
    the last has [NS_MOREFRAG] set and the last one has it clear. *)
Theorem sendmsg_morefrag_pattern na m total_len :
  ring_wf (tx_rings0 na) ->
  exists r,
    netmap_socket_sendmsg (Some na) m total_len = Some r
    /\ (tx_exit r = Tx_done ->
        exists ring' (k : nat),
          tx_ring_out r = Some ring'
          /\ Z.of_nat k = avail (tx_rings0 na) - avail ring'
          /\ cur ring' =
               ring_steps (num_slots (tx_rings0 na)) k (cur (tx_rings0 na))
          /\ forall t, (t < k)%nat ->
               slot_morefrag
                 (slot_at ring'
                    (ring_steps (num_slots (tx_rings0 na)) t (cur (tx_rings0 na))))
               = bool_decide (S t < k)%nat).
Proof.
  intros Hwf.
  destruct (netmap_socket_sendmsg_total (Some na) m total_len) as [r Hr].
  exists r. split; [exact Hr|].
  unfold netmap_socket_sendmsg in Hr.
  destruct (_ <? _); [injection Hr as <-; discriminate|].
  destruct (sendmsg_iov_loop _ _ _) as [[v|r0 v]|] eqn:E;
    [|injection Hr as <-; discriminate|discriminate].
  injection Hr as <-. cbn [tx_exit]. intros _.
  destruct (sendmsg_loops_flagged _ _ _ _ Hwf E) as (k & Hfl).
  cbn [flow_state] in Hfl.
  pose proof (sendmsg_publish_morefrag na k v Hwf Hfl) as Hall.
  destruct Hfl as (Hp & _).
  destruct Hwf as ((Ha & Hc) & Hlen & Hn).
  assert (Euc : u32 (cur (tx_rings0 na)) = cur (tx_rings0 na)) by (apply u32_id; lia).
  assert (Eua : u32 (avail (tx_rings0 na)) = avail (tx_rings0 na)) by (apply u32_id; lia).
  destruct Hp as (Pn & Pi & Pa & P0). rewrite Euc in Pi. rewrite Eua in Pa.
  exists (tx_rings0 (sendmsg_publish v)), k.
  split; [reflexivity|]. split; [cbn; lia|]. split; [exact Pi|exact Hall].
Qed.

(** ** sendmsg: a worked call *)

Lemma sendmsg_frag_loop_step fuel cap seg off size v :
  size <> 0 -> tx_avail v <> 0 ->
  sendmsg_frag_loop (S fuel) cap seg off size v =
  sendmsg_frag_loop fuel cap seg (u32 (off + Z.min size cap))
    (u32 (size - Z.min size cap)) (sendmsg_fill seg off (Z.min size cap) v).
Proof.
  intros Hs Ha. cbn [sendmsg_frag_loop].
  apply Z.eqb_neq in Hs, Ha. rewrite Hs, Ha. reflexivity.
Qed.

Lemma sendmsg_frag_loop_done fuel cap seg off v :
  sendmsg_frag_loop fuel cap seg off 0 v = Some (Next v).
Proof. destruct fuel; reflexivity. Qed.

Lemma sendmsg_example_loops na seg1 seg2 :
  nr_buf_size (tx_rings0 na) = 1500 ->
  avail (tx_rings0 na) = 4 ->
  length seg1 = 2000%nat ->
  length seg2 = 1200%nat ->
  sendmsg_iov_loop (u32 (nr_buf_size (tx_rings0 na))) [seg1; seg2] (sendmsg_init na)
  = Some (Next (sendmsg_fill seg2 0 1200
                 (sendmsg_fill seg1 1500 500
                    (sendmsg_fill seg1 0 1500 (sendmsg_init na))))).
Proof.
  intros Hsz Hav H1 H2. rewrite Hsz.
  cbn [sendmsg_iov_loop]. unfold iov_len. rewrite H1, H2.
  change (u32 1500) with 1500. change (u32 (Z.of_nat 2000)) with 2000.
  change (u32 (Z.of_nat 1200)) with 1200.
  assert (Hv0 : tx_avail (sendmsg_init na) = 4) by (cbn; rewrite Hav; reflexivity).
  rewrite Hv0. change (Z.to_nat 4) with 4%nat.
  rewrite sendmsg_frag_loop_step by (rewrite ?Hv0; lia).
  change (Z.min 2000 1500) with 1500. change (u32 (0 + 1500)) with 1500.
  change (u32 (2000 - 1500)) with 500.
  set (v1 := sendmsg_fill seg1 0 1500 (sendmsg_init na)).
  assert (Hv1 : tx_avail v1 = 3) by (unfold v1; rewrite sendmsg_fill_avail, Hv0; reflexivity).
  rewrite sendmsg_frag_loop_step by (rewrite ?Hv1; lia).
  change (Z.min 500 1500) with 500. change (u32 (1500 + 500)) with 2000.
  change (u32 (500 - 500)) with 0.
  set (v2 := sendmsg_fill seg1 1500 500 v1).
  assert (Hv2 : tx_avail v2 = 2) by (unfold v2; rewrite sendmsg_fill_avail, Hv1; reflexivity).
  rewrite sendmsg_frag_loop_done.
  rewrite Hv2. change (Z.to_nat 2) with 2%nat.
  rewrite sendmsg_frag_loop_step by (rewrite ?Hv2; lia).
  change (Z.min 1200 1500) with 1200. change (u32 (0 + 1200)) with 1200.
  change (u32 (1200 - 1200)) with 0.
  rewrite sendmsg_frag_loop_done. reflexivity.
Qed.

(** C3 (as amended).  On a ring of 4 slots of 1500 bytes with
    [avail = 4], a call with two segments of 2000 and 1200 bytes takes
    exactly 3 slots, of lengths 1500, 500 and 1200: a segment never
    shares a slot with the next one.  [NS_MOREFRAG] is set on the first
    two and clear on the third, [avail] becomes 1, and the fourth slot is
    untouched. *)
Theorem sendmsg_example na seg1 seg2 total_len :
  num_slots (tx_rings0 na) = 4 ->
  length (slot (tx_rings0 na)) = 4%nat ->
  nr_buf_size (tx_rings0 na) = 1500 ->
  avail (tx_rings0 na) = 4 ->
  0 <= cur (tx_rings0 na) < 4 ->
  length seg1 = 2000%nat ->
  length seg2 = 1200%nat ->
  exists r ring',
    netmap_socket_sendmsg (Some na) {| msg_iov := [seg1; seg2] |} total_len = Some r
    /\ tx_exit r = Tx_done
    /\ tx_ring_out r = Some ring'
    /\ avail ring' = 1
    /\ cur ring' = (cur (tx_rings0 na) + 3) mod 4
    /\ len (slot_at ring' (cur (tx_rings0 na))) = 1500
    /\ len (slot_at ring' ((cur (tx_rings0 na) + 1) mod 4)) = 500
    /\ len (slot_at ring' ((cur (tx_rings0 na) + 2) mod 4)) = 1200
    /\ slot_morefrag (slot_at ring' (cur (tx_rings0 na))) = true
    /\ slot_morefrag (slot_at ring' ((cur (tx_rings0 na) + 1) mod 4)) = true
    /\ slot_morefrag (slot_at ring' ((cur (tx_rings0 na) + 2) mod 4)) = false
    /\ slot_at ring' ((cur (tx_rings0 na) + 3) mod 4)
       = slot_at (tx_rings0 na) ((cur (tx_rings0 na) + 3) mod 4).
Proof.
  intros Hn Hl Hsz Hav Hc H1 H2.
  unfold netmap_socket_sendmsg. cbn [msg_iov].
  rewrite (sendmsg_example_loops na seg1 seg2 Hsz Hav H1 H2).
  assert (Hg : (tx_avail (sendmsg_init na) <? msg_iovlen {| msg_iov := [seg1; seg2] |}) = false).
  { cbn. rewrite Hav. reflexivity. }
  rewrite Hg. clear Hg.
  eexists _, _. split; [reflexivity|]. split; [reflexivity|].
  split; [reflexivity|].
  destruct na as [[n sz c a sl] rx mem]. cbn in Hn, Hl, Hsz, Hav, Hc. subst n sz a.
  destruct sl as [|s0 [|s1 [|s2 [|s3 [|]]]]]; try discriminate. clear Hl.
  assert (Hcs : c = 0 \/ c = 1 \/ c = 2 \/ c = 3) by lia.
  destruct Hcs as [->|[->|[->| ->]]].
  all: cbv -[slot_morefrag clear_morefrag Z.land Z.lor Z.lnot map_alter splice
             NS_MOREFRAG NS_VNET_HDR].
  all: repeat split; try reflexivity; try apply slot_morefrag_clear.
  all: apply slot_morefrag_set; cbn [flags].
  all: first [ apply slot_flags_init_morefrag
             | apply slot_flags_step_morefrag, slot_flags_init_morefrag ].
Qed.

(** ** Byte sequences *)

Lemma take_splice (F : list byte) p bs :
  (p <= length F)%nat -> take (p + length bs) (splice F p bs) = take p F ++ bs.
Proof.
  intros Hp. unfold splice. rewrite app_assoc.
  rewrite take_app_length'; [reflexivity|].
  rewrite length_app, length_take. lia.
Qed.

Lemma splice_app_middle (l1 b l2 : list byte) ofs bs :
  (ofs + length bs <= length b)%nat ->
  splice (l1 ++ b ++ l2) (length l1 + ofs) bs = l1 ++ splice b ofs bs ++ l2.
Proof.
  intros H. unfold splice.
  rewrite take_app_add.
  rewrite take_app_le by lia.
  replace (length l1 + ofs + length bs)%nat with (length l1 + (ofs + length bs))%nat by lia.
  rewrite drop_app_add.
  rewrite drop_app_le by lia.
  rewrite <- !app_assoc. reflexivity.
Qed.

(** A store inside segment [j] is a store in the concatenated memory. *)
Lemma concat_alter_splice (umem : list (list byte)) j b ofs bs :
  umem !! j = Some b ->
  (ofs + length bs <= length b)%nat ->
  concat (alter (fun b => splice b ofs bs) j umem) =
  splice (concat umem) (length (concat (take j umem)) + ofs) bs.
Proof.
  intros Hj Hlen.
  rewrite <- (take_drop_middle umem j b Hj) at 1 2.
  assert (Hlj : length (take j umem) = j).
  { apply length_take_le. apply lookup_lt_Some in Hj. lia. }
  rewrite alter_app_r_alt by lia. rewrite Hlj, Nat.sub_diag. cbn [alter list_alter].
  rewrite !concat_app. cbn [concat].
  apply eq_sym, splice_app_middle. exact Hlen.
Qed.

Lemma length_concat_take_le (l : list (list byte)) j :
  (length (concat (take j l)) <= length (concat l))%nat.
Proof.
  rewrite <- (take_drop j l) at 2. rewrite concat_app, length_app. lia.
Qed.

(** Storing, at the write position, what the data holds there extends the
    part of the memory that agrees with the data. *)
Lemma copy_window (umem : list (list byte)) (data : list byte) j b iofs P bs :
  umem !! j = Some b ->
  (iofs + length bs <= length b)%nat ->
  P = (length (concat (take j umem)) + iofs)%nat ->
  take P (concat umem) = take P data ->
  take (length bs) (drop P data) = bs ->
  take (P + length bs) (concat (alter (fun b => splice b iofs bs) j umem))
  = take (P + length bs) data.
Proof.
  intros Hj Hlen HP Hpre Hwin.
  rewrite (concat_alter_splice umem j b iofs bs Hj Hlen), <- HP.
  rewrite take_splice.
  - rewrite <- (take_take_drop data P (length bs)), Hpre, Hwin. reflexivity.
  - subst P. rewrite <- (take_drop_middle umem j b Hj) at 2.
    rewrite concat_app, length_app. cbn [concat]. rewrite length_app. lia.
Qed.

(** ** Packets in a ring *)

Lemma payloads_S na r i0 k :
  payloads na r i0 (S k) =
  payloads na r i0 k ++ [slot_payload na (slot_at r (ring_steps (num_slots r) k i0))].
Proof. unfold payloads. rewrite seq_S, fmap_app. reflexivity. Qed.

Lemma length_payloads na r i0 k : length (payloads na r i0 k) = k.
Proof. unfold payloads. rewrite length_fmap, length_seq. reflexivity. Qed.

Lemma payloads_lookup na r i0 k t :
  (t < k)%nat ->
  payloads na r i0 k !! t =
  Some (slot_payload na (slot_at r (ring_steps (num_slots r) t i0))).
Proof.
  intros Ht. unfold payloads. rewrite list_lookup_fmap, lookup_seq_lt by lia.
  reflexivity.
Qed.

Lemma payloads_take na r i0 k k' :
  (k' <= k)%nat -> take k' (payloads na r i0 k) = payloads na r i0 k'.
Proof.
  intros Hle. apply list_eq. intros t.
  destruct (Nat.lt_ge_cases t k') as [Ht|Ht].
  - rewrite lookup_take_lt, !payloads_lookup by lia. reflexivity.
  - rewrite lookup_take_ge by lia. apply eq_sym, lookup_ge_None.
    rewrite length_payloads. lia.
Qed.

Lemma chain_bytes_payloads na r i0 nf k :
  holds_packet na r i0 nf -> (k <= nf)%nat ->
  chain_bytes r i0 k = Z.of_nat (length (concat (payloads na r i0 k))).
Proof.
  intros Hp. induction k as [|k IH]; intros Hk; [reflexivity|].
  cbn [chain_bytes]. rewrite IH by lia.
  rewrite payloads_S, concat_app, length_app. cbn [concat].
  rewrite app_nil_r. destruct (Hp k ltac:(lia)) as (_ & Hlen & _).
  cbv zeta in Hlen. lia.
Qed.

(** The bytes of the packet at the read position are the bytes of the
    current buffer at the slot offset. *)
Lemma payload_window na r i0 nf k ofs c :
  holds_packet na r i0 nf -> (k < nf)%nat ->
  let s := slot_at r (ring_steps (num_slots r) k i0) in
  (ofs + c <= Z.to_nat (u32 (len s)))%nat ->
  take c (drop (length (concat (payloads na r i0 k)) + ofs)
                (concat (payloads na r i0 nf)))
  = take c (drop ofs (nm_buf na (buf_idx s))).
Proof.
  intros Hp Hk s Hc.
  destruct (Hp k Hk) as (_ & Hlen & _). fold s in Hlen.
  rewrite <- (take_drop_middle (payloads na r i0 nf) k (slot_payload na s))
    by (apply payloads_lookup; exact Hk).
  rewrite payloads_take by lia.
  rewrite concat_app. cbn [concat].
  rewrite drop_app_add.
  rewrite drop_app_le by lia.
  rewrite take_app_le by (rewrite length_drop; lia).
  unfold slot_payload, BDG_NMB.
  rewrite !take_drop_commute, take_take.
  do 2 f_equal. lia.
Qed.

Lemma length_concat_lengths (l1 l2 : list (list byte)) :
  length <$> l1 = length <$> l2 -> length (concat l1) = length (concat l2).
Proof.
  revert l2. induction l1 as [|a l1 IH]; intros [|b l2] H; try discriminate.
  - reflexivity.
  - cbn in H. injection H as Hab Hl. cbn [concat]. rewrite !length_app, Hab.
    f_equal. apply IH. exact Hl.
Qed.

Lemma iov_prefix_lengths (l1 l2 : list (list byte)) j :
  length <$> l1 = length <$> l2 -> iov_prefix l1 j = iov_prefix l2 j.
Proof.
  intros H. unfold iov_prefix, iov_total. f_equal.
  apply length_concat_lengths. rewrite !fmap_take, H. reflexivity.
Qed.

(** ** recvmsg: reading a packet *)

Section ReadPacket.
Variable na : netmap_adapter.
Variable m : msghdr.
Variable nf : nat.

Let r := rx_rings0 na.
Let i0 := u32 (cur r).
Let data := concat (payloads na r i0 nf).

Hypothesis Hpacket : holds_packet na r i0 nf.
Hypothesis Havail : u32 (avail r) = Z.of_nat nf.
Hypothesis Hcnt : 0 < msg_iovlen m < 2 ^ 32.
Hypothesis Htotal : iov_total (msg_iov m) = Z.of_nat (length data).
Hypothesis Hsmall : iov_total (msg_iov m) < 2 ^ 32.

Lemma rx_reading_copied k v :
  (k < nf)%nat -> rx_progress na k v -> rx_dest m v ->
  rx_copied v = Z.of_nat (length (concat (payloads na r i0 k))) + rx_nm_frag_ofs v
  /\ rx_copied v + rx_nm_frag_size v
     = Z.of_nat (length (concat (payloads na r i0 (S k))))
  /\ rx_copied v + rx_nm_frag_size v <= Z.of_nat (length data).
Proof.
  intros Hk (Pi & Pa & P0 & Pm & Ps & Po & Pz & Pl & Pc & Pv)
         (Dl & Dd & Dj & Do & Ds & Dsum & Dc & Dn).
  fold r in Pi, Pl, Pc. fold i0 in Pi, Pc.
  rewrite (chain_bytes_payloads na r i0 nf k Hpacket ltac:(lia)) in Pc.
  destruct (Hpacket k Hk) as (Hpos & Hlen & _). cbv zeta in Hpos, Hlen.
  rewrite <- Pi in Hlen, Hpos.
  assert (Hle : (length (concat (payloads na r i0 (S k))) <= length data)%nat).
  { unfold data. rewrite <- (payloads_take na r i0 nf (S k)) by lia.
    apply length_concat_take_le. }
  assert (HS : Z.of_nat (length (concat (payloads na r i0 (S k))))
               = Z.of_nat (length (concat (payloads na r i0 k)))
                 + u32 (len (slot_at r (rx_i v)))).
  { rewrite payloads_S, concat_app, length_app. cbn [concat].
    rewrite app_nil_r, <- Pi. lia. }
  rewrite u32_id in Pc by lia. lia.
Qed.

Lemma recvmsg_copy_content k v :
  (k < nf)%nat -> rx_progress na k v -> rx_dest m v -> rx_content na nf v ->
  rx_content na nf (recvmsg_copy na v).
Proof.
  intros Hk Hp Hd Hc.
  destruct (rx_reading_copied k v Hk Hp Hd) as (Ecop & ES & Ele).
  destruct Hp as (Pi & Pa & P0 & Pm & Ps & Po & Pz & Pl & Pc & Pv).
  destruct Hd as (Dl & Dd & Dj & Do & Ds & Dsum & Dc & Dn).
  fold r in Pi, Pl, Ps. fold i0 in Pi.
  destruct (Hpacket k Hk) as (Hpos & Hlen & _). cbv zeta in Hpos, Hlen.
  rewrite <- Pi in Hlen, Hpos.
  unfold rx_content. cbn [rx_copied rx_umem recvmsg_copy].
  set (c := Z.min (rx_nm_frag_size v) (rx_iov_frag_size v)).
  assert (Hc0 : 0 <= c) by lia.
  rewrite (u32_id (rx_copied v + c)) by lia.
  assert (Hj : is_Some (rx_umem v !! Z.to_nat (rx_dst v))).
  { apply lookup_lt_is_Some.
    assert (length (rx_umem v) = length (msg_iov m)) as ->.
    { rewrite <- (length_fmap length (rx_umem v)), Dl, length_fmap. reflexivity. }
    unfold msg_iovlen in Dj. lia. }
  destruct Hj as [b Hb].
  assert (Hblen : Z.of_nat (length b) = iov_len_at (msg_iov m) (rx_j v)).
  { rewrite <- (iov_len_at_lengths _ _ _ Dl). unfold iov_len_at, iov_len.
    rewrite <- Dd, Hb. reflexivity. }
  set (bs := take (Z.to_nat c) (drop (Z.to_nat (rx_nm_frag_ofs v)) (nm_buf na (rx_src v)))).
  assert (Hbuf : (Z.to_nat (u32 (len (slot_at r (rx_i v))))
                  <= length (nm_buf na (rx_src v)))%nat).
  { unfold slot_payload, BDG_NMB in Hlen. rewrite <- Ps in Hlen.
    rewrite length_take in Hlen. lia. }
  assert (Hbs : length bs = Z.to_nat c).
  { unfold bs. rewrite length_take, length_drop. lia. }
  unfold copy_to_user. fold bs.
  replace (Z.to_nat (rx_copied v + c)) with (Z.to_nat (rx_copied v) + length bs)%nat by lia.
  apply (copy_window _ data _ b).
  - exact Hb.
  - lia.
  - rewrite Dd.
    assert (Epre : Z.of_nat (length (concat (take (Z.to_nat (rx_j v)) (rx_umem v))))
                   = iov_prefix (msg_iov m) (rx_j v)).
    { rewrite <- (iov_prefix_lengths _ _ _ Dl). reflexivity. }
    lia.
  - exact Hc.
  - rewrite Hbs. unfold bs. rewrite Ps.
    replace (Z.to_nat (rx_copied v))
      with (length (concat (payloads na r i0 k)) + Z.to_nat (rx_nm_frag_ofs v))%nat by lia.
    rewrite Pi. apply (payload_window na r i0 nf k); [exact Hpacket|exact Hk|].
    cbv zeta. rewrite <- Pi. lia.
Qed.

Lemma recvmsg_init_reading :
  (0 < nf)%nat -> rx_reading na m nf (recvmsg_init na m).
Proof.
  intros Hnf. exists O. split; [exact Hnf|].
  split; [apply recvmsg_init_progress|].
  split; [apply recvmsg_init_dest; [lia|exact Hsmall]|].
  reflexivity.
Qed.

(** One iteration inside the packet: it stays inside the packet, or it
    breaks with every byte of the packet delivered. *)
Lemma recvmsg_body_reading v :
  rx_reading na m nf v ->
  match recvmsg_body na (msg_iovlen m) v with
  | inl v' => rx_reading na m nf v'
  | inr (_, v') =>
      rx_copied v' = Z.of_nat (length data)
      /\ rx_content na nf v'
      /\ length <$> rx_umem v' = length <$> msg_iov m
  end.
Proof.
  intros (k & Hk & Hp & Hd & Hc).
  pose proof (recvmsg_copy_content k v Hk Hp Hd Hc) as Hc1.
  apply (recvmsg_copy_progress na) in Hp.
  apply (recvmsg_copy_dest na m v Hsmall) in Hd.
  unfold recvmsg_body.
  set (v1 := recvmsg_copy na v) in *. clearbody v1. clear v Hc.
  assert (Hiov : forall k2 v2,
            (k2 < nf)%nat -> rx_progress na k2 v2 -> rx_dest m v2 -> rx_content na nf v2 ->
            match (if rx_iov_frag_size v2 =? 0
                   then if msg_iovlen m <=? rx_j (recvmsg_incr_j v2)
                        then inr (Rx_break_iov, recvmsg_incr_j v2)
                        else inl (recvmsg_next_iov (recvmsg_incr_j v2))
                   else inl v2) with
            | inl v' => rx_reading na m nf v'
            | inr (_, v') =>
                rx_copied v' = Z.of_nat (length data)
                /\ rx_content na nf v'
                /\ length <$> rx_umem v' = length <$> msg_iov m
            end).
  { intros k2 v2 Hk2 Hp2 Hd2 Hc2.
    destruct (Z.eqb_spec (rx_iov_frag_size v2) 0) as [Ez|Ez];
      [|exists k2; auto].
    destruct (Z.leb_spec (msg_iovlen m) (rx_j (recvmsg_incr_j v2))) as [Hge|Hlt].
    - destruct (recvmsg_break_iov_dest m v2 (proj2 Hcnt) Hd2 Ez Hge) as [Hcop _].
      split; [cbn; rewrite Hcop; exact Htotal|].
      split; [exact Hc2|exact (proj1 Hd2)].
    - exists k2. split; [exact Hk2|].
      split; [apply recvmsg_next_iov_progress; exact Hp2|].
      split; [apply recvmsg_next_iov_dest; try assumption; apply Hcnt|].
      exact Hc2. }
  destruct (Z.eqb_spec (rx_nm_frag_size v1) 0) as [En|En].
  - destruct (rx_reading_copied k v1 Hk Hp Hd) as (_ & ES & _).
    destruct (Hpacket k Hk) as (_ & _ & Hmf). cbv zeta in Hmf.
    assert (Hm1 : rx_morefrag v1 = bool_decide (S k < nf)%nat).
    { destruct Hp as (Pi & _ & _ & Pm & _). fold r in Pi, Pm. fold i0 in Pi.
      rewrite Pm, Pi. exact Hmf. }
    assert (Ha1 : rx_avail v1 = Z.of_nat nf - Z.of_nat k).
    { destruct Hp as (_ & Pa & _). fold r in Pa. rewrite Pa, Havail. reflexivity. }
    rewrite Hm1.
    destruct (Z.eqb_spec (rx_avail v1) 0) as [E0|E0]; [lia|].
    rewrite orb_false_r.
    case_bool_decide as Hlast; cbn [negb].
    + apply (Hiov (S k)).
      * exact Hlast.
      * apply recvmsg_next_slot_progress; assumption.
      * apply recvmsg_next_slot_dest. exact Hd.
      * exact Hc1.
    + assert (S k = nf) as HSk by lia.
      split; [rewrite En, Z.add_0_r in ES; rewrite ES; unfold data; rewrite HSk; reflexivity|].
      split; [exact Hc1|exact (proj1 Hd)].
  - apply (Hiov k); assumption.
Qed.

Lemma recvmsg_reaches_reading total_len v :
  (0 < nf)%nat ->
  recvmsg_reaches na m total_len v -> rx_reading na m nf v.
Proof.
  intros Hnf. induction 1 as [|v v' _ IH _ E].
  - apply recvmsg_init_reading. exact Hnf.
  - pose proof (recvmsg_body_reading v IH) as H. rewrite E in H. exact H.
Qed.

(** Reading a packet into a destination of the packet's size delivers the
    packet.  *)
Lemma recvmsg_reads_packet fl :
  (0 < nf)%nat ->
  iov_total (msg_iov m) <= INT_MAX ->
  exists res,
    netmap_socket_recvmsg (Some na) m (iov_total (msg_iov m)) fl = Some res
    /\ rx_ret res = iov_total (msg_iov m)
    /\ concat (msg_iov (rx_msg_out res)) = data
    /\ length <$> msg_iov (rx_msg_out res) = length <$> msg_iov m.
Proof.
  intros Hnf Hmax.
  assert (Hav : u32 (avail (rx_rings0 na)) <> 0) by (fold r; lia).
  destruct (recvmsg_call_loop na m (iov_total (msg_iov m)) fl (proj2 Hcnt) Hav)
    as (e & v & El & ->).
  eexists. split; [reflexivity|]. cbn.
  assert (Hend : rx_copied v = Z.of_nat (length data)
                 /\ rx_content na nf v
                 /\ length <$> rx_umem v = length <$> msg_iov m).
  { destruct (recvmsg_loop_reaches na m _ _ _ _ _ (reaches_init _ _ _) El)
      as [(_ & Hr & Hge)|(v0 & Hr & _ & E)].
    - destruct (recvmsg_reaches_reading _ _ Hnf Hr) as (k & Hk & Hp & Hd & Hc).
      destruct (rx_reading_copied k v Hk Hp Hd) as (_ & _ & Hle).
      destruct Hp as (_ & _ & _ & _ & _ & _ & Pz & _).
      split; [lia|]. split; [exact Hc|exact (proj1 Hd)].
    - pose proof (recvmsg_body_reading v0 (recvmsg_reaches_reading _ _ Hnf Hr)) as H.
      rewrite E in H. exact H. }
  destruct Hend as (Hcop & Hcon & Hlen).
  split; [rewrite Hcop, <- Htotal; apply s32_id; unfold iov_total in *; lia|].
  split; [|exact Hlen].
  unfold rx_content in Hcon. rewrite Hcop, Nat2Z.id in Hcon.
  rewrite take_ge in Hcon.
  - rewrite Hcon. apply take_ge. lia.
  - rewrite (length_concat_lengths _ _ Hlen). unfold iov_total in Htotal. lia.
Qed.

End ReadPacket.

(** ** sendmsg: writing a packet *)

Lemma alter_keeps_buf_idx (f : netmap_slot -> netmap_slot) i (l : list netmap_slot) :
  (forall s, buf_idx (f s) = buf_idx s) ->
  buf_idx <$> alter f i l = buf_idx <$> l.
Proof.
  intros Hf. apply list_eq. intros k. rewrite !list_lookup_fmap.
  destruct (decide (i = k)) as [->|Hne].
  - rewrite list_lookup_alter_eq. destruct (l !! k); cbn; [rewrite Hf|]; reflexivity.
  - rewrite list_lookup_alter_ne by assumption. reflexivity.
Qed.

Lemma slot_at_buf_idx (r1 r2 : netmap_ring) i :
  buf_idx <$> slot r1 = buf_idx <$> slot r2 ->
  buf_idx (slot_at r1 i) = buf_idx (slot_at r2 i).
Proof.
  intros H. unfold slot_at.
  assert (E : (buf_idx <$> slot r1) !! Z.to_nat i = (buf_idx <$> slot r2) !! Z.to_nat i)
    by (rewrite H; reflexivity).
  rewrite !list_lookup_fmap in E.
  destruct (slot r1 !! Z.to_nat i), (slot r2 !! Z.to_nat i); cbn in *; congruence.
Qed.

Lemma slot_at_elem r i :
  0 <= i < Z.of_nat (length (slot r)) -> slot_at r i ∈ slot r.
Proof.
  intros Hi. unfold slot_at.
  destruct (lookup_lt_is_Some_2 (slot r) (Z.to_nat i) ltac:(lia)) as [s Hs].
  rewrite Hs. cbn. apply list_elem_of_lookup. eauto.
Qed.

(** Slots at different indices of a ring with [bufs_wf] use different
    buffers. *)
Lemma slot_at_buf_distinct r i j :
  NoDup (buf_idx <$> slot r) ->
  0 <= i < Z.of_nat (length (slot r)) ->
  0 <= j < Z.of_nat (length (slot r)) ->
  i <> j ->
  buf_idx (slot_at r i) <> buf_idx (slot_at r j).
Proof.
  intros Hnd Hi Hj Hne E. unfold slot_at in E.
  destruct (lookup_lt_is_Some_2 (slot r) (Z.to_nat i) ltac:(lia)) as [si Hsi].
  destruct (lookup_lt_is_Some_2 (slot r) (Z.to_nat j) ltac:(lia)) as [sj Hsj].
  rewrite Hsi, Hsj in E. cbn in E.
  assert (Z.to_nat i = Z.to_nat j); [|lia].
  apply (NoDup_lookup _ _ _ (buf_idx si) Hnd).
  - rewrite list_lookup_fmap, Hsi. reflexivity.
  - rewrite list_lookup_fmap, Hsj, E. reflexivity.
Qed.

Lemma nm_buf_copy_same na dst seg off n :
  is_Some (nm_mem na !! dst) ->
  nm_buf (copy_from_user na dst seg off n) dst =
  splice (nm_buf na dst) 0 (take (Z.to_nat n) (drop (Z.to_nat off) seg)).
Proof.
  intros [b Hb]. unfold nm_buf, copy_from_user. cbn.
  rewrite lookup_alter_eq, Hb. reflexivity.
Qed.

Lemma nm_buf_copy_other na dst seg off n p :
  p <> dst -> nm_buf (copy_from_user na dst seg off n) p = nm_buf na p.
Proof.
  intros Hne. unfold nm_buf, copy_from_user. cbn.
  rewrite lookup_alter_ne by congruence. reflexivity.
Qed.

Lemma nm_mem_copy_dom na dst seg off n p :
  is_Some (nm_mem na !! p) ->
  is_Some (nm_mem (copy_from_user na dst seg off n) !! p).
Proof.
  intros [b Hb]. unfold copy_from_user. cbn.
  destruct (decide (dst = p)) as [->|Hne].
  - rewrite lookup_alter_eq, Hb. cbn. eauto.
  - rewrite lookup_alter_ne by assumption. eauto.
Qed.

(** What one slot fill changes. *)
Lemma sendmsg_fill_slot_same seg off nsz v :
  0 <= tx_i v < Z.of_nat (length (slot (tx_rings0 (tx_na v)))) ->
  slot_at (tx_rings0 (tx_na (sendmsg_fill seg off nsz v))) (tx_i v)
  = set_flags (tx_slot_flags v) (set_len nsz (slot_at (tx_rings0 (tx_na v)) (tx_i v))).
Proof.
  intros Hi. cbn [sendmsg_fill tx_na copy_from_user set_nm_mem set_tx_ring tx_rings0].
  rewrite !slot_at_upd_same; [reflexivity|exact Hi|].
  cbn. rewrite length_alter. exact Hi.
Qed.

Lemma sendmsg_fill_slot_other seg off nsz v j :
  0 <= tx_i v -> 0 <= j -> j <> tx_i v ->
  slot_at (tx_rings0 (tx_na (sendmsg_fill seg off nsz v))) j
  = slot_at (tx_rings0 (tx_na v)) j.
Proof.
  intros Hi Hj Hne.
  cbn [sendmsg_fill tx_na copy_from_user set_nm_mem set_tx_ring tx_rings0].
  rewrite !slot_at_upd_other by auto. reflexivity.
Qed.

Lemma sendmsg_fill_buf_idx seg off nsz v :
  buf_idx <$> slot (tx_rings0 (tx_na (sendmsg_fill seg off nsz v)))
  = buf_idx <$> slot (tx_rings0 (tx_na v)).
Proof.
  cbn [sendmsg_fill tx_na copy_from_user set_nm_mem set_tx_ring tx_rings0
       upd_slot slot].
  rewrite !alter_keeps_buf_idx by reflexivity. reflexivity.
Qed.

Lemma sendmsg_fill_buf_same seg off nsz v :
  let dst := buf_idx (slot_at (tx_rings0 (tx_na v)) (tx_i v)) in
  is_Some (nm_mem (tx_na v) !! dst) ->
  nm_buf (tx_na (sendmsg_fill seg off nsz v)) dst
  = splice (nm_buf (tx_na v) dst) 0 (take (Z.to_nat nsz) (drop (Z.to_nat off) seg)).
Proof.
  intros dst Hs. cbn [sendmsg_fill tx_na BDG_NMB]. fold dst.
  rewrite nm_buf_copy_same by exact Hs. reflexivity.
Qed.

Lemma sendmsg_fill_buf_other seg off nsz v p :
  p <> buf_idx (slot_at (tx_rings0 (tx_na v)) (tx_i v)) ->
  nm_buf (tx_na (sendmsg_fill seg off nsz v)) p = nm_buf (tx_na v) p.
Proof.
  intros Hne. cbn [sendmsg_fill tx_na BDG_NMB].
  rewrite nm_buf_copy_other by exact Hne. reflexivity.
Qed.

Lemma sendmsg_fill_mem_dom seg off nsz v p :
  is_Some (nm_mem (tx_na v) !! p) ->
  is_Some (nm_mem (tx_na (sendmsg_fill seg off nsz v)) !! p).
Proof.
  intros Hs. cbn [sendmsg_fill tx_na]. apply nm_mem_copy_dom. exact Hs.
Qed.

Lemma slot_at_upd_cases f i j r :
  slot_at (upd_slot f i r) j = slot_at r j
  \/ slot_at (upd_slot f i r) j = f (slot_at r j).
Proof.
  unfold slot_at, upd_slot. cbn [slot].
  destruct (decide (Z.to_nat i = Z.to_nat j)) as [E|E].
  - rewrite E, list_lookup_alter_eq.
    destruct (slot r !! Z.to_nat j); cbn; auto.
  - rewrite list_lookup_alter_ne by exact E. auto.
Qed.

(** Publishing changes no length and no payload. *)
Lemma sendmsg_publish_payload v j :
  let s := slot_at (tx_rings0 (tx_na v)) j in
  let s' := slot_at (tx_rings0 (sendmsg_publish v)) j in
  len s' = len s /\ slot_payload (sendmsg_publish v) s' = slot_payload (tx_na v) s.
Proof.
  cbv zeta. cbn [sendmsg_publish set_tx_ring tx_rings0].
  rewrite slot_at_set_cur_avail.
  destruct (slot_at_upd_cases clear_morefrag (tx_last v) j (tx_rings0 (tx_na v)))
    as [-> | ->]; split; reflexivity.
Qed.

Section WritePacket.
Variable na : netmap_adapter.

Let r0 := tx_rings0 na.
Let n := num_slots r0.
Let i0 := cur r0.

Hypothesis Hwf : ring_wf r0.
Hypothesis Hbufs : bufs_wf na r0.

Lemma tx_data_init : tx_data na [] 0 (sendmsg_init na).
Proof.
  unfold tx_data, tx_progress. cbn.
  pose proof (u32_range (avail (tx_rings0 na))).
  repeat split; try lia; auto.
Qed.

Lemma sendmsg_fill_data data k seg off nsz v :
  tx_data na data k v -> tx_avail v <> 0 ->
  0 <= off -> 0 < nsz < 2 ^ 32 -> off + nsz <= Z.of_nat (length seg) ->
  tx_data na (data ++ take (Z.to_nat nsz) (drop (Z.to_nat off) seg)) (S k)
          (sendmsg_fill seg off nsz v).
Proof.
  intros (Hp & Hb & Hm & Hd & Hall) Hne Hoff Hnsz Hseg.
  fold r0 in Hb, Hd, Hall. fold n in Hall. fold i0 in Hd, Hall.
  destruct Hwf as ((Ha & Hc) & Hlen & Hn). fold n in Ha, Hc, Hlen, Hn.
  destruct Hbufs as [Hnd Hin].
  assert (Euc : u32 (cur r0) = cur r0) by (apply u32_id; lia).
  assert (Eua : u32 (avail r0) = avail r0) by (apply u32_id; lia).
  pose proof (sendmsg_fill_progress na k seg off nsz v Hp Hne) as Hp'.
  destruct Hp as (Pn & Pi & Pa & P0).
  fold r0 in Pn, Pi, Pa. fold n in Pn, Pi. rewrite Euc in Pi. rewrite Eua in Pa.
  fold i0 in Pi.
  assert (Hk : Z.of_nat k < n) by lia.
  pose proof (ring_steps_bound n k i0 Hc) as Hbi. rewrite <- Pi in Hbi.
  set (rv := tx_rings0 (tx_na v)) in *.
  assert (Hlv : Z.of_nat (length (slot rv)) = n).
  { rewrite <- Hlen, <- (length_fmap buf_idx (slot rv)), Hb, length_fmap. reflexivity. }
  set (bytes := take (Z.to_nat nsz) (drop (Z.to_nat off) seg)).
  assert (Hbytes : length bytes = Z.to_nat nsz).
  { unfold bytes. rewrite length_take, length_drop. lia. }
  set (dst := buf_idx (slot_at rv (tx_i v))).
  assert (Hdst : is_Some (nm_mem (tx_na v) !! dst)).
  { apply Hm. unfold dst. rewrite (slot_at_buf_idx rv r0 _ Hb).
    apply Hin, slot_at_elem. lia. }
  assert (Hold : forall t, (t < k)%nat ->
            slot_at (tx_rings0 (tx_na (sendmsg_fill seg off nsz v))) (ring_steps n t i0)
            = slot_at rv (ring_steps n t i0)
            /\ slot_payload (tx_na (sendmsg_fill seg off nsz v))
                 (slot_at rv (ring_steps n t i0))
               = slot_payload (tx_na v) (slot_at rv (ring_steps n t i0))).
  { intros t Ht.
    pose proof (ring_steps_bound n t i0 Hc) as Hbt.
    assert (Hneq : ring_steps n t i0 <> tx_i v).
    { rewrite Pi. apply ring_steps_inj; lia. }
    split.
    - apply sendmsg_fill_slot_other; lia.
    - unfold slot_payload, BDG_NMB. f_equal.
      apply sendmsg_fill_buf_other. fold rv. fold dst. unfold dst.
      apply slot_at_buf_distinct; try lia. rewrite Hb. exact Hnd. }
  assert (Hnew : slot_payload (tx_na (sendmsg_fill seg off nsz v))
                   (slot_at (tx_rings0 (tx_na (sendmsg_fill seg off nsz v))) (tx_i v))
                 = bytes
                 /\ len (slot_at (tx_rings0 (tx_na (sendmsg_fill seg off nsz v))) (tx_i v))
                    = nsz).
  { rewrite sendmsg_fill_slot_same by (fold rv; lia).
    split; [|reflexivity].
    unfold slot_payload, BDG_NMB. cbn [len buf_idx set_flags set_len].
    rewrite (sendmsg_fill_buf_same seg off nsz v Hdst). fold bytes.
    unfold splice. rewrite take_0, app_nil_l.
    rewrite (u32_id nsz) by lia.
    rewrite take_app_length'; [reflexivity|]. lia. }
  destruct Hnew as [Hnew Hnewlen].
  unfold tx_data. fold r0. fold n. fold i0. split; [exact Hp'|].
  split; [rewrite sendmsg_fill_buf_idx; exact Hb|].
  split; [intros p Hp0; apply sendmsg_fill_mem_dom, Hm; exact Hp0|].
  assert (Hn' : num_slots (tx_rings0 (tx_na (sendmsg_fill seg off nsz v))) = n).
  { destruct Hp' as (Pn' & _). exact Pn'. }
  split.
  - rewrite payloads_S, concat_app. cbn [concat]. rewrite app_nil_r.
    rewrite Hn', <- Pi, Hnew. f_equal. rewrite <- Hd.
    unfold payloads. f_equal. apply list_fmap_ext.
    intros idx t Hidx. apply lookup_seq in Hidx as [-> Hlt]. cbn [Nat.add].
    rewrite Hn', Pn.
    destruct (Hold idx Hlt) as [E1 E2]. rewrite E1. exact E2.
  - intros t Ht. cbv zeta.
    destruct (Nat.eq_dec t k) as [->|Htk].
    + rewrite <- Pi, Hnew, Hnewlen, (u32_id nsz) by lia. lia.
    + destruct (Hold t ltac:(lia)) as [E1 E2]. rewrite E1, E2.
      apply (Hall t). lia.
Qed.

Lemma sendmsg_frag_loop_data cap seg :
  0 < cap < 2 ^ 32 ->
  Z.of_nat (length seg) < 2 ^ 32 ->
  forall fuel off size v k data v',
    tx_data na data k v ->
    0 <= off -> 0 <= size -> off + size = Z.of_nat (length seg) ->
    sendmsg_frag_loop fuel cap seg off size v = Some (Next v') ->
    exists k', tx_data na (data ++ drop (Z.to_nat off) seg) k' v'.
Proof.
  intros Hcap Hseg.
  assert (Hend : forall off data k v,
            tx_data na data k v -> off + 0 = Z.of_nat (length seg) ->
            exists k', tx_data na (data ++ drop (Z.to_nat off) seg) k' v).
  { intros off data k v Hd Hoff. exists k.
    rewrite drop_ge, app_nil_r by lia. exact Hd. }
  induction fuel as [|fuel IH]; intros off size v k data v' Hd Hoff Hsize Hsum;
    cbn [sendmsg_frag_loop];
    destruct (Z.eqb_spec size 0) as [->|Hnz];
    try discriminate;
    try (intros [= <-]; eapply Hend; eassumption).
  destruct (Z.eqb_spec (tx_avail v) 0) as [E|E]; [discriminate|].
  set (nsz := Z.min size cap).
  rewrite (u32_id (off + nsz)) by lia.
  rewrite (u32_id (size - nsz)) by lia.
  intros Hl.
  assert (Hnsz : 0 < nsz < 2 ^ 32) by lia.
  assert (Hfit : off + nsz <= Z.of_nat (length seg)) by lia.
  pose proof (sendmsg_fill_data data k seg off nsz v Hd E Hoff Hnsz Hfit) as Hd1.
  assert (Hoff1 : 0 <= off + nsz) by lia.
  assert (Hsize1 : 0 <= size - nsz) by lia.
  assert (Hsum1 : off + nsz + (size - nsz) = Z.of_nat (length seg)) by lia.
  destruct (IH _ _ _ _ _ v' Hd1 Hoff1 Hsize1 Hsum1 Hl) as [k' Hk'].
  exists k'.
  replace (data ++ drop (Z.to_nat off) seg)
    with ((data ++ take (Z.to_nat nsz) (drop (Z.to_nat off) seg))
          ++ drop (Z.to_nat (off + nsz)) seg); [exact Hk'|].
  rewrite <- app_assoc. f_equal.
  rewrite <- (take_drop (Z.to_nat nsz) (drop (Z.to_nat off) seg)) at 2.
  rewrite drop_drop. do 2 f_equal. lia.
Qed.

Lemma sendmsg_iov_loop_data cap :
  0 < cap < 2 ^ 32 ->
  forall iov v k data v',
    iov_total iov < 2 ^ 32 ->
    tx_data na data k v ->
    sendmsg_iov_loop cap iov v = Some (Next v') ->
    exists k', tx_data na (data ++ concat iov) k' v'.
Proof.
  intros Hcap. induction iov as [|seg iov IH]; intros v k data v' Htot Hd;
    cbn [sendmsg_iov_loop].
  - intros [= <-]. exists k. rewrite app_nil_r. exact Hd.
  - unfold iov_total in Htot. cbn [concat] in Htot. rewrite length_app in Htot.
    assert (Hseg : Z.of_nat (length seg) < 2 ^ 32) by lia.
    unfold iov_len. rewrite (u32_id (Z.of_nat (length seg))) by lia.
    destruct (sendmsg_frag_loop _ cap seg 0 _ v) as [[v1|r1 v1]|] eqn:E;
      try discriminate.
    intros Hl.
    assert (H0 : 0 <= 0) by lia.
    assert (Hs0 : 0 <= Z.of_nat (length seg)) by lia.
    assert (Hsum : 0 + Z.of_nat (length seg) = Z.of_nat (length seg)) by lia.
    destruct (sendmsg_frag_loop_data cap seg Hcap Hseg _ _ _ _ _ _ _ Hd H0 Hs0 Hsum E)
      as [k1 Hk1].
    cbn [Z.to_nat drop] in Hk1.
    assert (Htot1 : iov_total iov < 2 ^ 32) by (unfold iov_total; lia).
    destruct (IH v1 k1 _ v' Htot1 Hk1 Hl) as [k' Hk'].
    exists k'. cbn [concat]. rewrite app_assoc. exact Hk'.
Qed.

(** A call that consumes all its input leaves it in the ring as one
    packet, in the slots from the entry cursor on. *)
Lemma sendmsg_writes_packet m total_len res :
  0 < u32 (nr_buf_size r0) ->
  iov_total (msg_iov m) < 2 ^ 32 ->
  netmap_socket_sendmsg (Some na) m total_len = Some res ->
  tx_exit res = Tx_done ->
  exists na1 (k : nat),
    tx_na_out res = Some na1
    /\ Z.of_nat k = avail r0 - avail (tx_rings0 na1)
    /\ num_slots (tx_rings0 na1) = n
    /\ holds_packet na1 (tx_rings0 na1) i0 k
    /\ concat (payloads na1 (tx_rings0 na1) i0 k) = concat (msg_iov m).
Proof.
  intros Hcap Htot Hcall Hexit.
  unfold netmap_socket_sendmsg in Hcall.
  destruct (_ <? _); [injection Hcall as <-; discriminate|].
  fold r0 in Hcall.
  destruct (sendmsg_iov_loop _ _ _) as [[v|r1 v]|] eqn:E;
    [|injection Hcall as <-; discriminate|discriminate].
  injection Hcall as <-. clear Hexit.
  destruct (sendmsg_loops_flagged _ _ _ _ Hwf E) as (kf & Hfl).
  cbn [flow_state] in Hfl.
  pose proof (u32_range (nr_buf_size r0)) as Hcr.
  destruct (sendmsg_iov_loop_data (u32 (nr_buf_size r0)) ltac:(lia)
              (msg_iov m) (sendmsg_init na) O [] v Htot tx_data_init E)
    as (k & Hd).
  cbn [app] in Hd.
  assert (kf = k) as ->.
  { destruct Hfl as ((_ & _ & Pa & _) & _). destruct Hd as ((_ & _ & Pa' & _) & _).
    lia. }
  pose proof (sendmsg_publish_morefrag na k v Hwf Hfl) as Hmf.
  destruct Hd as (Hp & Hb & Hm & Hdata & Hall).
  destruct Hwf as ((Ha & Hc) & Hlen & Hn).
  assert (Eua : u32 (avail r0) = avail r0) by (apply u32_id; fold r0; lia).
  destruct Hp as (Pn & Pi & Pa & P0). fold r0 in Pn, Pa. rewrite Eua in Pa.
  exists (sendmsg_publish v), k.
  split; [reflexivity|]. split; [cbn; lia|].
  split; [exact Pn|].
  assert (Hn1 : num_slots (tx_rings0 (sendmsg_publish v)) = n) by exact Pn.
  split.
  - intros t Ht. cbv zeta. rewrite Hn1.
    destruct (sendmsg_publish_payload v (ring_steps n t i0)) as [El Ep].
    cbv zeta in El, Ep. rewrite El, Ep.
    destruct (Hall t Ht) as [H1 H2]. cbv zeta in H1, H2.
    split; [exact H1|]. split; [exact H2|].
    apply Hmf. exact Ht.
  - rewrite <- Hdata. f_equal. unfold payloads. apply list_fmap_ext.
    intros idx t Hidx. rewrite Hn1, Pn.
    exact (proj2 (sendmsg_publish_payload v (ring_steps n t i0))).
Qed.

End WritePacket.

(** ** sendmsg: when the input fits *)

Lemma slots_for_zero cap : 0 < cap -> slots_for cap 0 = 0.
Proof. intros H. unfold slots_for. apply Z.div_small. lia. Qed.

Lemma slots_for_step cap n :
  0 < cap -> 0 < n ->
  slots_for cap n = 1 + slots_for cap (n - Z.min n cap).
Proof.
  intros Hc Hn. unfold slots_for.
  destruct (Z.le_gt_cases n cap) as [Hle|Hgt].
  - rewrite Z.min_l, Z.sub_diag by lia. cbn [Z.add].
    rewrite (Z.div_small (cap - 1)) by lia.
    replace (n + cap - 1) with (n - 1 + 1 * cap) by lia.
    rewrite Z.div_add by lia. rewrite Z.div_small; lia.
  - rewrite Z.min_r by lia.
    replace (n + cap - 1) with (n - cap + cap - 1 + 1 * cap) by lia.
    rewrite Z.div_add by lia. lia.
Qed.

Lemma slots_for_nonneg cap n : 0 < cap -> 0 <= n -> 0 <= slots_for cap n.
Proof. intros Hc Hn. unfold slots_for. apply Z.div_pos; lia. Qed.

Lemma sendmsg_frag_loop_fits cap seg :
  0 < cap ->
  forall fuel off size v,
    0 <= size < 2 ^ 32 ->
    0 <= tx_avail v < 2 ^ 32 ->
    (Z.to_nat (tx_avail v) < fuel)%nat ->
    slots_for cap size <= tx_avail v ->
    exists v',
      sendmsg_frag_loop fuel cap seg off size v = Some (Next v')
      /\ tx_avail v' = tx_avail v - slots_for cap size.
Proof.
  intros Hcap. induction fuel as [|fuel IH]; intros off size v Hs Ha Hf Hfit; [lia|].
  cbn [sendmsg_frag_loop].
  destruct (Z.eqb_spec size 0) as [->|Hnz].
  - exists v. rewrite slots_for_zero by assumption. split; [reflexivity|lia].
  - rewrite (slots_for_step cap size) in * by lia.
    pose proof (slots_for_nonneg cap (size - Z.min size cap) Hcap ltac:(lia)).
    destruct (Z.eqb_spec (tx_avail v) 0) as [E|E]; [lia|].
    rewrite (u32_id (size - Z.min size cap)) by lia.
    destruct (IH (u32 (off + Z.min size cap)) (size - Z.min size cap)
                (sendmsg_fill seg off (Z.min size cap) v)) as (v' & Hl & Hav).
    + lia.
    + rewrite sendmsg_fill_avail. apply u32_range.
    + rewrite sendmsg_fill_avail, u32_id by lia. lia.
    + rewrite sendmsg_fill_avail, u32_id by lia. lia.
    + exists v'. split; [exact Hl|].
      rewrite Hav, sendmsg_fill_avail, u32_id by lia. lia.
Qed.

Lemma slots_needed_nonneg cap iov : 0 < cap -> 0 <= slots_needed cap iov.
Proof.
  intros Hc. induction iov as [|seg iov IH]; cbn [slots_needed]; [lia|].
  pose proof (slots_for_nonneg cap (iov_len seg) Hc ltac:(unfold iov_len; lia)). lia.
Qed.

Lemma sendmsg_iov_loop_fits cap :
  0 < cap ->
  forall iov v,
    iov_total iov < 2 ^ 32 ->
    0 <= tx_avail v < 2 ^ 32 ->
    slots_needed cap iov <= tx_avail v ->
    exists v',
      sendmsg_iov_loop cap iov v = Some (Next v')
      /\ tx_avail v' = tx_avail v - slots_needed cap iov.
Proof.
  intros Hcap. induction iov as [|seg iov IH]; intros v Htot Ha Hfit;
    cbn [sendmsg_iov_loop slots_needed] in *.
  - exists v. split; [reflexivity|lia].
  - unfold iov_total in Htot. cbn [concat] in Htot. rewrite length_app in Htot.
    pose proof (slots_needed_nonneg cap iov Hcap).
    pose proof (slots_for_nonneg cap (iov_len seg) Hcap ltac:(unfold iov_len; lia)).
    unfold iov_len in *. rewrite (u32_id (Z.of_nat (length seg))) by lia.
    destruct (sendmsg_frag_loop_fits cap seg Hcap (S (Z.to_nat (tx_avail v))) 0
                (Z.of_nat (length seg)) v) as (v1 & Hl & Hav); try lia.
    rewrite Hl.
    destruct (IH v1) as (v' & Hl' & Hav').
    + unfold iov_total. lia.
    + lia.
    + lia.
    + exists v'. split; [exact Hl'|lia].
Qed.

(** With at most [avail] segments that need at most [avail] slots the
    call consumes all its input. *)
Lemma sendmsg_succeeds na m total_len :
  0 < u32 (nr_buf_size (tx_rings0 na)) ->
  iov_total (msg_iov m) < 2 ^ 32 ->
  msg_iovlen m <= u32 (avail (tx_rings0 na)) ->
  slots_needed (u32 (nr_buf_size (tx_rings0 na))) (msg_iov m)
    <= u32 (avail (tx_rings0 na)) ->
  exists res na1,
    netmap_socket_sendmsg (Some na) m total_len = Some res
    /\ tx_exit res = Tx_done
    /\ tx_ret res = s32 total_len
    /\ tx_na_out res = Some na1
    /\ avail (tx_rings0 na1) =
         u32 (avail (tx_rings0 na))
         - slots_needed (u32 (nr_buf_size (tx_rings0 na))) (msg_iov m).
Proof.
  intros Hcap Htot Hcnt Hfit. unfold netmap_socket_sendmsg.
  destruct (Z.ltb_spec (tx_avail (sendmsg_init na)) (msg_iovlen m)) as [Hlt|_].
  { cbn in Hlt. lia. }
  destruct (sendmsg_iov_loop_fits _ Hcap (msg_iov m) (sendmsg_init na) Htot)
    as (v & Hl & Hav).
  - cbn. apply u32_range.
  - exact Hfit.
  - rewrite Hl. eexists _, _. repeat split. cbn. exact Hav.
Qed.

(** ** Round trip *)

Lemma payloads_tx_to_rx na na1 c a i k :
  payloads (tx_to_rx na na1) (set_cur_avail c a (tx_rings0 na1)) i k
  = payloads na1 (tx_rings0 na1) i k.
Proof. reflexivity. Qed.

(** C1 (as amended).  Take a well-formed TX ring whose slots have buffers
    of their own, of non-zero size, and an input of at most [INT_MAX]
    bytes in at most [avail] segments that needs at most [avail] slots
    when every segment starts a slot of its own.  Then the call consumes
    the input, and a reception on the ring handed over (the slots
    written, read from the sender's entry cursor), into a destination of
    the same total size with that size requested, returns the size and
    leaves exactly the original bytes in the destination. *)
Theorem sendmsg_recvmsg_round_trip na src dst fl :
  ring_wf (tx_rings0 na) ->
  bufs_wf na (tx_rings0 na) ->
  0 < u32 (nr_buf_size (tx_rings0 na)) ->
  iov_total (msg_iov src) <= INT_MAX ->
  msg_iovlen src <= avail (tx_rings0 na) ->
  slots_needed (u32 (nr_buf_size (tx_rings0 na))) (msg_iov src)
    <= avail (tx_rings0 na) ->
  iov_total (msg_iov dst) = iov_total (msg_iov src) ->
  msg_iovlen dst < 2 ^ 32 ->
  exists res na1 res2,
    netmap_socket_sendmsg (Some na) src (iov_total (msg_iov src)) = Some res
    /\ tx_exit res = Tx_done
    /\ tx_ret res = iov_total (msg_iov src)
    /\ tx_na_out res = Some na1
    /\ avail (tx_rings0 na) - avail (tx_rings0 na1)
       = slots_needed (u32 (nr_buf_size (tx_rings0 na))) (msg_iov src)
    /\ netmap_socket_recvmsg (Some (tx_to_rx na na1)) dst
         (iov_total (msg_iov src)) fl = Some res2
    /\ rx_ret res2 = iov_total (msg_iov src)
    /\ concat (msg_iov (rx_msg_out res2)) = concat (msg_iov src)
    /\ length <$> msg_iov (rx_msg_out res2) = length <$> msg_iov dst.
Proof.
  intros Hwf Hbufs Hcap Hmax Hcnt Hfit Hsame Hdcnt.
  assert (Htot : iov_total (msg_iov src) < 2 ^ 32) by (unfold INT_MAX in Hmax; lia).
  pose proof Hwf as ((Ha & Hc) & Hlen & Hn).
  assert (Euc : u32 (cur (tx_rings0 na)) = cur (tx_rings0 na)) by (apply u32_id; lia).
  assert (Eua : u32 (avail (tx_rings0 na)) = avail (tx_rings0 na)) by (apply u32_id; lia).
  destruct (sendmsg_succeeds na src (iov_total (msg_iov src)) Hcap Htot)
    as (res & na1 & Hsend & Hexit & Hret & Hout & Hav); try (rewrite Eua; assumption).
  rewrite Eua in Hav.
  destruct (sendmsg_writes_packet na Hwf Hbufs src _ res Hcap Htot Hsend Hexit)
    as (na1' & k & Hout' & Hk & Hnum & Hpkt & Hdata).
  rewrite Hout in Hout'. injection Hout' as <-.
  exists res, na1.
  assert (Hrx : exists res2,
            netmap_socket_recvmsg (Some (tx_to_rx na na1)) dst
              (iov_total (msg_iov src)) fl = Some res2
            /\ rx_ret res2 = iov_total (msg_iov src)
            /\ concat (msg_iov (rx_msg_out res2)) = concat (msg_iov src)
            /\ length <$> msg_iov (rx_msg_out res2) = length <$> msg_iov dst).
  { destruct k as [|k].
    - (* nothing was written: the input is empty, the reception is spurious *)
      cbn in Hdata.
      assert (Hz : iov_total (msg_iov src) = 0)
        by (unfold iov_total; rewrite <- Hdata; reflexivity).
      unfold netmap_socket_recvmsg, tx_to_rx. cbn [rx_rings0 set_rx_ring avail set_cur_avail].
      replace (avail (tx_rings0 na) - avail (tx_rings0 na1)) with 0 by lia.
      change (u32 0 =? 0) with true. cbv iota.
      eexists. split; [reflexivity|]. cbn.
      split; [lia|]. split; [|reflexivity].
      rewrite <- Hdata. apply length_zero_iff_nil.
      unfold iov_total in Hsame, Hz. lia.
    - assert (Hpos : 0 < Z.of_nat (length (concat (msg_iov src)))).
      { rewrite <- Hdata.
        destruct (Hpkt O ltac:(lia)) as (Hp0 & Hl0 & _). cbv zeta in Hp0, Hl0.
        pose proof (length_concat_take_le
                      (payloads na1 (tx_rings0 na1) (cur (tx_rings0 na)) (S k)) 1).
        rewrite payloads_take in H by lia.
        unfold payloads in H at 1. cbn [seq fmap list_fmap concat] in H.
        rewrite app_nil_r in H. lia. }
      assert (Hdne : 0 < msg_iovlen dst).
      { unfold msg_iovlen. destruct (msg_iov dst) as [|? ?] eqn:Ed; [|cbn; lia].
        unfold iov_total in Hsame. cbn in Hsame. lia. }
      rewrite <- Hsame.
      destruct (recvmsg_reads_packet (tx_to_rx na na1) dst (S k)) with (fl := fl)
        as (res2 & Hrecv & Hret2 & Hcat & Hlens).
      + cbn [tx_to_rx rx_rings0 set_rx_ring cur set_cur_avail]. rewrite Euc.
        exact Hpkt.
      + cbn [tx_to_rx rx_rings0 set_rx_ring avail set_cur_avail].
        rewrite <- Hk. apply u32_id. lia.
      + lia.
      + cbn [tx_to_rx rx_rings0 set_rx_ring cur set_cur_avail]. rewrite Euc.
        rewrite payloads_tx_to_rx, Hdata, Hsame. reflexivity.
      + lia.
      + lia.
      + lia.
      + exists res2. split; [exact Hrecv|]. split; [exact Hret2|].
        split; [|exact Hlens].
        rewrite Hcat.
        cbn [tx_to_rx rx_rings0 set_rx_ring cur set_cur_avail]. rewrite Euc.
        rewrite payloads_tx_to_rx. exact Hdata. }
  destruct Hrx as (res2 & Hrecv & Hret2 & Hcat & Hlens).
  exists res2. split; [exact Hsend|]. split; [exact Hexit|].
  split; [rewrite Hret; apply s32_id; unfold iov_total in *; lia|].
  split; [exact Hout|]. split; [lia|].
  auto.
Qed.

End Proofs.

(** * Closed instances *)

(** C5, as stated, fails when the interface is not in netmap mode: the
    pending flag is set, the timer restarts, and no notification is sent. *)
Lemma mit_timer_expiry_silent :
  let gna := {| mit_pending := 1; if_capenable := 0; mit_timer_active := true |} in
  mit_pending gna <> 0
  /\ notifications (mit_timer_expiry gna).2 <> 1%nat.
Proof. cbn. split; discriminate. Qed.

(** C5 (as amended) at an interface in netmap mode with work pending: one
    notification, and the timer stays queued. *)
Lemma mit_timer_expiry_spec_witness :
  let gna := {| mit_pending := 1; if_capenable := IFCAP_NETMAP;
                mit_timer_active := true |} in
  mit_pending gna <> 0
  /\ mit_pending (mit_timer_expiry gna).1 = 0
  /\ mit_timer_active (mit_timer_expiry gna).1 = true
  /\ notifications (mit_timer_expiry gna).2 = 1%nat.
Proof.
  intros gna.
  assert (Hp : mit_pending gna <> 0) by discriminate.
  split; [exact Hp|].
  destruct (proj1 (mit_timer_expiry_spec gna) Hp) as (H0 & H1 & _ & _ & Hn).
  split; [exact H0|]. split; [exact H1|]. exact Hn.
Defined.

(** C2 at a call that runs out of slots inside the loops: 5 + 3 bytes
    need three slots of 4 bytes, two are available. *)
Lemma sendmsg_out_of_space_atomic_witness :
  exists r,
    netmap_socket_sendmsg (Some (blank_adapter 4 4 0 2))
      {| msg_iov := [[x01; x02; x03; x04; x05]; [x06; x07; x08]] |} 8 = Some r
    /\ tx_exit r = Tx_out_of_space
    /\ tx_ret r = 0
    /\ cur <$> tx_ring_out r = Some 0
    /\ avail <$> tx_ring_out r = Some 2
    /\ tx_trace r = [].
Proof.
  destruct (sendmsg_out_of_space_atomic (blank_adapter 4 4 0 2)
              {| msg_iov := [[x01; x02; x03; x04; x05]; [x06; x07; x08]] |} 8)
    as (r & Hr & H).
  exists r. split; [exact Hr|].
  assert (He : tx_exit r = Tx_out_of_space).
  { vm_compute in Hr. injection Hr as <-. reflexivity. }
  split; [exact He|]. apply H. right. left. exact He.
Defined.

(** C9 at a ring of 4 slots. *)
Lemma ring_invariant_preserved_witness :
  (exists r na' k,
      netmap_socket_sendmsg (Some (packet_adapter 0 3))
        {| msg_iov := [[x01; x02; x03; x04; x05]] |} 5 = Some r
      /\ tx_na_out r = Some na'
      /\ ring_wf (tx_rings0 na')
      /\ cur (tx_rings0 na') = (0 + Z.of_nat k) mod 4
      /\ avail (tx_rings0 na') = 4 - Z.of_nat k)
  /\ (exists r na' k,
      netmap_socket_recvmsg (Some (packet_adapter 0 3))
        {| msg_iov := [[x01; x02; x03; x04; x05]] |} 5 0 = Some r
      /\ rx_na_out r = Some na'
      /\ ring_wf (rx_rings0 na')
      /\ cur (rx_rings0 na') = (0 + Z.of_nat k) mod 4
      /\ avail (rx_rings0 na') = 3 - Z.of_nat k).
Proof.
  destruct (ring_invariant_preserved (packet_adapter 0 3)
              {| msg_iov := [[x01; x02; x03; x04; x05]] |} 5 0)
    as [(r & na' & k & H1 & H2 & H3 & _ & _ & H4 & H5)
        (r2 & na2 & k2 & G1 & G2 & G3 & _ & _ & G4 & G5)].
  - unfold ring_wf, ring_inv. cbn. lia.
  - unfold ring_wf, ring_inv. cbn. lia.
  - vm_compute. reflexivity.
  - split.
    + exists r, na', k. auto.
    + exists r2, na2, k2. auto.
Defined.

(** C3, as stated, fails on its own example: the slots are filled with
    1500, 500 and 1200 bytes, not 1500, 1500 and 200. *)
Lemma sendmsg_example_lengths :
  exists r ring',
    netmap_socket_sendmsg (Some (blank_adapter 4 1500 0 4))
      {| msg_iov := [repeat x01 2000; repeat x02 1200] |} 3200 = Some r
    /\ tx_ring_out r = Some ring'
    /\ avail ring' = 1
    /\ len <$> take 3 (slot ring') = [1500; 500; 1200]
    /\ len <$> take 3 (slot ring') <> [1500; 1500; 200].
Proof.
  eexists _, _. split; [vm_compute; reflexivity|].
  split; [reflexivity|]. split; [reflexivity|].
  split; [reflexivity|discriminate].
Qed.

(** C3 (as amended) at the ring of the example, entered at slot 2. *)
Lemma sendmsg_example_witness :
  exists r ring',
    netmap_socket_sendmsg (Some (blank_adapter 4 1500 2 4))
      {| msg_iov := [repeat x01 2000; repeat x02 1200] |} 3200 = Some r
    /\ tx_ring_out r = Some ring'
    /\ avail ring' = 1
    /\ len (slot_at ring' 2) = 1500
    /\ len (slot_at ring' 3) = 500
    /\ len (slot_at ring' 0) = 1200
    /\ slot_morefrag (slot_at ring' 2) = true
    /\ slot_morefrag (slot_at ring' 3) = true
    /\ slot_morefrag (slot_at ring' 0) = false.
Proof.
  destruct (sendmsg_example (blank_adapter 4 1500 2 4)
              (repeat x01 2000) (repeat x02 1200) 3200)
    as (r & ring' & H); try reflexivity.
  - cbn. lia.
  - exists r, ring'. intuition.
Defined.

(** C7 at a call that fills three slots from slot 3 on. *)
Lemma sendmsg_morefrag_pattern_witness :
  exists r ring',
    netmap_socket_sendmsg (Some (blank_adapter 4 4 3 4))
      {| msg_iov := [[x01; x02; x03; x04; x05]; [x06]] |} 6 = Some r
    /\ tx_exit r = Tx_done
    /\ tx_ring_out r = Some ring'
    /\ slot_morefrag (slot_at ring' 3) = true
    /\ slot_morefrag (slot_at ring' 0) = true
    /\ slot_morefrag (slot_at ring' 1) = false.
Proof.
  destruct (sendmsg_morefrag_pattern (blank_adapter 4 4 3 4)
              {| msg_iov := [[x01; x02; x03; x04; x05]; [x06]] |} 6)
    as (r & Hr & H).
  { unfold ring_wf, ring_inv. cbn. lia. }
  assert (He : tx_exit r = Tx_done).
  { vm_compute in Hr. injection Hr as <-. reflexivity. }
  destruct (H He) as (ring' & k & Ho & Hk & _ & Hall).
  assert (k = 3%nat) as ->.
  { vm_compute in Hr. injection Hr as <-. vm_compute in Ho.
    injection Ho as <-. cbn in Hk. lia. }
  exists r, ring'. split; [exact Hr|]. split; [exact He|]. split; [exact Ho|].
  split; [exact (Hall 0%nat ltac:(lia))|].
  split; [exact (Hall 1%nat ltac:(lia))|exact (Hall 2%nat ltac:(lia))].
Defined.

(** C4, as stated, fails: the destination (4 bytes) is exhausted while the
    packet goes on ([NS_MOREFRAG] set on the current slot, two slots
    available), the call returns the 4 bytes that fit, and no warning is
    logged. *)
Lemma recvmsg_iov_exhausted_silent :
  exists r ring',
    netmap_socket_recvmsg (Some (packet_adapter 0 3))
      {| msg_iov := [[x00; x00; x00; x00]] |} 4 0 = Some r
    /\ rx_exit r = Rx_done Rx_break_iov
    /\ rx_ring_out r = Some ring'
    /\ slot_morefrag (slot_at ring' (cur ring')) = true
    /\ avail ring' = 2
    /\ rx_ret r = 4
    /\ ~ In Ev_RD_out_of_slots (rx_trace r).
Proof.
  eexists _, _. split; [vm_compute; reflexivity|].
  repeat split. intros [H|[]]. discriminate.
Qed.

(** C4 (as amended) at the same call. *)
Lemma recvmsg_iov_exhausted_witness :
  exists r,
    netmap_socket_recvmsg (Some (packet_adapter 0 3))
      {| msg_iov := [[x00; x00; x00; x00]] |} 4 0 = Some r
    /\ rx_exit r = Rx_done Rx_break_iov
    /\ rx_ret r = 4
    /\ rx_trace r = [Ev_D_read 4 1].
Proof.
  destruct (recvmsg_iov_exhausted (packet_adapter 0 3)
              {| msg_iov := [[x00; x00; x00; x00]] |} 4 0)
    as (r & Hr & H).
  { vm_compute. split; reflexivity. }
  { vm_compute. discriminate. }
  exists r. split; [exact Hr|].
  assert (He : rx_exit r = Rx_done Rx_break_iov).
  { vm_compute in Hr. injection Hr as <-. reflexivity. }
  split; [exact He|].
  destruct (H He) as (Hret & _ & Htr).
  split; [exact Hret|]. apply Htr.
  vm_compute in Hr. injection Hr as <-. vm_compute. discriminate.
Defined.

(** C10 at a call that reads the whole packet: three slots read, two
    released. *)
Lemma recvmsg_last_slot_not_released_witness :
  exists r ring',
    netmap_socket_recvmsg (Some (packet_adapter 0 3))
      {| msg_iov := [repeat x00 10] |} 10 0 = Some r
    /\ rx_exit r = Rx_done Rx_break_slot
    /\ rx_ring_out r = Some ring'
    /\ cur ring' = 2
    /\ avail ring' = 1
    /\ rx_ret r = 10.
Proof.
  destruct (recvmsg_last_slot_not_released (packet_adapter 0 3)
              {| msg_iov := [repeat x00 10] |} 10 0)
    as (r & Hr & H).
  { vm_compute. reflexivity. }
  assert (He : rx_exit r = Rx_done Rx_break_slot).
  { vm_compute in Hr. injection Hr as <-. reflexivity. }
  destruct (H He) as (k & ring' & Ho & Hc & Ha & _ & Hret).
  assert (k = 2%nat) as ->.
  { vm_compute in Hr. injection Hr as <-. vm_compute in Ho.
    injection Ho as <-. cbn in Ha. change (u32 3) with 3 in Ha. lia. }
  exists r, ring'. split; [exact Hr|]. split; [exact He|]. split; [exact Ho|].
  split; [exact Hc|]. split; [exact Ha|exact Hret].
Defined.

(** C6 (defect of the code).  The ring offers one slot: [cur = 0],
    [avail = 1], so slot 1 is outside its window.  Slot 0 holds 4 bytes
    with [NS_MOREFRAG] set.  When slot 0 is exhausted no more slots are
    available, and by the comment at lines 391-394 the call is done; but
    line 395 tests [avail] before line 399 takes the slot just read off
    it, so the call moves on to slot 1, copies its 4 bytes too, returns
    8, publishes [cur = 1] and [avail = 0], and logs that it ran out of
    slots. *)
Theorem recvmsg_slot_exhausted_past_avail :
  let na := packet_adapter 0 1 in
  let m := {| msg_iov := [repeat x00 10] |} in
  in_window (rx_rings0 na) 0
  /\ ~ in_window (rx_rings0 na) 1
  /\ slot_morefrag (slot_at (rx_rings0 na) 0) = true
  /\ exists r,
       netmap_socket_recvmsg (Some na) m 10 0 = Some r
       /\ rx_exit r = Rx_done Rx_break_slot
       /\ rx_ret r = 8
       /\ msg_iov (rx_msg_out r)
          = [[x01; x02; x03; x04; x05; x06; x07; x08; x00; x00]]
       /\ cur <$> rx_ring_out r = Some 1
       /\ avail <$> rx_ring_out r = Some 0
       /\ rx_trace r = [Ev_RD_out_of_slots; Ev_D_read 8 0].
Proof.
  cbv zeta. split; [exists O; split; [cbn; lia|reflexivity]|].
  split.
  { intros (t & Ht & E). cbn in Ht. destruct t as [|t]; [discriminate|lia]. }
  split; [reflexivity|].
  eexists. split; [vm_compute; reflexivity|]. cbn. auto 10.
Qed.

(** C1, as stated, fails: 5 + 3 bytes are at most [avail * slot_cap]
    (2 slots of 4 bytes), but the first segment takes both slots, the call
    returns 0 and publishes nothing, and the reception delivers no byte of
    the input. *)
Lemma round_trip_out_of_slots :
  let na := blank_adapter 4 4 0 2 in
  let src := {| msg_iov := [[x01; x02; x03; x04; x05]; [x06; x07; x08]] |} in
  let dst := {| msg_iov := [repeat x00 8] |} in
  iov_total (msg_iov src) <= avail (tx_rings0 na) * nr_buf_size (tx_rings0 na)
  /\ iov_total (msg_iov dst) = iov_total (msg_iov src)
  /\ tx_ret <$> netmap_socket_sendmsg (Some na) src 8 = Some 0
  /\ round_trip na src dst = Some (repeat x00 8)
  /\ round_trip na src dst <> Some (concat (msg_iov src)).
Proof.
  cbv zeta. split; [vm_compute; discriminate|].
  split; [reflexivity|]. split; [vm_compute; reflexivity|].
  split; [vm_compute; reflexivity|]. vm_compute. discriminate.
Qed.

Lemma blank_adapter_bufs_wf : bufs_wf (blank_adapter 4 4 3 4) (blank_ring 4 4 3 4).
Proof.
  split.
  - apply (bool_decide_unpack _). vm_compute. reflexivity.
  - apply Forall_forall. repeat constructor; vm_compute; eexists; reflexivity.
Qed.

(** C1 (as amended) on a ring entered at its last slot: 6 + 0 + 3 bytes go
    through slots 3, 0 and 1 and come back in a destination cut
    differently. *)
Lemma sendmsg_recvmsg_round_trip_witness :
  exists res na1 res2,
    netmap_socket_sendmsg (Some (blank_adapter 4 4 3 4))
      {| msg_iov := [[x01; x02; x03; x04; x05; x06]; []; [x07; x08; x09]] |} 9
      = Some res
    /\ tx_ret res = 9
    /\ tx_na_out res = Some na1
    /\ avail (tx_rings0 na1) = 1
    /\ netmap_socket_recvmsg (Some (tx_to_rx (blank_adapter 4 4 3 4) na1))
         {| msg_iov := [[]; [x00; x00]; repeat x00 6; [x00]] |} 9 0 = Some res2
    /\ rx_ret res2 = 9
    /\ concat (msg_iov (rx_msg_out res2))
       = [x01; x02; x03; x04; x05; x06; x07; x08; x09].
Proof.
  destruct (sendmsg_recvmsg_round_trip (blank_adapter 4 4 3 4)
              {| msg_iov := [[x01; x02; x03; x04; x05; x06]; []; [x07; x08; x09]] |}
              {| msg_iov := [[]; [x00; x00]; repeat x00 6; [x00]] |} 0)
    as (res & na1 & res2 & H1 & _ & H3 & H4 & H5 & H6 & H7 & H8 & _).
  - unfold ring_wf, ring_inv. cbn. lia.
  - exact blank_adapter_bufs_wf.
  - vm_compute. reflexivity.
  - vm_compute. discriminate.
  - vm_compute. discriminate.
  - vm_compute. discriminate.
  - reflexivity.
  - vm_compute. reflexivity.
  - exists res, na1, res2.
    split; [exact H1|]. split; [exact H3|]. split; [exact H4|].
    split.
    { assert (Hs : slots_needed (u32 (nr_buf_size (tx_rings0 (blank_adapter 4 4 3 4))))
                     [[x01; x02; x03; x04; x05; x06]; []; [x07; x08; x09]] = 3)
        by (vm_compute; reflexivity).
      cbn [msg_iov] in H5. rewrite Hs in H5. cbn in H5. lia. }
    split; [exact H6|]. split; [exact H7|exact H8].
Defined.

(** * Further properties of the socket paths *)

Section SocketPaths.
Context {K : netmap_consts}.

(** ** sendmsg: when the input does not fit *)

Lemma sendmsg_frag_loop_short cap seg :
  0 < cap ->
  forall fuel off size v,
    0 <= size < 2 ^ 32 ->
    0 <= tx_avail v < 2 ^ 32 ->
    (Z.to_nat (tx_avail v) < fuel)%nat ->
    tx_avail v < slots_for cap size ->
    exists v', sendmsg_frag_loop fuel cap seg off size v = Some (Return 0 v').
Proof.
  intros Hcap. induction fuel as [|fuel IH]; intros off size v Hs Ha Hf Hshort; [lia|].
  cbn [sendmsg_frag_loop].
  destruct (Z.eqb_spec size 0) as [->|Hnz].
  - rewrite slots_for_zero in Hshort by assumption. lia.
  - destruct (Z.eqb_spec (tx_avail v) 0) as [E|E]; [eauto|].
    rewrite (slots_for_step cap size) in Hshort by lia.
    rewrite (u32_id (size - Z.min size cap)) by lia.
    apply IH.
    + lia.
    + rewrite sendmsg_fill_avail. apply u32_range.
    + rewrite sendmsg_fill_avail, u32_id by lia. lia.
    + rewrite sendmsg_fill_avail, u32_id by lia. lia.
Qed.

Lemma sendmsg_iov_loop_short cap :
  0 < cap ->
  forall iov v,
    iov_total iov < 2 ^ 32 ->
    0 <= tx_avail v < 2 ^ 32 ->
    tx_avail v < slots_needed cap iov ->
    exists v', sendmsg_iov_loop cap iov v = Some (Return 0 v').
Proof.
  intros Hcap. induction iov as [|seg iov IH]; intros v Htot Ha Hshort;
    cbn [sendmsg_iov_loop slots_needed] in *.
  - lia.
  - unfold iov_total in Htot. cbn [concat] in Htot. rewrite length_app in Htot.
    pose proof (slots_for_nonneg cap (iov_len seg) Hcap ltac:(unfold iov_len; lia)).
    unfold iov_len in *. rewrite (u32_id (Z.of_nat (length seg))) by lia.
    destruct (Z.le_gt_cases (slots_for cap (Z.of_nat (length seg))) (tx_avail v))
      as [Hfit|Hno].
    + destruct (sendmsg_frag_loop_fits cap seg Hcap (S (Z.to_nat (tx_avail v))) 0
                  (Z.of_nat (length seg)) v) as (v1 & Hl & Hav); try lia.
      rewrite Hl. apply IH; [unfold iov_total; lia | lia | lia].
    + destruct (sendmsg_frag_loop_short cap seg Hcap (S (Z.to_nat (tx_avail v))) 0
                  (Z.of_nat (length seg)) v) as (v1 & Hl); try lia.
      rewrite Hl. eauto.
Qed.

(** The three ways the loops of a call can go, by the slots at hand. *)
Lemma sendmsg_loops_outcome na m :
  0 < u32 (nr_buf_size (tx_rings0 na)) ->
  iov_total (msg_iov m) < 2 ^ 32 ->
  let a := u32 (avail (tx_rings0 na)) in
  let need := slots_needed (u32 (nr_buf_size (tx_rings0 na))) (msg_iov m) in
  (need <= a
   /\ exists v, sendmsg_iov_loop (u32 (nr_buf_size (tx_rings0 na))) (msg_iov m)
                  (sendmsg_init na) = Some (Next v)
                /\ tx_avail v = a - need)
  \/ (a < need
      /\ exists v, sendmsg_iov_loop (u32 (nr_buf_size (tx_rings0 na))) (msg_iov m)
                     (sendmsg_init na) = Some (Return 0 v)).
Proof.
  intros Hcap Htot a need.
  assert (Ha : 0 <= tx_avail (sendmsg_init na) < 2 ^ 32) by (cbn; apply u32_range).
  destruct (Z.le_gt_cases need a) as [Hfit|Hno].
  - left. split; [exact Hfit|].
    apply sendmsg_iov_loop_fits; assumption.
  - right. split; [exact Hno|].
    apply sendmsg_iov_loop_short; assumption.
Qed.

(** C8.  A call that consumes all its input (it leaves by the final
    [return]) returns the total input length, and its trace is a single
    call of [nm_txsync], made on the adapter the call leaves, whose TX
    ring already carries the new [cur] and [avail].  On a ring with a
    positive slot size these are pinned by the input: with [need] the
    slots the segments take (for each segment its length divided by the
    slot size and rounded up), [cur] is the entry cursor stepped [need]
    times and [avail] is the entry [avail] less [need]. *)
Theorem sendmsg_success_return_and_sync na m total_len :
  exists r,
    netmap_socket_sendmsg (Some na) m total_len = Some r
    /\ (tx_exit r = Tx_done ->
        total_len = iov_total (msg_iov m) ->
        total_len <= INT_MAX ->
        tx_ret r = iov_total (msg_iov m)
        /\ exists na',
             tx_na_out r = Some na'
             /\ tx_trace r = [Ev_nm_txsync na' 0 0]
             /\ (0 < u32 (nr_buf_size (tx_rings0 na)) ->
                 let need :=
                   slots_needed (u32 (nr_buf_size (tx_rings0 na))) (msg_iov m) in
                 0 <= need <= u32 (avail (tx_rings0 na))
                 /\ cur (tx_rings0 na') =
                      ring_steps (num_slots (tx_rings0 na)) (Z.to_nat need)
                        (u32 (cur (tx_rings0 na)))
                 /\ avail (tx_rings0 na') = u32 (avail (tx_rings0 na)) - need)).
Proof.
  destruct (netmap_socket_sendmsg_total (Some na) m total_len) as [r Hr].
  exists r. split; [exact Hr|].
  unfold netmap_socket_sendmsg in Hr.
  destruct (_ <? _); [injection Hr as <-; discriminate|].
  destruct (sendmsg_iov_loop _ _ _) as [[v|r0 v]|] eqn:E;
    [|injection Hr as <-; discriminate|discriminate].
  injection Hr as <-. cbn [tx_exit tx_ret tx_na_out tx_trace]. intros _ Htot Hmax.
  split.
  { subst total_len. apply s32_id. unfold iov_total in *. lia. }
  exists (sendmsg_publish v). split; [reflexivity|]. split; [reflexivity|].
  intros Hcap. cbv zeta.
  set (need := slots_needed (u32 (nr_buf_size (tx_rings0 na))) (msg_iov m)).
  assert (Hsmall : iov_total (msg_iov m) < 2 ^ 32)
    by (unfold INT_MAX in Hmax; lia).
  destruct (sendmsg_loops_progress _ _ _ _ E) as (k & _ & Hi & Ha & H0).
  cbn [flow_state] in Hi, Ha, H0.
  destruct (sendmsg_loops_outcome na m Hcap Hsmall)
    as [(Hfit & v' & E' & Hav)|(_ & v' & E')];
    rewrite E in E'; [|discriminate].
  injection E' as <-. fold need in Hfit, Hav.
  pose proof (slots_needed_nonneg (u32 (nr_buf_size (tx_rings0 na))) (msg_iov m) Hcap)
    as Hnn.
  fold need in Hnn.
  assert (Hk : k = Z.to_nat need) by lia. subst k.
  split; [lia|]. split; [exact Hi|].
  cbn [sendmsg_publish set_tx_ring tx_rings0 set_cur_avail avail]. lia.
Qed.

(** X1.  With a positive slot size and segment lengths that fit
    [unsigned], the exit of [netmap_socket_sendmsg] is decided by the
    slots at hand: the first guard rejects the call when there are fewer
    slots than segments, the loops give up when the segments need more
    slots than there are (each segment starts a slot of its own and takes
    the slots its length asks for), and the call goes through
    otherwise. *)
Theorem sendmsg_exit_cases na m total_len res :
  0 < u32 (nr_buf_size (tx_rings0 na)) ->
  iov_total (msg_iov m) < 2 ^ 32 ->
  netmap_socket_sendmsg (Some na) m total_len = Some res ->
  (tx_exit res = Tx_no_slots <-> u32 (avail (tx_rings0 na)) < msg_iovlen m)
  /\ (tx_exit res = Tx_out_of_space <->
        msg_iovlen m <= u32 (avail (tx_rings0 na))
          < slots_needed (u32 (nr_buf_size (tx_rings0 na))) (msg_iov m))
  /\ (tx_exit res = Tx_done <->
        msg_iovlen m <= u32 (avail (tx_rings0 na))
        /\ slots_needed (u32 (nr_buf_size (tx_rings0 na))) (msg_iov m)
             <= u32 (avail (tx_rings0 na))).
Proof.
  intros Hcap Htot Hcall. unfold netmap_socket_sendmsg in Hcall.
  change (tx_avail (sendmsg_init na)) with (u32 (avail (tx_rings0 na))) in Hcall.
  destruct (Z.ltb_spec (u32 (avail (tx_rings0 na))) (msg_iovlen m)) as [Hlt|Hge].
  { injection Hcall as <-. cbn [tx_exit].
    repeat split; intros; try discriminate; try lia. }
  destruct (sendmsg_loops_outcome na m Hcap Htot) as [(Hfit & v & E & _)|(Hno & v & E)];
    rewrite E in Hcall; injection Hcall as <-; cbn [tx_exit];
    repeat split; intros; try discriminate; try lia.
Qed.

(** X2.  A call that goes through takes exactly the slots its segments
    need: [avail] drops by the sum, over the segments, of the segment
    length divided by the slot size and rounded up; an empty segment
    takes no slot. *)
Theorem sendmsg_slots_taken na m total_len res na1 :
  0 < u32 (nr_buf_size (tx_rings0 na)) ->
  iov_total (msg_iov m) < 2 ^ 32 ->
  netmap_socket_sendmsg (Some na) m total_len = Some res ->
  tx_exit res = Tx_done ->
  tx_na_out res = Some na1 ->
  avail (tx_rings0 na1) =
    u32 (avail (tx_rings0 na))
    - slots_needed (u32 (nr_buf_size (tx_rings0 na))) (msg_iov m)
  /\ 0 <= avail (tx_rings0 na1).
Proof.
  intros Hcap Htot Hcall Hexit Hout. unfold netmap_socket_sendmsg in Hcall.
  destruct (_ <? _); [injection Hcall as <-; discriminate|].
  destruct (sendmsg_loops_outcome na m Hcap Htot) as [(Hfit & v & E & Hav)|(Hno & v & E)];
    rewrite E in Hcall; injection Hcall as <-; [|discriminate].
  cbn in Hout. injection Hout as <-. cbn. lia.
Qed.

(** ** sendmsg: what a call leaves alone *)

(** As [sendmsg_iov_loop_inv], for properties that need the bound on the
    bytes a slot fill copies: at most the slot size. *)
Lemma sendmsg_frag_loop_inv_cap (P : tx_vars -> Prop) cap seg :
  (forall off n v, P v -> tx_avail v <> 0 -> n <= cap ->
                   P (sendmsg_fill seg off n v)) ->
  forall fuel off size v out,
    P v ->
    sendmsg_frag_loop fuel cap seg off size v = Some out ->
    P (flow_state out).
Proof.
  intros Hstep. induction fuel as [|fuel IH]; intros off size v out HP;
    cbn [sendmsg_frag_loop].
  - destruct (size =? 0); [|discriminate]. intros [= <-]. exact HP.
  - destruct (size =? 0); [intros [= <-]; exact HP|].
    destruct (Z.eqb_spec (tx_avail v) 0) as [E|E]; [intros [= <-]; exact HP|].
    apply IH. apply Hstep; [assumption|assumption|lia].
Qed.

Lemma sendmsg_iov_loop_inv_cap (P : tx_vars -> Prop) cap :
  (forall seg off n v, P v -> tx_avail v <> 0 -> n <= cap ->
                       P (sendmsg_fill seg off n v)) ->
  forall iov v out,
    P v ->
    sendmsg_iov_loop cap iov v = Some out ->
    P (flow_state out).
Proof.
  intros Hstep. induction iov as [|seg iov IH]; intros v out HP; cbn [sendmsg_iov_loop].
  - intros [= <-]. exact HP.
  - destruct (sendmsg_frag_loop _ cap seg 0 _ v) as [[v'|r v']|] eqn:E.
    + apply IH.
      exact (sendmsg_frag_loop_inv_cap P cap seg (Hstep seg) _ _ _ _ _ HP E).
    + intros [= <-].
      exact (sendmsg_frag_loop_inv_cap P cap seg (Hstep seg) _ _ _ _ _ HP E).
    + discriminate.
Qed.

(** The adapter a call leaves is the one its loops leave, published or
    not. *)
Lemma sendmsg_call_cases na m total_len res na1 :
  netmap_socket_sendmsg (Some na) m total_len = Some res ->
  tx_na_out res = Some na1 ->
  na1 = na
  \/ exists out,
       sendmsg_iov_loop (u32 (nr_buf_size (tx_rings0 na))) (msg_iov m)
         (sendmsg_init na) = Some out
       /\ (na1 = tx_na (flow_state out) \/ na1 = sendmsg_publish (flow_state out)).
Proof.
  intros Hcall Hout. unfold netmap_socket_sendmsg in Hcall.
  destruct (_ <? _).
  { injection Hcall as <-. cbn in Hout. left. congruence. }
  destruct (sendmsg_iov_loop _ _ _) as [[v|r0 v]|] eqn:E; [| |discriminate];
    injection Hcall as <-; cbn in Hout; injection Hout as <-;
    right; eexists; (split; [reflexivity|]); cbn [flow_state]; auto.
Qed.

Lemma alter_dom (f : list byte -> list byte) (mem : gmap Z (list byte)) k p :
  is_Some (alter f k mem !! p) <-> is_Some (mem !! p).
Proof.
  destruct (decide (k = p)) as [->|Hne].
  - rewrite lookup_alter_eq. apply fmap_is_Some.
  - rewrite lookup_alter_ne by assumption. reflexivity.
Qed.

Lemma sendmsg_fill_geometry na seg off n v :
  same_geometry na (tx_na v) -> same_geometry na (tx_na (sendmsg_fill seg off n v)).
Proof.
  intros (Hn & Hb & Hi & Hr & Hd).
  destruct (sendmsg_fill_ring_fields seg off n v) as (_ & _ & Hn' & Hb' & _ & Hr').
  cbv zeta in *. unfold same_geometry.
  rewrite Hn', Hb', Hr', sendmsg_fill_buf_idx.
  repeat split; try assumption.
  - intros H. apply Hd.
    cbn [sendmsg_fill tx_na copy_from_user set_nm_mem set_tx_ring nm_mem] in H.
    apply alter_dom in H. exact H.
  - intros H. apply Hd in H. apply sendmsg_fill_mem_dom. exact H.
Qed.

Lemma sendmsg_publish_geometry na v :
  same_geometry na (tx_na v) -> same_geometry na (sendmsg_publish v).
Proof.
  intros (Hn & Hb & Hi & Hr & Hd). unfold same_geometry, sendmsg_publish.
  cbn. rewrite alter_keeps_buf_idx by reflexivity. auto.
Qed.

(** X3.  Whatever its outcome, a call of [netmap_socket_sendmsg] returns
    and leaves the shape of the adapter alone: the number of slots and
    the slot size, the buffer each slot refers to, the set of buffers in
    memory, and the whole RX ring. *)
Theorem sendmsg_keeps_geometry na m total_len :
  exists res na1,
    netmap_socket_sendmsg (Some na) m total_len = Some res
    /\ tx_na_out res = Some na1
    /\ num_slots (tx_rings0 na1) = num_slots (tx_rings0 na)
    /\ nr_buf_size (tx_rings0 na1) = nr_buf_size (tx_rings0 na)
    /\ buf_idx <$> slot (tx_rings0 na1) = buf_idx <$> slot (tx_rings0 na)
    /\ rx_rings0 na1 = rx_rings0 na
    /\ forall p, is_Some (nm_mem na1 !! p) <-> is_Some (nm_mem na !! p).
Proof.
  destruct (netmap_socket_sendmsg_total (Some na) m total_len) as [res Hres].
  assert (Hsome : exists na1, tx_na_out res = Some na1).
  { unfold netmap_socket_sendmsg in Hres.
    destruct (_ <? _); [injection Hres as <-; cbn; eauto|].
    destruct (sendmsg_iov_loop _ _ _) as [[v|r0 v]|]; [| |discriminate];
      injection Hres as <-; cbn; eauto. }
  destruct Hsome as [na1 Hout]. exists res, na1.
  split; [exact Hres|]. split; [exact Hout|].
  assert (H0 : same_geometry na na) by (unfold same_geometry; auto 10).
  destruct (sendmsg_call_cases _ _ _ _ _ Hres Hout) as [->|(out & E & Hna1)];
    [exact H0|].
  assert (Hg : same_geometry na (tx_na (flow_state out))).
  { revert E. apply (sendmsg_iov_loop_inv (fun v => same_geometry na (tx_na v))).
    - intros seg off n v Hv _. apply sendmsg_fill_geometry. exact Hv.
    - exact H0. }
  destruct Hna1 as [-> | ->]; [exact Hg|].
  apply sendmsg_publish_geometry. exact Hg.
Qed.

Lemma splice_front_bounded (b bs : list byte) (c : nat) :
  (length bs <= c)%nat -> (c <= length b)%nat ->
  length (splice b 0 bs) = length b
  /\ drop c (splice b 0 bs) = drop c b.
Proof.
  intros Hbs Hc. unfold splice. rewrite take_0. cbn [Nat.add app].
  split.
  - rewrite length_app, length_drop. lia.
  - rewrite drop_app_ge by exact Hbs. rewrite drop_drop. f_equal. lia.
Qed.

Lemma sendmsg_fill_bounded cap na seg off n v :
  (forall p b, nm_mem na !! p = Some b -> cap <= Z.of_nat (length b)) ->
  n <= cap ->
  bufs_bounded cap na (tx_na v) ->
  bufs_bounded cap na (tx_na (sendmsg_fill seg off n v)).
Proof.
  intros Hroom Hn Hv p b Hp. destruct (Hv p b Hp) as (b' & Hb' & Hl & Hd).
  cbn [sendmsg_fill tx_na copy_from_user set_nm_mem set_tx_ring nm_mem].
  set (dst := BDG_NMB _ _).
  destruct (decide (dst = p)) as [->|Hne].
  - rewrite lookup_alter_eq, Hb'. cbn. eexists. split; [reflexivity|].
    pose proof (Hroom p b Hp) as Hr.
    destruct (splice_front_bounded b'
                (take (Z.to_nat n) (drop (Z.to_nat off) seg)) (Z.to_nat cap))
      as [E1 E2].
    + rewrite length_take. lia.
    + lia.
    + rewrite E1, E2. auto.
  - rewrite lookup_alter_ne by assumption. eauto.
Qed.

(** X4.  A call of [netmap_socket_sendmsg] never writes past the slot
    size into a netmap buffer: when every buffer has room for
    [nr_buf_size] bytes, every buffer keeps its length and the bytes it
    holds from offset [nr_buf_size] on, whatever the outcome of the
    call. *)
Theorem sendmsg_buffer_bounds na m total_len res na1 p b :
  (forall q c, nm_mem na !! q = Some c ->
               u32 (nr_buf_size (tx_rings0 na)) <= Z.of_nat (length c)) ->
  netmap_socket_sendmsg (Some na) m total_len = Some res ->
  tx_na_out res = Some na1 ->
  nm_mem na !! p = Some b ->
  exists b',
    nm_mem na1 !! p = Some b'
    /\ length b' = length b
    /\ drop (Z.to_nat (u32 (nr_buf_size (tx_rings0 na)))) b'
       = drop (Z.to_nat (u32 (nr_buf_size (tx_rings0 na)))) b.
Proof.
  intros Hroom Hres Hout Hp.
  set (cap := u32 (nr_buf_size (tx_rings0 na))) in *.
  assert (H0 : bufs_bounded cap na na) by (intros q c Hq; eauto).
  enough (Hb : bufs_bounded cap na na1) by exact (Hb p b Hp).
  destruct (sendmsg_call_cases _ _ _ _ _ Hres Hout) as [->|(out & E & Hna1)];
    [exact H0|].
  assert (Hg : bufs_bounded cap na (tx_na (flow_state out))).
  { revert E. fold cap.
    apply (sendmsg_iov_loop_inv_cap (fun v => bufs_bounded cap na (tx_na v))).
    - intros seg off n v Hv _ Hn. apply sendmsg_fill_bounded; assumption.
    - exact H0. }
  destruct Hna1 as [-> | ->]; exact Hg.
Qed.

Lemma sendmsg_init_flagged na :
  ring_wf (tx_rings0 na) -> tx_flagged na 0 (sendmsg_init na).
Proof.
  intros ((Ha & Hc) & Hlen & Hn).
  unfold tx_flagged, tx_progress. cbn.
  pose proof (u32_range (avail (tx_rings0 na))).
  rewrite Z.sub_0_r.
  repeat split; try lia.
  - apply slot_flags_init_morefrag.
  - apply u32_id. lia.
Qed.

Lemma sendmsg_fill_outside na k j seg off n v :
  ring_wf (tx_rings0 na) ->
  NoDup (buf_idx <$> slot (tx_rings0 na)) ->
  0 <= j < num_slots (tx_rings0 na) ->
  ~ in_window (tx_rings0 na) j ->
  tx_flagged na k v -> tx_avail v <> 0 ->
  tx_outside na j v ->
  tx_outside na j (sendmsg_fill seg off n v).
Proof.
  intros ((Ha & Hc) & Hlen & Hn) Hnd Hj Hout (Hp & Hl & _) Hne (Hb & Hs & Hm).
  assert (Euc : u32 (cur (tx_rings0 na)) = cur (tx_rings0 na)) by (apply u32_id; lia).
  assert (Eua : u32 (avail (tx_rings0 na)) = avail (tx_rings0 na)) by (apply u32_id; lia).
  destruct Hp as (Pn & Pi & Pa & P0). rewrite Euc in Pi. rewrite Eua in Pa.
  pose proof (ring_steps_bound _ k _ Hc) as Hbd. rewrite <- Pi in Hbd.
  assert (Hij : j <> tx_i v).
  { intros ->. apply Hout. exists k. split; [lia|exact Pi]. }
  unfold tx_outside. rewrite sendmsg_fill_buf_idx.
  split; [exact Hb|]. split.
  - rewrite sendmsg_fill_slot_other by lia. exact Hs.
  - rewrite sendmsg_fill_buf_other; [exact Hm|].
    rewrite (slot_at_buf_idx _ _ (tx_i v) Hb).
    apply slot_at_buf_distinct; try assumption; lia.
Qed.

(** X5.  On a well-formed ring whose slots have buffers of their own, a
    call of [netmap_socket_sendmsg] touches only what the ring offers:
    a slot outside the [avail] slots from [cur] on, other than the slot
    at [cur] itself, keeps its length and flags, and its buffer keeps
    its bytes, whatever the outcome of the call. *)
Theorem sendmsg_frame na m total_len res na1 j :
  ring_wf (tx_rings0 na) ->
  bufs_wf na (tx_rings0 na) ->
  netmap_socket_sendmsg (Some na) m total_len = Some res ->
  tx_na_out res = Some na1 ->
  0 <= j < num_slots (tx_rings0 na) ->
  j <> cur (tx_rings0 na) ->
  ~ in_window (tx_rings0 na) j ->
  slot_at (tx_rings0 na1) j = slot_at (tx_rings0 na) j
  /\ nm_buf na1 (buf_idx (slot_at (tx_rings0 na) j))
     = nm_buf na (buf_idx (slot_at (tx_rings0 na) j)).
Proof.
  intros Hwf [Hnd _] Hres Hout Hj Hcur Hwin.
  destruct (sendmsg_call_cases _ _ _ _ _ Hres Hout) as [->|(out & E & Hna1)];
    [split; reflexivity|].
  assert (Hinv : (exists k, tx_flagged na k (flow_state out))
                 /\ tx_outside na j (flow_state out)).
  { revert E.
    apply (sendmsg_iov_loop_inv
             (fun v => (exists k, tx_flagged na k v) /\ tx_outside na j v)).
    - intros seg off n v [[k Hk] Ho] Hne. split.
      + exists (S k). apply sendmsg_fill_flagged; assumption.
      + apply (sendmsg_fill_outside na k); assumption.
    - split; [exists O; apply sendmsg_init_flagged; exact Hwf|].
      unfold tx_outside. auto. }
  destruct Hinv as [[k Hk] (Hb & Hs & Hm)].
  destruct Hna1 as [-> | ->]; [split; assumption|].
  split; [|exact Hm].
  cbn [sendmsg_publish set_tx_ring tx_rings0]. rewrite slot_at_set_cur_avail.
  destruct Hwf as ((Ha & Hc) & Hlen & Hn).
  assert (Eua : u32 (avail (tx_rings0 na)) = avail (tx_rings0 na)) by (apply u32_id; lia).
  destruct Hk as ((Pn & Pi & Pa & P0) & Hl & _ & Hlast & _). rewrite Eua in Pa.
  pose proof (ring_steps_bound _ (pred k) _ Hc) as Hbd. rewrite <- Hlast in Hbd.
  rewrite slot_at_upd_other; [exact Hs|lia|lia|].
  intros El. destruct k as [|k].
  - cbn in Hlast. congruence.
  - apply Hwin. exists k. split; [lia|]. cbn [pred] in Hlast. congruence.
Qed.

(** An iovec without a byte runs through the loops without a slot
    fill. *)
Lemma sendmsg_iov_loop_empty cap : forall iov v,
  iov_total iov = 0 ->
  sendmsg_iov_loop cap iov v = Some (Next v).
Proof.
  induction iov as [|seg iov IH]; intros v Htot; cbn [sendmsg_iov_loop];
    [reflexivity|].
  unfold iov_total in Htot. cbn [concat] in Htot. rewrite length_app in Htot.
  assert (Hs : iov_len seg = 0) by (unfold iov_len; lia).
  rewrite Hs. cbn [sendmsg_frag_loop]. change (u32 0 =? 0) with true. cbn iota.
  apply IH. unfold iov_total. lia.
Qed.

(** X6.  A message without a byte (no segment, or empty segments only),
    on a ring with at least as many slots as segments, goes through: the
    call returns [total_len], takes no slot and still calls [nm_txsync]
    once; it changes one thing in the ring, the [NS_MOREFRAG] flag of
    the slot at [cur], which it clears. *)
Theorem sendmsg_empty_message na m total_len :
  iov_total (msg_iov m) = 0 ->
  msg_iovlen m <= u32 (avail (tx_rings0 na)) ->
  exists res na1,
    netmap_socket_sendmsg (Some na) m total_len = Some res
    /\ tx_exit res = Tx_done
    /\ tx_ret res = s32 total_len
    /\ tx_na_out res = Some na1
    /\ tx_trace res = [Ev_nm_txsync na1 0 0]
    /\ cur (tx_rings0 na1) = u32 (cur (tx_rings0 na))
    /\ avail (tx_rings0 na1) = u32 (avail (tx_rings0 na))
    /\ slot (tx_rings0 na1)
       = alter clear_morefrag (Z.to_nat (u32 (cur (tx_rings0 na))))
           (slot (tx_rings0 na))
    /\ nm_mem na1 = nm_mem na.
Proof.
  intros Htot Hcnt. unfold netmap_socket_sendmsg.
  change (tx_avail (sendmsg_init na)) with (u32 (avail (tx_rings0 na))).
  destruct (Z.ltb_spec (u32 (avail (tx_rings0 na))) (msg_iovlen m)) as [Hlt|_]; [lia|].
  rewrite sendmsg_iov_loop_empty by exact Htot.
  eexists _, _. repeat split.
Qed.

(** ** recvmsg: the destination *)

(** X7.  A call of [netmap_socket_recvmsg] on an adapter never overruns
    the caller's buffers: with at least one segment and at most
    [INT_MAX] bytes of room, the value returned lies between 0 and the
    room of the iovec, and every segment keeps its length, whatever the
    ring holds and whatever [total_len] asks for. *)
Theorem recvmsg_within_buffers na m total_len fl res :
  0 < msg_iovlen m < 2 ^ 32 ->
  iov_total (msg_iov m) <= INT_MAX ->
  netmap_socket_recvmsg (Some na) m total_len fl = Some res ->
  0 <= rx_ret res <= iov_total (msg_iov m)
  /\ length <$> msg_iov (rx_msg_out res) = length <$> msg_iov m.
Proof.
  intros [Hne Hcnt] Hmax Hres.
  assert (Htot : iov_total (msg_iov m) < 2 ^ 32) by (unfold INT_MAX in Hmax; lia).
  assert (Hpos : 0 <= iov_total (msg_iov m)) by (unfold iov_total; lia).
  destruct (Z.eq_dec (u32 (avail (rx_rings0 na))) 0) as [E0|Hav].
  { unfold netmap_socket_recvmsg in Hres. rewrite E0 in Hres. cbn in Hres.
    injection Hres as <-. cbn. split; [lia|reflexivity]. }
  destruct (recvmsg_call_loop na m total_len fl Hcnt Hav) as (e & v & El & Hcall).
  rewrite Hcall in Hres. injection Hres as <-. cbn [rx_ret rx_msg_out msg_iov].
  assert (Hfin : 0 <= rx_copied v <= iov_total (msg_iov m)
                 /\ length <$> rx_umem v = length <$> msg_iov m).
  { assert (Hd2 : forall w, rx_dest m w ->
              0 <= rx_copied w <= iov_total (msg_iov m)
              /\ length <$> rx_umem w = length <$> msg_iov m).
    { intros w (Hl & _ & Hj & Ho & Hs & Hsum & Hc & _).
      pose proof (iov_prefix_le (msg_iov m) (rx_j w) ltac:(lia)).
      assert (0 <= iov_prefix (msg_iov m) (rx_j w))
        by (unfold iov_prefix, iov_total; lia).
      split; [lia|exact Hl]. }
    destruct (recvmsg_loop_reaches na m total_len _ _ _ _ (reaches_init _ _ _) El)
      as [(_ & Hr & _)|(v0 & Hr & _ & E)].
    - apply Hd2. exact (recvmsg_reaches_dest _ _ _ _ Hcnt Hne Htot Hr).
    - pose proof (recvmsg_reaches_dest _ _ _ _ Hcnt Hne Htot Hr) as Hd.
      pose proof (recvmsg_body_dest na m v0 Hcnt Htot Hd) as Hb. rewrite E in Hb.
      destruct e; [apply Hd2; exact Hb|apply Hd2; exact Hb|].
      destruct Hb as (Hc & _ & Hl). split; [lia|exact Hl]. }
  destruct Hfin as [Hc Hl]. split; [|exact Hl].
  rewrite s32_id by (unfold INT_MAX in *; lia). exact Hc.
Qed.

(** ** Mitigation: two expiries in a row *)

(** X8.  A timer expiry with work pending followed by an expiry with no
    arrival in between: the first restarts the timer, the second finds
    nothing pending and lets it stop.  Together they raise one
    notification when the interface has [IFCAP_NETMAP] enabled (none
    otherwise), forward the timer once, and leave the pending flag clear
    and the timer off the queue. *)
Theorem mit_expiry_then_idle gna :
  mit_pending gna <> 0 ->
  let first := mit_timer_expiry gna in
  let second := mit_timer_expiry first.1 in
  mit_timer_active first.1 = true
  /\ second.2 = []
  /\ mit_pending second.1 = 0
  /\ mit_timer_active second.1 = false
  /\ if_capenable second.1 = if_capenable gna
  /\ notifications (first.2 ++ second.2) =
       (if Z.land (if_capenable gna) IFCAP_NETMAP =? 0 then 0%nat else 1%nat)
  /\ List.filter (fun e => negb (is_notification e)) (first.2 ++ second.2)
     = [Ev_hrtimer_forward_now netmap_generic_mit].
Proof.
  intros H first second. subst second first. unfold mit_timer_expiry.
  rewrite (generic_timer_handler_pending gna H). cbn [fst snd].
  rewrite generic_timer_handler_idle by reflexivity. cbn [fst snd].
  rewrite app_nil_r.
  destruct (Z.land (if_capenable gna) IFCAP_NETMAP =? 0); cbn; auto 10.
Qed.

End SocketPaths.

(** * Generic adapter support *)

Lemma steering_enable_eq generic_ndo enable st ops :
  enable <> 0 ->
  ops_mem st !! netdev_ops st = Some ops ->
  netmap_catch_packet_steering generic_ndo enable st =
    Some {| netdev_ops := generic_ndo;
            if_transmit := netdev_ops st;
            ops_mem := alter (set_ndo_select_queue Select_generic) generic_ndo
                         (<[generic_ndo := ops]> (ops_mem st)) |}.
Proof.
  intros He Hops. unfold netmap_catch_packet_steering.
  destruct (Z.eqb_spec enable 0) as [|_]; [contradiction|].
  rewrite Hops. reflexivity.
Qed.

(** X9.  Packet steering is undone by disabling it: from a device that
    uses a table of its driver, enabling makes the device use
    [gna->generic_ndo], a copy of that table with
    [generic_ndo_select_queue] for the queue selection, and disabling
    then puts the pointer to the driver's table back, the table itself
    never having changed. *)
Theorem steering_enable_disable generic_ndo enable st ops :
  enable <> 0 ->
  ops_mem st !! netdev_ops st = Some ops ->
  netdev_ops st <> generic_ndo ->
  exists on off,
    netmap_catch_packet_steering generic_ndo enable st = Some on
    /\ netdev_ops on = generic_ndo
    /\ ops_mem on !! netdev_ops on = Some (set_ndo_select_queue Select_generic ops)
    /\ netmap_catch_packet_steering generic_ndo 0 on = Some off
    /\ netdev_ops off = netdev_ops st
    /\ ops_mem off !! netdev_ops off = Some ops.
Proof.
  intros He Hops Hne.
  eexists _, _. split; [apply steering_enable_eq; eassumption|].
  cbn [netdev_ops ops_mem if_transmit].
  split; [reflexivity|].
  split; [rewrite lookup_alter_eq, lookup_insert_eq; reflexivity|].
  split; [reflexivity|]. cbn [netdev_ops ops_mem if_transmit].
  split; [reflexivity|].
  rewrite lookup_alter_ne, lookup_insert_ne by congruence. exact Hops.
Qed.

(** X10.  Enabling packet steering twice loses the driver's table: the
    second call saves a pointer to [gna->generic_ndo] itself in
    [na->if_transmit], so the disabling that follows leaves the device
    on [gna->generic_ndo], with [generic_ndo_select_queue] still
    selecting the queue. *)
Theorem steering_enable_twice generic_ndo e1 e2 st ops :
  e1 <> 0 -> e2 <> 0 ->
  ops_mem st !! netdev_ops st = Some ops ->
  exists on1 on2 off,
    netmap_catch_packet_steering generic_ndo e1 st = Some on1
    /\ netmap_catch_packet_steering generic_ndo e2 on1 = Some on2
    /\ netmap_catch_packet_steering generic_ndo 0 on2 = Some off
    /\ netdev_ops off = generic_ndo
    /\ select_queue_in_use off = Some Select_generic.
Proof.
  intros H1 H2 Hops.
  eexists _, _, _. split; [apply steering_enable_eq; eassumption|].
  split.
  { apply steering_enable_eq; [exact H2|].
    cbn [netdev_ops ops_mem]. rewrite lookup_alter_eq, lookup_insert_eq.
    reflexivity. }
  split; [reflexivity|]. cbn [netdev_ops ops_mem if_transmit].
  split; [reflexivity|].
  unfold select_queue_in_use. cbn [netdev_ops ops_mem if_transmit].
  rewrite lookup_alter_eq, lookup_insert_eq. reflexivity.
Qed.

(** X11.  On an skb with room for [len] bytes, [generic_xmit_frame]
    hands the device a frame made of the first [len] bytes of the netmap
    buffer, whatever the skb held before, bound to the interface, with
    one more user, and mapped to queue [ring_nr], which is the queue
    [generic_ndo_select_queue] then selects for it.  The function
    returns 0 exactly when the device layer answers [NET_XMIT_SUCCESS]
    and -1 otherwise, and it logs a hard error for every answer that is
    neither success nor [NET_XMIT_DROP]. *)
Theorem generic_xmit_frame_spec dev_queue_xmit ifp m addr len ring_nr :
  0 <= len <= Z.of_nat (length addr) ->
  len <= Z.of_nat (length (skb_buf m)) ->
  0 <= skb_len m ->
  0 <= ring_nr < 2 ^ 16 ->
  exists r m' tr,
    generic_xmit_frame dev_queue_xmit ifp m addr len ring_nr = Some (r, m', tr)
    /\ skb_frame m' = take (Z.to_nat len) addr
    /\ Z.of_nat (length (skb_frame m')) = len
    /\ dev m' = ifp
    /\ users m' = users m + 1
    /\ generic_ndo_select_queue ifp m' = ring_nr
    /\ head tr = Some (Ev_dev_queue_xmit m')
    /\ (r = 0 <-> dev_queue_xmit m' = NET_XMIT_SUCCESS)
    /\ (r = 0 \/ r = -1)
    /\ (In (Ev_RD_hard_error (dev_queue_xmit m')) tr <->
          dev_queue_xmit m' <> NET_XMIT_SUCCESS
          /\ dev_queue_xmit m' <> NET_XMIT_DROP).
Proof.
  intros Hlen Hroom Hpos Hq. unfold generic_xmit_frame.
  assert (Htrim : skb_trim m 0 = set_skb_len 0 m).
  { unfold skb_trim. destruct (Z.ltb_spec 0 (skb_len m)) as [_|Hz]; [reflexivity|].
    destruct m as [b l u d p q]. cbn in *. unfold set_skb_len. cbn.
    f_equal. lia. }
  rewrite Htrim. unfold skb_copy_to_linear_data. cbn [set_skb_len skb_buf].
  destruct (Z.ltb_spec (Z.of_nat (length addr)) len) as [|_]; [lia|].
  destruct (Z.ltb_spec (Z.of_nat (length (skb_buf m))) len) as [|_]; [lia|].
  cbn [orb]. unfold skb_put. cbn [set_skb_buf set_skb_len skb_buf skb_len].
  assert (Hsp : length (splice (skb_buf m) 0 (take (Z.to_nat len) addr))
                = length (skb_buf m)).
  { apply (splice_front_bounded _ _ (Z.to_nat len)); [rewrite length_take|]; lia. }
  rewrite Hsp.
  destruct (Z.ltb_spec (Z.of_nat (length (skb_buf m))) (0 + len)) as [|_]; [lia|].
  cbn [set_skb_len set_skb_buf skb_buf skb_len users queue_mapping].
  set (m' := skb_set_queue_mapping _ ring_nr).
  assert (Hd : skb_frame m' = take (Z.to_nat len) addr).
  { unfold skb_frame. cbn [m' skb_set_queue_mapping skb_len skb_buf].
    rewrite Z.add_0_l.
    pose proof (take_splice (skb_buf m) 0 (take (Z.to_nat len) addr) ltac:(lia)) as Ht.
    rewrite length_take, take_0 in Ht. cbn [Nat.add app] in Ht.
    rewrite Nat.min_l in Ht by lia. exact Ht. }
  assert (Hl : Z.of_nat (length (skb_frame m')) = len).
  { rewrite Hd, length_take. lia. }
  assert (Hsel : generic_ndo_select_queue ifp m' = ring_nr).
  { cbn. unfold u16. apply Z.mod_small. exact Hq. }
  destruct (Z.eqb_spec (dev_queue_xmit m') NET_XMIT_SUCCESS) as [Es|Es].
  - exists 0, m', [Ev_dev_queue_xmit m']. rewrite <- Es.
    split; [reflexivity|]. do 5 (split; [assumption || reflexivity|]).
    split; [reflexivity|]. split; [tauto|]. split; [auto|].
    split; [intros [?|[]]; discriminate|tauto].
  - destruct (Z.eqb_spec (dev_queue_xmit m') NET_XMIT_DROP) as [Ed|Ed]; cbn [negb].
    + exists (-1), m', [Ev_dev_queue_xmit m'].
      split; [reflexivity|]. do 5 (split; [assumption || reflexivity|]).
      split; [reflexivity|]. split; [split; [discriminate|tauto]|]. split; [auto|].
      split; [intros [?|[]]; discriminate|tauto].
    + exists (-1), m', [Ev_dev_queue_xmit m'; Ev_RD_hard_error (dev_queue_xmit m')].
      split; [reflexivity|]. do 5 (split; [assumption || reflexivity|]).
      split; [reflexivity|]. split; [split; [discriminate|tauto]|]. split; [auto|].
      split; [tauto|]. intros _. right. left. reflexivity.
Qed.

(** * Socket support: write space and life cycle *)

Lemma write_space_writeable f q :
  netmap_sock_write_space
    {| sock_writeable := true; sk_socket_flags := f; sk_sleep := q |}
  = ({| sock_writeable := true;
        sk_socket_flags := Z.clearbit f SOCK_ASYNC_NOSPACE;
        sk_sleep := q |},
     if Z.testbit f SOCK_ASYNC_NOSPACE
        && match q with Some (_ :: _) => true | _ => false end
     then [Ev_wake_up_interruptible_poll
             (Z.lor (Z.lor POLLOUT POLLWRNORM) POLLWRBAND)]
     else []).
Proof.
  unfold netmap_sock_write_space.
  cbn [sock_writeable sk_socket_flags sk_sleep negb].
  destruct (Z.testbit f SOCK_ASYNC_NOSPACE); cbn [negb andb]; [|reflexivity].
  destruct q as [[|w q]|]; reflexivity.
Qed.

Lemma clearbit_twice f n : Z.clearbit (Z.clearbit f n) n = Z.clearbit f n.
Proof.
  apply Z.bits_inj'. intros k Hk.
  destruct (Z.eq_dec k n) as [->|Hne].
  - rewrite !Z.clearbit_eq. reflexivity.
  - rewrite !Z.clearbit_neq by congruence. reflexivity.
Qed.

(** X12.  [netmap_sock_write_space] wakes the writers up at most once
    per [SOCK_ASYNC_NOSPACE] request: it wakes them exactly when the
    socket is writeable, the flag was set and the wait queue has a
    waiter; it leaves the flag alone while the socket is not writeable,
    and a second call right after the first never wakes anybody and
    changes nothing. *)
Theorem write_space_once sk :
  (snd (netmap_sock_write_space sk) <> [] <->
     sock_writeable sk = true
     /\ Z.testbit (sk_socket_flags sk) SOCK_ASYNC_NOSPACE = true
     /\ exists q, sk_sleep sk = Some q /\ q <> [])
  /\ (length (snd (netmap_sock_write_space sk)) <= 1)%nat
  /\ (sock_writeable sk = false -> netmap_sock_write_space sk = (sk, []))
  /\ netmap_sock_write_space (fst (netmap_sock_write_space sk))
     = (fst (netmap_sock_write_space sk), []).
Proof.
  destruct sk as [w f q]. destruct w.
  2:{ unfold netmap_sock_write_space.
      cbn [sock_writeable negb fst snd length].
      split; [|auto]. split; [intros H; contradiction|].
      intros (H & _). discriminate. }
  rewrite write_space_writeable.
  cbn [fst snd sock_writeable sk_socket_flags sk_sleep].
  split; [|split; [|split; [discriminate|]]].
  - destruct (Z.testbit f SOCK_ASYNC_NOSPACE); cbn [andb].
    + destruct q as [[|w q]|].
      * split; [intros H; contradiction|].
        intros (_ & _ & q' & [= <-] & Hq). contradiction.
      * split; [|discriminate]. intros _. split; [reflexivity|].
        split; [reflexivity|]. eexists. split; [reflexivity|discriminate].
      * split; [intros H; contradiction|].
        intros (_ & _ & q' & Hq' & _). discriminate.
    + split; [intros H; contradiction|]. intros (_ & H & _). discriminate.
  - destruct (_ && _); cbn; lia.
  - rewrite write_space_writeable, clearbit_twice, Z.clearbit_eq. reflexivity.
Qed.

Lemma adapter_sock_eta a :
  {| na_private := na_private a; nm_dtor := nm_dtor a |} = a.
Proof. destruct a. reflexivity. Qed.

(** What a successful set-up installs. *)
Lemma sock_setup_success sk_alloc_ok skb current na filp a a1 s tr :
  netmap_sock_setup sk_alloc_ok skb current na filp a = (a1, Some s, tr) ->
  na_private a1 = Some s
  /\ nm_dtor a1 = Some Dtor_netmap_socket
  /\ owner s = current
  /\ sock_file s = filp
  /\ nm_sock_na s = na
  /\ saved_nm_dtor s = nm_dtor a
  /\ length (sk_receive_queue s) = 1%nat.
Proof.
  intros Hsetup. unfold netmap_sock_setup in Hsetup.
  destruct sk_alloc_ok; cbn [negb] in Hsetup; [|discriminate].
  destruct skb as [b|]; [|discriminate].
  injection Hsetup as <- <- <-. cbn. auto 10.
Qed.

(** X13.  Setting a socket up and tearing it down is a round trip on the
    adapter: a successful [netmap_sock_setup] on an adapter without a
    socket installs the socket for the calling task and
    [netmap_socket_nm_dtor] as destructor, [netmap_sock_teardown] then
    gives the adapter back as it was, and a second tear-down does
    nothing. *)
Theorem sock_setup_teardown sk_alloc_ok skb current na filp a a1 s tr :
  na_private a = None ->
  netmap_sock_setup sk_alloc_ok skb current na filp a = (a1, Some s, tr) ->
  na_private a1 = Some s
  /\ owner s = current
  /\ sock_file s = filp
  /\ length (sk_receive_queue s) = 1%nat
  /\ nm_dtor a1 = Some Dtor_netmap_socket
  /\ netmap_sock_teardown a1 = (a, teardown_events)
  /\ netmap_sock_teardown a = (a, []).
Proof.
  intros Hnone Hsetup. unfold netmap_sock_setup in Hsetup.
  destruct sk_alloc_ok; cbn [negb] in Hsetup; [|discriminate].
  destruct skb as [b|]; [|discriminate].
  injection Hsetup as <- <- <-. cbn.
  repeat split.
  - unfold netmap_sock_teardown. cbn. destruct a as [p d]. cbn in *. subst p.
    reflexivity.
  - unfold netmap_sock_teardown. rewrite Hnone. reflexivity.
Qed.

(** X14.  On an adapter whose destructor pointer is
    [netmap_socket_nm_dtor] exactly while it has a socket,
    [netmap_socket_nm_dtor] returns without calling itself: it tears the
    socket down if there is one, calls the saved destructor once if
    there is one, and leaves the adapter without a socket and with the
    saved destructor in place. *)
Theorem socket_dtor_spec fuel a :
  sock_inv a ->
  exists a' tr,
    netmap_socket_nm_dtor fuel a = Some (a', tr)
    /\ a' = fst (netmap_sock_teardown a)
    /\ na_private a' = None
    /\ sock_inv a'
    /\ tr = snd (netmap_sock_teardown a)
            ++ match nm_dtor a' with
               | Some (Dtor_other f) => [Ev_nm_dtor f]
               | _ => []
               end.
Proof.
  intros Hinv. unfold sock_inv in Hinv.
  destruct a as [[s|] d]; cbn [na_private nm_dtor] in Hinv.
  - destruct Hinv as [-> Hs].
    destruct fuel; cbn [netmap_socket_nm_dtor netmap_sock_teardown na_private nm_dtor];
      destruct (saved_nm_dtor s) as [[|f]|] eqn:E; try contradiction;
      eexists _, _; (split; [reflexivity|]); cbn; rewrite ?E, ?app_nil_r;
      unfold sock_inv; cbn; rewrite ?E; repeat split; congruence.
  - destruct fuel; cbn [netmap_socket_nm_dtor netmap_sock_teardown na_private nm_dtor];
      destruct d as [[|f]|]; try contradiction;
      eexists _, _; (split; [reflexivity|]); cbn;
      unfold sock_inv; cbn; repeat split; congruence.
Qed.

Section FileOperationsProofs.
Variable NETMAP_OWNED_BY_KERN : netmap_adapter_sock -> bool.

(** What a call that reaches the adapter has found on its way. *)
Lemma get_netmap_socket_path sk_alloc_ok skb current fd k p k' tr :
  get_netmap_socket NETMAP_OWNED_BY_KERN sk_alloc_ok skb current fd k
    = Some (p, k', tr) ->
  tr <> [] ->
  exists filp f,
    fdtable k !! fd = Some filp
    /\ filemem k !! filp = Some f
    /\ f_op f = Fops_netmap
    /\ fdtable k' = fdtable k
    /\ filemem k' = <[filp := {| f_op := f_op f; private_data := private_data f;
                                 f_count := f_count f + 1 |}]> (filemem k)
    /\ exists priv, private_data f = Some priv
    /\ ((np_na priv = None /\ p = ERR_PTR EBADF /\ adapters k' = adapters k
         /\ tr = [Ev_NMG_LOCK; Ev_NMG_UNLOCK])
        \/ exists na a,
             np_na priv = Some na /\ adapters k !! na = Some a
             /\ ((NETMAP_OWNED_BY_KERN a
                  && match na_private a with
                     | None => true
                     | Some s => negb (owner s =? current)
                     end = true
                  /\ p = ERR_PTR EBUSY /\ adapters k' = adapters k
                  /\ tr = [Ev_NMG_LOCK; Ev_NMG_UNLOCK])
                 \/ (NETMAP_OWNED_BY_KERN a
                     && match na_private a with
                        | None => true
                        | Some s => negb (owner s =? current)
                        end = false
                     /\ ((exists s, na_private a = Some s
                                    /\ p = Socket_of na /\ adapters k' = adapters k
                                    /\ tr = [Ev_NMG_LOCK; Ev_NMG_UNLOCK])
                         \/ (na_private a = None
                             /\ exists a1 r tr1,
                                  netmap_sock_setup sk_alloc_ok skb current na filp a
                                    = (a1, r, tr1)
                                  /\ p = match r with
                                         | Some _ => Socket_of na
                                         | None => ERR_PTR ENOMEM
                                         end
                                  /\ adapters k' = <[na := a1]> (adapters k)
                                  /\ tr = [Ev_NMG_LOCK] ++ tr1 ++ [Ev_NMG_UNLOCK]))))).
Proof.
  intros Hcall Htr. unfold get_netmap_socket, fget in Hcall.
  destruct (fdtable k !! fd) as [filp|] eqn:Efd; [|simplify_eq; contradiction].
  destruct (filemem k !! filp) as [f|] eqn:Ef; [|discriminate].
  cbn [f_op private_data adapters] in Hcall.
  destruct (f_op f) eqn:Eop; [|simplify_eq; contradiction].
  destruct (private_data f) as [priv|] eqn:Epriv; [|simplify_eq; contradiction].
  exists filp, f.
  destruct (np_na priv) as [na|] eqn:Ena.
  2:{ simplify_eq. cbn. do 5 (split; [first [reflexivity|eassumption|rewrite ?Eop, ?Epriv; reflexivity]|]).
      exists priv. split; [assumption|]. left. auto. }
  destruct (adapters k !! na) as [a|] eqn:Ea; [|discriminate].
  destruct (NETMAP_OWNED_BY_KERN a && _) eqn:Echk.
  { simplify_eq. cbn.
    do 5 (split; [first [reflexivity|eassumption|rewrite ?Eop, ?Epriv; reflexivity]|]).
    exists priv. split; [assumption|]. right. exists na, a.
    split; [exact Ena|]. split; [exact Ea|]. left. auto. }
  destruct (na_private a) as [s|] eqn:Es.
  { simplify_eq. cbn.
    do 5 (split; [first [reflexivity|eassumption|rewrite ?Eop, ?Epriv; reflexivity]|]).
    exists priv. split; [assumption|]. right. exists na, a.
    split; [exact Ena|]. split; [exact Ea|]. right. split; [rewrite Es; exact Echk|].
    left. exists s. auto. }
  destruct (netmap_sock_setup _ _ _ _ _ a) as [[a1 r] tr1] eqn:Eset.
  simplify_eq. cbn.
  do 5 (split; [first [reflexivity|eassumption|rewrite ?Eop, ?Epriv; reflexivity]|]).
  exists priv. split; [assumption|]. right. exists na, a.
  split; [exact Ena|]. split; [exact Ea|]. right. split; [rewrite Es; exact Echk|].
  right. split; [exact Es|]. exists a1, r, tr1. auto.
Qed.

(** A call that never takes the lock has failed on the descriptor or on
    the file. *)
Lemma get_netmap_socket_early sk_alloc_ok skb current fd k p k' tr :
  get_netmap_socket NETMAP_OWNED_BY_KERN sk_alloc_ok skb current fd k
    = Some (p, k', tr) ->
  tr = [] ->
  adapters k' = adapters k
  /\ fdtable k' = fdtable k
  /\ (p = ERR_PTR EBADF \/ p = ERR_PTR EINVAL).
Proof.
  intros Hcall Htr. unfold get_netmap_socket, fget in Hcall.
  destruct (fdtable k !! fd) as [filp|]; [|simplify_eq; auto].
  destruct (filemem k !! filp) as [f|]; [|discriminate].
  cbn [f_op private_data adapters] in Hcall.
  destruct (f_op f); [|simplify_eq; cbn; auto].
  destruct (private_data f) as [priv|]; [|simplify_eq; cbn; auto].
  destruct (np_na priv) as [na|]; [|simplify_eq].
  destruct (adapters k !! na) as [a|]; [|discriminate].
  destruct (NETMAP_OWNED_BY_KERN a && _); [simplify_eq|].
  destruct (na_private a); [simplify_eq|].
  destruct (netmap_sock_setup _ _ _ _ _ a) as [[a1 r] tr1]. simplify_eq.
Qed.

(** A set-up that fails on an adapter without a socket gives the adapter
    back and frees what it allocated. *)
Lemma sock_setup_failure sk_alloc_ok skb current na filp a a1 tr :
  na_private a = None ->
  netmap_sock_setup sk_alloc_ok skb current na filp a = (a1, None, tr) ->
  a1 = a
  /\ (In (Ev_sk_alloc true) tr -> In Ev_sk_free tr)
  /\ ~ In Ev_sock_hold tr.
Proof.
  intros Hnone Hset. unfold netmap_sock_setup in Hset.
  assert (Ea : {| na_private := None; nm_dtor := nm_dtor a |} = a).
  { rewrite <- Hnone. apply adapter_sock_eta. }
  destruct sk_alloc_ok; cbn [negb] in Hset.
  - destruct skb; [discriminate|]. injection Hset as <- <-.
    split; [exact Ea|]. split.
    + intros _. cbn. auto 10.
    + cbn. intros H. decompose [or] H; discriminate || contradiction.
  - injection Hset as <- <-. split; [exact Ea|]. split.
    + cbn. intros [H|[]]. discriminate.
    + cbn. intros [H|[]]. discriminate.
Qed.

(** X15.  A call of [get_netmap_socket] that returns an error pointer
    leaves every adapter as it was: the error is [EBADF], [EINVAL],
    [EBUSY] or [ENOMEM], no socket stays allocated (what [sk_alloc] gave
    is freed again and no reference is taken on it), and the descriptor
    table is unchanged. *)
Theorem get_netmap_socket_error sk_alloc_ok skb current fd k e k' tr :
  get_netmap_socket NETMAP_OWNED_BY_KERN sk_alloc_ok skb current fd k
    = Some (ERR_PTR e, k', tr) ->
  adapters k' = adapters k
  /\ fdtable k' = fdtable k
  /\ (e = EBADF \/ e = EINVAL \/ e = EBUSY \/ e = ENOMEM)
  /\ (In (Ev_sk_alloc true) tr -> In Ev_sk_free tr)
  /\ ~ In Ev_sock_hold tr.
Proof.
  intros Hcall.
  destruct (decide (tr = [])) as [->|Hne].
  { destruct (get_netmap_socket_early _ _ _ _ _ _ _ _ Hcall eq_refl)
      as (Ha & Hf & [He|He]); injection He as ->; cbn; tauto. }
  destruct (get_netmap_socket_path _ _ _ _ _ _ _ _ Hcall Hne)
    as (filp & f & _ & _ & _ & Hfd & _ & priv & _ & Hcase).
  assert (Hplain : ~ In Ev_sock_hold [Ev_NMG_LOCK; Ev_NMG_UNLOCK]
                   /\ (In (Ev_sk_alloc true) [Ev_NMG_LOCK; Ev_NMG_UNLOCK]
                       -> In Ev_sk_free [Ev_NMG_LOCK; Ev_NMG_UNLOCK])).
  { cbn. split; intros H; decompose [or] H; discriminate || contradiction. }
  destruct Hcase as [(_ & Hp & Ha & ->)|(na & a & _ & Ea & Hcase)].
  { injection Hp as ->. tauto. }
  destruct Hcase as [(_ & Hp & Ha & ->)|(_ & [(s & _ & Hp & _)|(Hnone & Hset)])].
  { injection Hp as ->. tauto. }
  { discriminate. }
  destruct Hset as (a1 & r & tr1 & Hset & Hp & Ha & ->).
  destruct r as [s|]; [discriminate|]. injection Hp as ->.
  destruct (sock_setup_failure _ _ _ _ _ _ _ _ Hnone Hset) as (-> & Hfree & Hhold).
  split; [rewrite Ha; apply insert_id; exact Ea|].
  split; [exact Hfd|]. split; [auto|].
  cbn [app In]. split.
  - intros [H|H]; [discriminate|]. right.
    apply in_app_iff in H. apply in_app_iff.
    destruct H as [H|[H|[]]]; [auto|discriminate].
  - intros [H|H]; [discriminate|].
    apply in_app_iff in H. destruct H as [H|[H|[]]]; [auto|discriminate].
Qed.

(** X16.  [get_netmap_socket] never returns with the global lock held
    and never takes it twice: either the call fails before looking at
    the adapter and the lock is not touched, or its events start with
    the one [NMG_LOCK] and end with the one [NMG_UNLOCK], with every
    allocation and release in between. *)
Theorem get_netmap_socket_locking sk_alloc_ok skb current fd k p k' tr :
  get_netmap_socket NETMAP_OWNED_BY_KERN sk_alloc_ok skb current fd k
    = Some (p, k', tr) ->
  (tr = [] /\ (p = ERR_PTR EBADF \/ p = ERR_PTR EINVAL))
  \/ exists mid,
       tr = [Ev_NMG_LOCK] ++ mid ++ [Ev_NMG_UNLOCK]
       /\ Forall (fun e => is_lock_event e = false) mid.
Proof.
  intros Hcall.
  destruct (decide (tr = [])) as [->|Hne].
  { left. split; [reflexivity|].
    apply (get_netmap_socket_early _ _ _ _ _ _ _ _ Hcall eq_refl). }
  right.
  destruct (get_netmap_socket_path _ _ _ _ _ _ _ _ Hcall Hne)
    as (filp & f & _ & _ & _ & _ & _ & priv & _ & Hcase).
  destruct Hcase as [(_ & _ & _ & ->)|(na & a & _ & _ & Hcase)];
    [exists []; split; [reflexivity|constructor]|].
  destruct Hcase as [(_ & _ & _ & ->)|(_ & [(s & _ & _ & _ & ->)|(_ & Hset)])];
    [exists []; split; [reflexivity|constructor]..|].
  destruct Hset as (a1 & r & tr1 & Hset & _ & _ & ->).
  exists tr1. split; [reflexivity|].
  unfold netmap_sock_setup in Hset.
  destruct sk_alloc_ok; cbn [negb] in Hset;
    [destruct skb|]; injection Hset as <- <- <-; repeat constructor.
Qed.

(** After a call that returned the socket of an adapter, what any further
    call on the same descriptor does. *)
Lemma get_netmap_socket_after ok1 skb1 current fd k na k1 tr1 :
  get_netmap_socket NETMAP_OWNED_BY_KERN ok1 skb1 current fd k
    = Some (Socket_of na, k1, tr1) ->
  exists a1 s,
    adapters k1 !! na = Some a1
    /\ na_private a1 = Some s
    /\ NETMAP_OWNED_BY_KERN a1 && negb (owner s =? current) = false
    /\ forall ok2 skb2 task,
         exists k2,
           get_netmap_socket NETMAP_OWNED_BY_KERN ok2 skb2 task fd k1
             = Some ((if NETMAP_OWNED_BY_KERN a1 && negb (owner s =? task)
                      then ERR_PTR EBUSY else Socket_of na),
                     k2, [Ev_NMG_LOCK; Ev_NMG_UNLOCK])
           /\ adapters k2 = adapters k1.
Proof.
  intros Hcall.
  destruct (decide (tr1 = [])) as [->|Hne].
  { destruct (get_netmap_socket_early _ _ _ _ _ _ _ _ Hcall eq_refl)
      as (_ & _ & [He|He]); discriminate. }
  destruct (get_netmap_socket_path _ _ _ _ _ _ _ _ Hcall Hne)
    as (filp & f & Hfd & Hf & Hop & Hfd1 & Hf1 & priv & Hpriv & Hcase).
  destruct Hcase as [(_ & Hp & _)|(na' & a & Hna & Ea & Hcase)]; [discriminate|].
  destruct Hcase as [(_ & Hp & _)|(Hchk & Hcase)]; [discriminate|].
  assert (Hafter : na' = na
                   /\ exists a1 s, adapters k1 !! na = Some a1
                                   /\ na_private a1 = Some s
                                   /\ NETMAP_OWNED_BY_KERN a1
                                      && negb (owner s =? current) = false).
  { destruct Hcase as [(s & Hs & Hp & Ha & _)|(Hnone & a1 & r & tr' & Hset & Hp & Ha & _)].
    - injection Hp as <-. split; [reflexivity|]. exists a, s. rewrite Ha.
      split; [exact Ea|].
      split; [exact Hs|]. rewrite Hs in Hchk. exact Hchk.
    - destruct r as [s|]; [|discriminate]. injection Hp as <-.
      destruct (sock_setup_success _ _ _ _ _ _ _ _ _ Hset)
        as (Hs & _ & Ho & _).
      split; [reflexivity|].
      exists a1, s. rewrite Ha, lookup_insert_eq. split; [reflexivity|].
      split; [exact Hs|]. rewrite Ho, Z.eqb_refl. apply andb_false_r. }
  destruct Hafter as (-> & a1 & s & Ea1 & Hs1 & Hchk1).
  exists a1, s. split; [exact Ea1|]. split; [exact Hs1|]. split; [exact Hchk1|].
  intros ok2 skb2 task.
  unfold get_netmap_socket, fget. rewrite Hfd1, Hfd, Hf1, lookup_insert_eq.
  cbn [f_op private_data adapters]. rewrite Hop, Hpriv, Hna, Ea1, Hs1.
  destruct (NETMAP_OWNED_BY_KERN a1 && negb (owner s =? task));
    eexists; split; reflexivity.
Qed.

(** X17.  Asking again gives the same socket: after a call that returned
    the socket of an adapter, a second call by the same task on the same
    descriptor returns the same socket whatever the allocators would
    answer, sets nothing up and leaves every adapter as the first call
    left it. *)
Theorem get_netmap_socket_again ok1 skb1 ok2 skb2 current fd k na k1 tr1 :
  get_netmap_socket NETMAP_OWNED_BY_KERN ok1 skb1 current fd k
    = Some (Socket_of na, k1, tr1) ->
  exists k2,
    get_netmap_socket NETMAP_OWNED_BY_KERN ok2 skb2 current fd k1
      = Some (Socket_of na, k2, [Ev_NMG_LOCK; Ev_NMG_UNLOCK])
    /\ adapters k2 = adapters k1.
Proof.
  intros Hcall.
  destruct (get_netmap_socket_after _ _ _ _ _ _ _ _ Hcall)
    as (a1 & s & _ & _ & Hchk & Hnext).
  destruct (Hnext ok2 skb2 current) as (k2 & Hcall2 & Ha).
  rewrite Hchk in Hcall2. eauto.
Qed.

(** X18.  Once an adapter has a socket, a task that does not own the
    socket cannot get it while the adapter counts as owned by the
    kernel: a call by such a task returns [EBUSY], sets nothing up and
    leaves every adapter alone; when the adapter does not count as
    owned by the kernel, the task gets the very same socket. *)
Theorem get_netmap_socket_other_task ok1 skb1 ok2 skb2 current task fd k na k1 tr1 :
  get_netmap_socket NETMAP_OWNED_BY_KERN ok1 skb1 current fd k
    = Some (Socket_of na, k1, tr1) ->
  exists a1 s,
    adapters k1 !! na = Some a1
    /\ na_private a1 = Some s
    /\ (owner s <> task ->
        exists k2,
          get_netmap_socket NETMAP_OWNED_BY_KERN ok2 skb2 task fd k1
            = Some ((if NETMAP_OWNED_BY_KERN a1
                     then ERR_PTR EBUSY else Socket_of na),
                    k2, [Ev_NMG_LOCK; Ev_NMG_UNLOCK])
          /\ adapters k2 = adapters k1).
Proof.
  intros Hcall.
  destruct (get_netmap_socket_after _ _ _ _ _ _ _ _ Hcall)
    as (a1 & s & Ea & Hs & _ & Hnext).
  exists a1, s. split; [exact Ea|]. split; [exact Hs|]. intros Hne.
  destruct (Hnext ok2 skb2 task) as (k2 & Hcall2 & Ha).
  destruct (Z.eqb_spec (owner s) task) as [|_]; [contradiction|].
  cbn [negb] in Hcall2. rewrite andb_true_r in Hcall2. eauto.
Qed.

(** X19.  [get_netmap_socket] keeps the destructor pointers in order:
    if, for every adapter, the destructor pointer is
    [netmap_socket_nm_dtor] exactly while the adapter has a socket (with
    another destructor saved in the socket), then the same holds after
    the call, whatever it returns. *)
Theorem get_netmap_socket_keeps_inv sk_alloc_ok skb current fd k p k' tr :
  (forall na a, adapters k !! na = Some a -> sock_inv a) ->
  get_netmap_socket NETMAP_OWNED_BY_KERN sk_alloc_ok skb current fd k
    = Some (p, k', tr) ->
  forall na a, adapters k' !! na = Some a -> sock_inv a.
Proof.
  intros Hinv Hcall.
  destruct (decide (tr = [])) as [->|Hne].
  { destruct (get_netmap_socket_early _ _ _ _ _ _ _ _ Hcall eq_refl) as (-> & _).
    exact Hinv. }
  destruct (get_netmap_socket_path _ _ _ _ _ _ _ _ Hcall Hne)
    as (filp & f & _ & _ & _ & _ & _ & priv & _ & Hcase).
  destruct Hcase as [(_ & _ & -> & _)|(na0 & a0 & _ & Ea0 & Hcase)]; [exact Hinv|].
  destruct Hcase as [(_ & _ & -> & _)|(_ & [(s & _ & _ & -> & _)|(Hnone & Hset)])];
    [exact Hinv..|].
  destruct Hset as (a1 & r & tr1 & Hset & _ & -> & _).
  intros na a Hlook.
  destruct (decide (na0 = na)) as [->|Hna].
  2:{ rewrite lookup_insert_ne in Hlook by exact Hna. exact (Hinv _ _ Hlook). }
  rewrite lookup_insert_eq in Hlook. injection Hlook as <-.
  pose proof (Hinv _ _ Ea0) as H0. unfold sock_inv in H0. rewrite Hnone in H0.
  destruct r as [s|].
  - destruct (sock_setup_success _ _ _ _ _ _ _ _ _ Hset)
      as (Hs & Hd & _ & _ & _ & Hsaved & _).
    unfold sock_inv. rewrite Hs. split; [exact Hd|]. rewrite Hsaved. exact H0.
  - destruct (sock_setup_failure _ _ _ _ _ _ _ _ Hnone Hset) as (-> & _).
    exact (Hinv _ _ Ea0).
Qed.

(** X20.  Every call of [get_netmap_socket] on an open descriptor takes
    one reference on the file, in every outcome, error returns
    included: the reference count of the file is one higher after the
    call, and no other file is touched. *)
Theorem get_netmap_socket_file_reference sk_alloc_ok skb current fd k p k' tr
    filp f :
  fdtable k !! fd = Some filp ->
  filemem k !! filp = Some f ->
  get_netmap_socket NETMAP_OWNED_BY_KERN sk_alloc_ok skb current fd k
    = Some (p, k', tr) ->
  filemem k' = <[filp := {| f_op := f_op f; private_data := private_data f;
                            f_count := f_count f + 1 |}]> (filemem k).
Proof.
  intros Hfd Hf Hcall.
  destruct (decide (tr = [])) as [->|Hne].
  - unfold get_netmap_socket, fget in Hcall. rewrite Hfd, Hf in Hcall.
    cbn [f_op private_data adapters] in Hcall.
    destruct (f_op f); [|simplify_eq; reflexivity].
    destruct (private_data f) as [priv|]; [|simplify_eq; reflexivity].
    destruct (np_na priv) as [na|]; [|simplify_eq].
    destruct (adapters k !! na) as [a|]; [|discriminate].
    destruct (NETMAP_OWNED_BY_KERN a && _); [simplify_eq|].
    destruct (na_private a); [simplify_eq|].
    destruct (netmap_sock_setup _ _ _ _ _ a) as [[a1 r] tr1]. simplify_eq.
  - destruct (get_netmap_socket_path _ _ _ _ _ _ _ _ Hcall Hne)
      as (filp' & f' & Hfd' & Hf' & _ & _ & Hmem & _).
    rewrite Hfd in Hfd'. injection Hfd' as <-.
    rewrite Hf in Hf'. injection Hf' as <-. exact Hmem.
Qed.

(** X21.  A file that has just been opened has no socket to give: after
    a successful [linux_netmap_open] the private data is bound to no
    adapter, so [get_netmap_socket] on a descriptor of that file takes
    and releases the lock, returns [EBADF] and leaves every adapter
    alone; and when [malloc] fails the open returns [-ENOMEM] and leaves
    the file as it was. *)
Theorem fresh_file_has_no_socket sk_alloc_ok skb current fd k filp f :
  fdtable k !! fd = Some filp ->
  f_op f = Fops_netmap ->
  linux_netmap_open false f = (- ENOMEM, f)
  /\ exists f',
       linux_netmap_open true f = (0, f')
       /\ exists k',
            get_netmap_socket NETMAP_OWNED_BY_KERN sk_alloc_ok skb current fd
              {| fdtable := fdtable k;
                 filemem := <[filp := f']> (filemem k);
                 adapters := adapters k |}
            = Some (ERR_PTR EBADF, k', [Ev_NMG_LOCK; Ev_NMG_UNLOCK])
            /\ adapters k' = adapters k.
Proof.
  intros Hfd Hop. split; [reflexivity|].
  eexists. split; [reflexivity|].
  unfold get_netmap_socket, fget. cbn [fdtable filemem adapters].
  rewrite Hfd, lookup_insert_eq. cbn [f_op private_data np_na]. rewrite Hop.
  eexists. split; reflexivity.
Qed.

End FileOperationsProofs.

(** * File operations: ioctl and mmap *)

Section IoctlProofs.
Variable nmreq : Type.
Variable nmreq_zero : nmreq.
Variable kstate : Type.
Variable netmap_ioctl : Z -> nmreq -> kstate -> Z * nmreq * kstate.
Variables NIOCTXSYNC NIOCRXSYNC : Z.

(** X22.  For the two synchronisation commands the argument of the
    ioctl is ignored, and a null argument is never followed: in both
    cases [netmap_ioctl] runs on a zeroed request, user memory is
    neither read nor written, and the call returns the negated answer
    of [netmap_ioctl]. *)
Theorem ioctl_without_argument cmd data (umem : nmreq_mem nmreq) ks :
  cmd = NIOCTXSYNC \/ cmd = NIOCRXSYNC \/ data = 0 ->
  linux_netmap_ioctl nmreq nmreq_zero kstate netmap_ioctl NIOCTXSYNC NIOCRXSYNC
    cmd data umem ks
  = (s32 (- (netmap_ioctl cmd nmreq_zero ks).1.1), umem,
     (netmap_ioctl cmd nmreq_zero ks).2).
Proof.
  intros H. unfold linux_netmap_ioctl.
  assert (E : (if (cmd =? NIOCTXSYNC) || (cmd =? NIOCRXSYNC) then 0 else data) = 0).
  { destruct H as [-> | [-> | ->]].
    - rewrite Z.eqb_refl. reflexivity.
    - rewrite Z.eqb_refl, orb_true_r. reflexivity.
    - destruct (_ || _); reflexivity. }
  rewrite E. cbn [Z.eqb].
  destruct (netmap_ioctl cmd nmreq_zero ks) as [[ret nmr] ks']. reflexivity.
Qed.

(** X23.  For any other command with an argument, the three things that
    can happen to the request in user memory: if it cannot be read the
    call returns [-EFAULT] and [netmap_ioctl] is not run; if it can be
    read but not written the call returns [-EFAULT] although
    [netmap_ioctl] has run on it and changed the kernel state; otherwise
    the request [netmap_ioctl] leaves is copied back and the call
    returns its negated answer. *)
Theorem ioctl_with_argument cmd data (umem : nmreq_mem nmreq) ks :
  cmd <> NIOCTXSYNC -> cmd <> NIOCRXSYNC -> data <> 0 ->
  linux_netmap_ioctl nmreq nmreq_zero kstate netmap_ioctl NIOCTXSYNC NIOCRXSYNC
    cmd data umem ks
  = match umem !! data with
    | None => (- EFAULT, umem, ks)
    | Some (req, false) => (- EFAULT, umem, (netmap_ioctl cmd req ks).2)
    | Some (req, true) =>
        let '(ret, nmr, ks') := netmap_ioctl cmd req ks in
        (s32 (- ret), <[data := (nmr, true)]> umem, ks')
    end.
Proof.
  intros Htx Hrx Hd. unfold linux_netmap_ioctl.
  destruct (Z.eqb_spec cmd NIOCTXSYNC) as [|_]; [contradiction|].
  destruct (Z.eqb_spec cmd NIOCRXSYNC) as [|_]; [contradiction|]. cbn [orb].
  destruct (Z.eqb_spec data 0) as [|_]; [contradiction|].
  destruct (umem !! data) as [[req w]|]; [|reflexivity]. cbn [fmap option_fmap option_map fst].
  destruct (netmap_ioctl cmd req ks) as [[ret nmr] ks']. destruct w; reflexivity.
Qed.

End IoctlProofs.

Section MmapProofs.
Variable PAGE_SHIFT : Z.
Variable netmap_mem_ofstophys : Z -> Z.
Variable remap_pfn_range : Z -> Z -> Z.

Lemma PAGE_SIZE_pos : 0 <= PAGE_SHIFT -> 0 < PAGE_SIZE PAGE_SHIFT.
Proof.
  intros H. unfold PAGE_SIZE. rewrite Z.shiftl_1_l. apply Z.pow_pos_nonneg; lia.
Qed.

Lemma u64_id x : 0 <= x < 2 ^ 64 -> u64 x = x.
Proof. intros H. unfold u64. apply Z.mod_small. exact H. Qed.

Lemma u64_succ off i : u64 (u64 (off + 1) + Z.of_nat i) = u64 (off + Z.of_nat (S i)).
Proof.
  unfold u64. rewrite Zplus_mod_idemp_l. f_equal. lia.
Qed.

Lemma mmap_page_shift va off i :
  mmap_page PAGE_SHIFT netmap_mem_ofstophys (va + PAGE_SIZE PAGE_SHIFT) (u64 (off + 1)) i = mmap_page PAGE_SHIFT netmap_mem_ofstophys va off (S i).
Proof.
  unfold mmap_page, mmap_va, mmap_pfn. rewrite u64_succ. f_equal. lia.
Qed.

Lemma mmap_loop_spec :
  0 <= PAGE_SHIFT ->
  forall n fuel va off,
    (n < fuel)%nat ->
    0 <= va ->
    0 <= off < 2 ^ 64 ->
    va + Z.of_nat n * PAGE_SIZE PAGE_SHIFT < 2 ^ 64 ->
    exists r d,
      mmap_loop PAGE_SHIFT netmap_mem_ofstophys remap_pfn_range fuel
        (va + Z.of_nat n * PAGE_SIZE PAGE_SHIFT) va off
      = Some (r, map (mmap_page PAGE_SHIFT netmap_mem_ofstophys va off) (seq 0 d))
      /\ mmap_outcome PAGE_SHIFT netmap_mem_ofstophys remap_pfn_range va off n r d.
Proof.
  intros Hshift. pose proof (PAGE_SIZE_pos Hshift) as Hps.
  induction n as [|n IH]; intros fuel va off Hfuel Hva Hoff Hend.
  - destruct fuel; [lia|]. cbn [mmap_loop].
    destruct (Z.ltb_spec va (va + Z.of_nat 0 * PAGE_SIZE PAGE_SHIFT)) as [|_]; [lia|].
    exists 0, O. split; [reflexivity|]. left. auto.
  - destruct fuel as [|fuel]; [lia|]. cbn [mmap_loop].
    destruct (Z.ltb_spec va (va + Z.of_nat (S n) * PAGE_SIZE PAGE_SHIFT)) as [_|]; [|nia].
    assert (E0 : u64 (off + Z.of_nat 0) = off) by (rewrite Z.add_0_r; apply u64_id; exact Hoff).
    destruct (Z.eqb_spec (netmap_mem_ofstophys (u64 (Z.shiftl off PAGE_SHIFT))) 0)
      as [Epa|Epa].
    { exists (- EINVAL), O. split; [reflexivity|]. right. left.
      split; [reflexivity|]. split; [lia|]. rewrite E0. exact Epa. }
    assert (Hp0 : Ev_remap_pfn_range va
                    (Z.shiftr (netmap_mem_ofstophys (u64 (Z.shiftl off PAGE_SHIFT)))
                       PAGE_SHIFT) (PAGE_SIZE PAGE_SHIFT)
                  = mmap_page PAGE_SHIFT netmap_mem_ofstophys va off 0).
    { unfold mmap_page, mmap_va, mmap_pfn. rewrite E0. f_equal. lia. }
    destruct (Z.eqb_spec (remap_pfn_range va
                (Z.shiftr (netmap_mem_ofstophys (u64 (Z.shiftl off PAGE_SHIFT)))
                   PAGE_SHIFT)) 0) as [Eer|Eer]; cbn [negb].
    2:{ eexists _, 1%nat. rewrite Hp0. split; [reflexivity|]. right. right.
        split; [exact Eer|]. split; [lia|]. exists O. split; [reflexivity|].
        unfold mmap_va, mmap_pfn. rewrite E0. f_equal. lia. }
    assert (Eva : u64 (va + PAGE_SIZE PAGE_SHIFT) = va + PAGE_SIZE PAGE_SHIFT)
      by (apply u64_id; nia).
    rewrite Eva.
    replace (va + Z.of_nat (S n) * PAGE_SIZE PAGE_SHIFT)
      with (va + PAGE_SIZE PAGE_SHIFT + Z.of_nat n * PAGE_SIZE PAGE_SHIFT) in * by lia.
    destruct (IH fuel (va + PAGE_SIZE PAGE_SHIFT) (u64 (off + 1)))
      as (r & d & Hloop & Hout); try lia.
    { unfold u64. apply Z.mod_pos_bound. lia. }
    rewrite Hloop. exists r, (S d). split.
    + rewrite Hp0. cbn [seq map]. do 2 f_equal. f_equal.
      rewrite <- seq_shift, map_map. apply map_ext. intros i.
      apply mmap_page_shift.
    + destruct Hout as [(-> & ->)|[(-> & Hd & Hz)|(Hr & Hd & j & -> & Hj)]].
      * left. auto.
      * right. left. split; [reflexivity|]. split; [lia|].
        rewrite <- u64_succ. exact Hz.
      * right. right. split; [exact Hr|]. split; [lia|]. exists (S j).
        split; [reflexivity|]. rewrite Hj. unfold mmap_va, mmap_pfn.
        rewrite u64_succ. f_equal. lia.
Qed.

Lemma land_page_mask x :
  0 <= PAGE_SHIFT ->
  Z.land x (Z.lnot (PAGE_MASK PAGE_SHIFT)) = x mod PAGE_SIZE PAGE_SHIFT.
Proof.
  intros H. unfold PAGE_MASK. rewrite Z.lnot_involutive.
  unfold PAGE_SIZE. rewrite Z.shiftl_1_l, Z.sub_1_r, <- Z.ones_equiv.
  apply Z.land_ones. exact H.
Qed.

(** X24.  [linux_netmap_mmap] on page-aligned bounds, once the memory
    is there, maps the pages of the range in order, page [i] of the
    range onto the page frame of netmap offset [(vm_pgoff + i) <<
    PAGE_SHIFT].  It returns 0 exactly when it has mapped every page of
    the range; otherwise it stops at the first page that has no memory
    behind it (returning [-EINVAL]) or whose remapping is refused
    (returning the refusal), and leaves the pages before it mapped. *)
Theorem mmap_maps_range vm_start vm_end vm_pgoff :
  0 <= PAGE_SHIFT ->
  0 <= vm_start -> vm_end < 2 ^ 64 ->
  0 <= vm_pgoff < 2 ^ 64 ->
  vm_start mod PAGE_SIZE PAGE_SHIFT = 0 ->
  vm_end mod PAGE_SIZE PAGE_SHIFT = 0 ->
  exists r d,
    linux_netmap_mmap PAGE_SHIFT netmap_mem_ofstophys remap_pfn_range
      0 vm_start vm_end vm_pgoff
    = Some (r, map (mmap_page PAGE_SHIFT netmap_mem_ofstophys vm_start vm_pgoff) (seq 0 d))
    /\ mmap_outcome PAGE_SHIFT netmap_mem_ofstophys remap_pfn_range vm_start vm_pgoff (mmap_pages PAGE_SHIFT vm_start vm_end) r d.
Proof.
  intros Hshift Hs He Hoff Has Hae. pose proof (PAGE_SIZE_pos Hshift) as Hps.
  unfold linux_netmap_mmap. cbn [Z.eqb negb].
  rewrite !land_page_mask by exact Hshift. rewrite Has, Hae. cbn [Z.eqb negb orb].
  destruct (Z.le_gt_cases vm_end vm_start) as [Hle|Hgt].
  - cbn [mmap_loop]. destruct (Z.ltb_spec vm_start vm_end) as [|_]; [lia|].
    exists 0, O. split; [reflexivity|]. left. split; [reflexivity|].
    unfold mmap_pages.
    assert ((vm_end - vm_start) / PAGE_SIZE PAGE_SHIFT <= 0)
      by (apply Z.div_le_upper_bound; lia).
    lia.
  - assert (Hmod : (vm_end - vm_start) mod PAGE_SIZE PAGE_SHIFT = 0).
    { rewrite Zminus_mod, Has, Hae. apply Z.mod_0_l. lia. }
    assert (Hdiv : vm_end - vm_start
                   = PAGE_SIZE PAGE_SHIFT * ((vm_end - vm_start) / PAGE_SIZE PAGE_SHIFT)).
    { apply Z.div_exact; lia. }
    assert (Hq : 0 <= (vm_end - vm_start) / PAGE_SIZE PAGE_SHIFT)
      by (apply Z.div_pos; lia).
    assert (Hend : vm_end = vm_start
                            + Z.of_nat (mmap_pages PAGE_SHIFT vm_start vm_end)
                              * PAGE_SIZE PAGE_SHIFT).
    { unfold mmap_pages. rewrite Z2Nat.id by exact Hq. lia. }
    set (n := mmap_pages PAGE_SHIFT vm_start vm_end) in *. clearbody n.
    subst vm_end.
    apply mmap_loop_spec; try assumption; lia.
Qed.

End MmapProofs.

(** * Reading a packet that fits one slot *)

Section SingleSlot.
Context {K : netmap_consts}.

(** X25.  A packet that takes one slot (no [NS_MOREFRAG]) and fits the
    first segment of the iovec is delivered whole by one call of
    [netmap_socket_recvmsg], whatever positive [total_len] asks for:
    the call returns the length of the slot, even if the caller asked
    for less, writes the bytes at the start of the first segment and
    touches no other segment, logs no warning, and leaves [cur] and
    [avail] where they were, so the slot is still the next one to
    read. *)
Theorem recvmsg_single_slot na seg rest total_len fl :
  u32 (avail (rx_rings0 na)) <> 0 ->
  slot_morefrag (slot_at (rx_rings0 na) (u32 (cur (rx_rings0 na)))) = false ->
  0 < u32 (len (slot_at (rx_rings0 na) (u32 (cur (rx_rings0 na)))))
    <= Z.of_nat (length seg) ->
  Z.of_nat (length seg) <= INT_MAX ->
  0 < total_len ->
  netmap_socket_recvmsg (Some na) {| msg_iov := seg :: rest |} total_len fl
  = Some {| rx_ret := u32 (len (slot_at (rx_rings0 na) (u32 (cur (rx_rings0 na)))));
            rx_exit := Rx_done Rx_break_slot;
            rx_na_out :=
              Some (set_rx_ring
                      (set_cur_avail (u32 (cur (rx_rings0 na)))
                         (u32 (avail (rx_rings0 na))) (rx_rings0 na))
                      na);
            rx_msg_out :=
              {| msg_iov :=
                   splice seg 0
                     (take (Z.to_nat
                              (u32 (len (slot_at (rx_rings0 na)
                                           (u32 (cur (rx_rings0 na)))))))
                        (nm_buf na
                           (buf_idx (slot_at (rx_rings0 na)
                                       (u32 (cur (rx_rings0 na)))))))
                   :: rest |};
            rx_trace :=
              [Ev_D_read (u32 (len (slot_at (rx_rings0 na)
                                      (u32 (cur (rx_rings0 na)))))) 0] |}.
Proof.
  intros Hav Hmf [Hpos Hfit] Hmax Htot.
  set (r := rx_rings0 na) in *. set (i := u32 (cur r)) in *.
  set (s := slot_at r i) in *. set (L := u32 (len s)) in *.
  unfold netmap_socket_recvmsg. fold r.
  destruct (Z.eqb_spec (u32 (avail r)) 0) as [|_]; [contradiction|].
  unfold recvmsg_fuel. cbn [recvmsg_loop].
  change (rx_copied (recvmsg_init na {| msg_iov := seg :: rest |})) with 0.
  destruct (Z.ltb_spec 0 total_len) as [_|]; [|lia].
  assert (Hseg : u32 (iov_len_at (seg :: rest) 0) = Z.of_nat (length seg)).
  { unfold iov_len_at, iov_len. cbn. apply u32_id. unfold INT_MAX in Hmax. lia. }
  unfold recvmsg_body.
  set (v1 := recvmsg_copy na _).
  assert (Hmin : Z.min L (Z.of_nat (length seg)) = L) by lia.
  assert (E1 : rx_nm_frag_size v1 = 0).
  { subst v1. cbn [recvmsg_copy recvmsg_init rx_nm_frag_size rx_iov_frag_size msg_iov].
    fold r i s L. rewrite Hseg, Hmin, Z.sub_diag. reflexivity. }
  assert (E2 : rx_morefrag v1 = false) by exact Hmf.
  rewrite E1, E2. cbn [Z.eqb negb orb].
  assert (E3 : rx_copied v1 = L).
  { subst v1. cbn [recvmsg_copy recvmsg_init rx_copied rx_nm_frag_size
                   rx_iov_frag_size msg_iov].
    fold r i s L. rewrite Hseg, Hmin. cbn [Z.add]. apply u32_id.
    unfold INT_MAX in Hmax. lia. }
  assert (E4 : rx_umem v1
               = splice seg 0 (take (Z.to_nat L) (nm_buf na (buf_idx s))) :: rest).
  { subst v1. cbn [recvmsg_copy recvmsg_init rx_umem rx_nm_frag_size
                   rx_iov_frag_size rx_dst rx_iov_frag_ofs rx_src rx_nm_frag_ofs
                   msg_iov BDG_NMB].
    fold r i s L. rewrite Hseg, Hmin. reflexivity. }
  rewrite E2, E3, E4, andb_false_r. cbn [app].
  rewrite s32_id by (unfold INT_MAX in *; lia).
  reflexivity.
Qed.

End SingleSlot.

(** * Closed instances of the further properties *)

(** C8 at a call that fills two slots from the last slot of the ring
    on: the adapter [nm_txsync] is called on has [cur] two steps on, at
    slot 1, and two slots less. *)
Lemma sendmsg_success_return_and_sync_witness :
  exists r,
    netmap_socket_sendmsg (Some (blank_adapter 4 4 3 4))
      {| msg_iov := [[x01; x02; x03; x04; x05]] |} 5 = Some r
    /\ tx_exit r = Tx_done
    /\ tx_ret r = 5
    /\ exists na',
         tx_na_out r = Some na'
         /\ tx_trace r = [Ev_nm_txsync na' 0 0]
         /\ cur (tx_rings0 na') = 1
         /\ avail (tx_rings0 na') = 2.
Proof.
  destruct (sendmsg_success_return_and_sync (blank_adapter 4 4 3 4)
              {| msg_iov := [[x01; x02; x03; x04; x05]] |} 5)
    as (r & Hr & H).
  exists r. split; [exact Hr|].
  assert (He : tx_exit r = Tx_done).
  { vm_compute in Hr. injection Hr as <-. reflexivity. }
  split; [exact He|].
  destruct (H He eq_refl ltac:(vm_compute; discriminate))
    as (Hret & na' & Hna & Htr & Hpin).
  split; [exact Hret|]. exists na'. split; [exact Hna|]. split; [exact Htr|].
  destruct Hpin as (_ & Hc & Ha); [vm_compute; reflexivity|].
  split; [rewrite Hc; vm_compute; reflexivity|rewrite Ha; vm_compute; reflexivity].
Defined.

(** X1 on a ring with two slots of 4 bytes free: two segments of 5 and 3
    bytes pass the first guard and need three slots. *)
Lemma sendmsg_exit_cases_witness :
  exists res,
    netmap_socket_sendmsg (Some (blank_adapter 4 4 0 2))
      {| msg_iov := [[x01; x02; x03; x04; x05]; [x06; x07; x08]] |} 8 = Some res
    /\ tx_exit res = Tx_out_of_space.
Proof.
  destruct (netmap_socket_sendmsg_total (Some (blank_adapter 4 4 0 2))
              {| msg_iov := [[x01; x02; x03; x04; x05]; [x06; x07; x08]] |} 8)
    as [res Hres].
  exists res. split; [exact Hres|].
  apply (sendmsg_exit_cases (blank_adapter 4 4 0 2)
           {| msg_iov := [[x01; x02; x03; x04; x05]; [x06; x07; x08]] |} 8 res).
  - vm_compute. reflexivity.
  - vm_compute. reflexivity.
  - exact Hres.
  - vm_compute. split; [discriminate|reflexivity].
Defined.

(** X2 on a ring entered at its last slot with four slots of 4 bytes
    free: 6 + 0 + 3 bytes take 2 + 0 + 1 slots. *)
Lemma sendmsg_slots_taken_witness :
  exists res na1,
    netmap_socket_sendmsg (Some (blank_adapter 4 4 3 4))
      {| msg_iov := [[x01; x02; x03; x04; x05; x06]; []; [x07; x08; x09]] |} 9
      = Some res
    /\ tx_na_out res = Some na1
    /\ avail (tx_rings0 na1) = 1.
Proof.
  eexists _, _. split; [vm_compute; reflexivity|]. split; [reflexivity|].
  refine (proj1 (sendmsg_slots_taken (blank_adapter 4 4 3 4)
            {| msg_iov := [[x01; x02; x03; x04; x05; x06]; []; [x07; x08; x09]] |}
            9 _ _ _ _ eq_refl eq_refl eq_refl)).
  - vm_compute. reflexivity.
  - vm_compute. reflexivity.
Defined.

Lemma blank_mem_room q c :
  nm_mem (blank_adapter 4 4 0 4) !! q = Some c -> 4 <= Z.of_nat (length c).
Proof.
  intros H.
  refine (map_Forall_lookup_1 (fun _ c => 4 <= Z.of_nat (length c)) _ q c _ H).
  apply (bool_decide_unpack _). vm_compute. reflexivity.
Qed.

(** X4 on a ring of four slots with buffers of 4 bytes: buffer 2, the
    one of slot 0, still has 4 bytes after a message of 3 bytes. *)
Lemma sendmsg_buffer_bounds_witness :
  exists res na1 b',
    netmap_socket_sendmsg (Some (blank_adapter 4 4 0 4))
      {| msg_iov := [[x01; x02; x03]] |} 3 = Some res
    /\ tx_na_out res = Some na1
    /\ nm_mem na1 !! 2 = Some b'
    /\ length b' = 4%nat.
Proof.
  destruct (netmap_socket_sendmsg_total (Some (blank_adapter 4 4 0 4))
              {| msg_iov := [[x01; x02; x03]] |} 3) as [res Hres].
  assert (Hout : exists na1, tx_na_out res = Some na1).
  { vm_compute in Hres. injection Hres as <-. eexists. reflexivity. }
  destruct Hout as [na1 Hout].
  destruct (sendmsg_buffer_bounds (blank_adapter 4 4 0 4)
              {| msg_iov := [[x01; x02; x03]] |} 3 res na1 2 (repeat x00 4))
    as (b' & Hb & Hl & _).
  - intros q c Hq. change (u32 _) with 4. exact (blank_mem_room q c Hq).
  - exact Hres.
  - exact Hout.
  - vm_compute. reflexivity.
  - exists res, na1, b'. auto.
Defined.

Lemma blank_adapter_bufs_wf_2 :
  bufs_wf (blank_adapter 4 4 3 2) (tx_rings0 (blank_adapter 4 4 3 2)).
Proof.
  split.
  - apply (bool_decide_unpack _). vm_compute. reflexivity.
  - apply Forall_forall. repeat constructor; vm_compute; eexists; reflexivity.
Qed.

(** X5 on a ring of four slots entered at slot 3 with two slots free
    (slots 3 and 0): slot 1 is out of reach of a message of 9 bytes,
    which runs out of slots. *)
Lemma sendmsg_frame_witness :
  exists res na1,
    netmap_socket_sendmsg (Some (blank_adapter 4 4 3 2))
      {| msg_iov := [[x01; x02; x03; x04; x05; x06; x07; x08; x09]] |} 9 = Some res
    /\ tx_na_out res = Some na1
    /\ slot_at (tx_rings0 na1) 1 = slot_at (tx_rings0 (blank_adapter 4 4 3 2)) 1
    /\ nm_buf na1 3 = [x00; x00; x00; x00].
Proof.
  destruct (netmap_socket_sendmsg_total (Some (blank_adapter 4 4 3 2))
              {| msg_iov := [[x01; x02; x03; x04; x05; x06; x07; x08; x09]] |} 9)
    as [res Hres].
  assert (Hout : exists na1, tx_na_out res = Some na1).
  { vm_compute in Hres. injection Hres as <-. eexists. reflexivity. }
  destruct Hout as [na1 Hout].
  destruct (sendmsg_frame (blank_adapter 4 4 3 2)
              {| msg_iov := [[x01; x02; x03; x04; x05; x06; x07; x08; x09]] |}
              9 res na1 1) as [Hs Hb].
  - unfold ring_wf, ring_inv. cbn. lia.
  - exact blank_adapter_bufs_wf_2.
  - exact Hres.
  - exact Hout.
  - cbn. lia.
  - cbn. lia.
  - intros (t & Ht & E). cbn in Ht.
    destruct t as [|[|t]]; [vm_compute in E; discriminate..|lia].
  - exists res, na1. split; [exact Hres|]. split; [exact Hout|].
    split; [exact Hs|]. exact Hb.
Defined.

(** X6 on two empty segments and a ring with two slots free. *)
Lemma sendmsg_empty_message_witness :
  exists res na1,
    netmap_socket_sendmsg (Some (blank_adapter 4 4 1 2))
      {| msg_iov := [[]; []] |} 0 = Some res
    /\ tx_ret res = 0
    /\ tx_na_out res = Some na1
    /\ cur (tx_rings0 na1) = 1
    /\ avail (tx_rings0 na1) = 2
    /\ tx_trace res = [Ev_nm_txsync na1 0 0].
Proof.
  destruct (sendmsg_empty_message (blank_adapter 4 4 1 2)
              {| msg_iov := [[]; []] |} 0)
    as (res & na1 & H1 & _ & H3 & H4 & H5 & H6 & H7 & _).
  - reflexivity.
  - vm_compute. discriminate.
  - exists res, na1. split; [exact H1|]. split; [exact H3|]. split; [exact H4|].
    split; [exact H6|]. split; [exact H7|exact H5].
Defined.

(** X7 on the packet of 10 bytes read into a destination of 3 bytes. *)
Lemma recvmsg_within_buffers_witness :
  exists res,
    netmap_socket_recvmsg (Some (packet_adapter 0 3))
      {| msg_iov := [[x00; x00]; [x00]] |} 10 0 = Some res
    /\ 0 <= rx_ret res <= 3
    /\ length <$> msg_iov (rx_msg_out res) = [2%nat; 1%nat].
Proof.
  destruct (netmap_socket_recvmsg_total (Some (packet_adapter 0 3))
              {| msg_iov := [[x00; x00]; [x00]] |} 10 0) as [res Hres].
  { vm_compute. reflexivity. }
  exists res. split; [exact Hres|].
  apply (recvmsg_within_buffers (packet_adapter 0 3)
           {| msg_iov := [[x00; x00]; [x00]] |} 10 0 res).
  - vm_compute. split; reflexivity.
  - vm_compute. discriminate.
  - exact Hres.
Defined.

(** X8 on an interface in netmap mode with work pending. *)
Lemma mit_expiry_then_idle_witness :
  let gna := {| mit_pending := 1; if_capenable := IFCAP_NETMAP;
                mit_timer_active := true |} in
  mit_timer_active (mit_timer_expiry (mit_timer_expiry gna).1).1 = false
  /\ notifications ((mit_timer_expiry gna).2
                    ++ (mit_timer_expiry (mit_timer_expiry gna).1).2) = 1%nat.
Proof.
  intros gna.
  assert (Hp : mit_pending gna <> 0) by discriminate.
  destruct (mit_expiry_then_idle gna Hp) as (_ & _ & _ & Ha & _ & Hn & _).
  split; [exact Ha|exact Hn].
Defined.

(** X9 on a device that uses the table of its driver. *)
Lemma steering_enable_disable_witness :
  exists on off,
    netmap_catch_packet_steering 200 1 driver_steering = Some on
    /\ netdev_ops on = 200
    /\ ops_mem on !! netdev_ops on
       = Some {| ndo_select_queue := Select_generic; ndo_others := 42 |}
    /\ netmap_catch_packet_steering 200 0 on = Some off
    /\ netdev_ops off = 100
    /\ ops_mem off !! netdev_ops off
       = Some {| ndo_select_queue := Select_other 7; ndo_others := 42 |}.
Proof.
  apply (steering_enable_disable 200 1 driver_steering
           {| ndo_select_queue := Select_other 7; ndo_others := 42 |}).
  - discriminate.
  - reflexivity.
  - discriminate.
Defined.

(** X10 on a device that uses the table of its driver. *)
Lemma steering_enable_twice_witness :
  exists on1 on2 off,
    netmap_catch_packet_steering 200 1 driver_steering = Some on1
    /\ netmap_catch_packet_steering 200 1 on1 = Some on2
    /\ netmap_catch_packet_steering 200 0 on2 = Some off
    /\ netdev_ops off = 200
    /\ select_queue_in_use off = Some Select_generic.
Proof.
  apply (steering_enable_twice 200 1 1 driver_steering
           {| ndo_select_queue := Select_other 7; ndo_others := 42 |}).
  - discriminate.
  - discriminate.
  - reflexivity.
Defined.

(** X11 on a frame of two bytes for ring 1, with an skb that held
    three other bytes and a device layer that drops every frame. *)
Lemma generic_xmit_frame_spec_witness :
  exists r m' tr,
    generic_xmit_frame (fun _ => NET_XMIT_DROP) 5
      {| skb_buf := [x0a; x0b; x0c; x00; x00; x00]; skb_len := 3; users := 1;
         dev := 0; priority := 0; queue_mapping := 0 |}
      [x01; x02; x03; x04] 2 1 = Some (r, m', tr)
    /\ skb_frame m' = [x01; x02]
    /\ generic_ndo_select_queue 5 m' = 1
    /\ r = -1
    /\ ~ In (Ev_RD_hard_error NET_XMIT_DROP) tr.
Proof.
  destruct (generic_xmit_frame_spec (fun _ => NET_XMIT_DROP) 5
              {| skb_buf := [x0a; x0b; x0c; x00; x00; x00]; skb_len := 3;
                 users := 1; dev := 0; priority := 0; queue_mapping := 0 |}
              [x01; x02; x03; x04] 2 1)
    as (r & m' & tr & Hcall & Hd & _ & _ & _ & Hq & _ & Hr & Hr' & Hlog).
  - cbn. lia.
  - cbn. lia.
  - cbn. lia.
  - lia.
  - exists r, m', tr. split; [exact Hcall|]. split; [exact Hd|].
    split; [exact Hq|]. split.
    + destruct Hr' as [E| E]; [|exact E].
      apply Hr in E. discriminate.
    + intros H. apply Hlog in H. destruct H as [_ H]. apply H. reflexivity.
Defined.

(** X13 on an adapter without a socket, for task 1 and the file at
    address 20. *)
Lemma sock_setup_teardown_witness :
  exists a1 s tr,
    netmap_sock_setup true (Some 77) 1 10 20 plain_adapter = (a1, Some s, tr)
    /\ na_private a1 = Some s
    /\ owner s = 1
    /\ netmap_sock_teardown a1 = (plain_adapter, teardown_events).
Proof.
  eexists _, _, _. split; [reflexivity|].
  destruct (sock_setup_teardown true (Some 77) 1 10 20 plain_adapter _ _ _
              eq_refl eq_refl) as (H1 & H2 & _ & _ & _ & H6 & _).
  split; [exact H1|]. split; [exact H2|exact H6].
Defined.

(** X14 on the adapter that set-up leaves. *)
Lemma socket_dtor_spec_witness :
  exists a1,
    (netmap_sock_setup true (Some 77) 1 10 20 plain_adapter).1.1 = a1
    /\ netmap_socket_nm_dtor 0 a1
       = Some (plain_adapter, teardown_events ++ [Ev_nm_dtor 5]).
Proof.
  eexists. split; [reflexivity|].
  destruct (socket_dtor_spec 0 (netmap_sock_setup true (Some 77) 1 10 20
                                  plain_adapter).1.1)
    as (a' & tr & Hd & -> & _ & _ & ->).
  - cbn. split; [reflexivity|discriminate].
  - exact Hd.
Defined.

(** X15 on a call for which [sk_alloc] finds no memory. *)
Lemma get_netmap_socket_error_witness :
  exists k' tr,
    get_netmap_socket owned_if_socket false None 1 3 one_file
      = Some (ERR_PTR ENOMEM, k', tr)
    /\ adapters k' = adapters one_file.
Proof.
  eexists _, _. split; [reflexivity|].
  exact (proj1 (get_netmap_socket_error owned_if_socket false None 1 3 one_file
                  ENOMEM _ _ eq_refl)).
Defined.

(** X16 on a call that sets the socket up. *)
Lemma get_netmap_socket_locking_witness :
  exists k' tr mid,
    get_netmap_socket owned_if_socket true (Some 77) 1 3 one_file
      = Some (Socket_of 10, k', tr)
    /\ tr = [Ev_NMG_LOCK] ++ mid ++ [Ev_NMG_UNLOCK]
    /\ Forall (fun e => is_lock_event e = false) mid.
Proof.
  eexists _, _.
  destruct (get_netmap_socket_locking owned_if_socket true (Some 77) 1 3 one_file
              _ _ _ eq_refl) as [[H _]|(mid & Htr & Hmid)].
  - discriminate.
  - exists mid. split; [reflexivity|]. split; [exact Htr|exact Hmid].
Defined.

(** X17 on a second call by task 1, with allocators that would fail. *)
Lemma get_netmap_socket_again_witness :
  exists k1 tr1 k2,
    get_netmap_socket owned_if_socket true (Some 77) 1 3 one_file
      = Some (Socket_of 10, k1, tr1)
    /\ get_netmap_socket owned_if_socket false None 1 3 k1
       = Some (Socket_of 10, k2, [Ev_NMG_LOCK; Ev_NMG_UNLOCK])
    /\ adapters k2 = adapters k1.
Proof.
  eexists _, _.
  destruct (get_netmap_socket_again owned_if_socket true (Some 77) false None
              1 3 one_file 10 _ _ eq_refl) as (k2 & H2 & Ha).
  exists k2. split; [reflexivity|]. split; [exact H2|exact Ha].
Defined.

(** X18 on a call by task 2 after task 1 got the socket. *)
Lemma get_netmap_socket_other_task_witness :
  exists k1 tr1 k2,
    get_netmap_socket owned_if_socket true (Some 77) 1 3 one_file
      = Some (Socket_of 10, k1, tr1)
    /\ get_netmap_socket owned_if_socket true (Some 78) 2 3 k1
       = Some (ERR_PTR EBUSY, k2, [Ev_NMG_LOCK; Ev_NMG_UNLOCK])
    /\ adapters k2 = adapters k1.
Proof.
  eexists _, _.
  destruct (get_netmap_socket_other_task owned_if_socket true (Some 77)
              true (Some 78) 1 2 3 one_file 10 _ _ eq_refl)
    as (a1 & s & Ea & Hs & Hnext).
  assert (Ho : owner s <> 2).
  { vm_compute in Ea. injection Ea as <-. cbn in Hs. injection Hs as <-.
    discriminate. }
  destruct (Hnext Ho) as (k2 & H2 & Ha).
  assert (Hown : owned_if_socket a1 = true).
  { unfold owned_if_socket. rewrite Hs. reflexivity. }
  rewrite Hown in H2.
  exists k2. split; [reflexivity|]. split; [exact H2|exact Ha].
Defined.

Lemma one_file_inv na a : adapters one_file !! na = Some a -> sock_inv a.
Proof.
  unfold one_file. cbn [adapters]. intros H.
  apply lookup_singleton_Some in H as [_ <-]. cbn. discriminate.
Qed.

(** X19 on a call that sets the socket up. *)
Lemma get_netmap_socket_keeps_inv_witness :
  exists k' tr a,
    get_netmap_socket owned_if_socket true (Some 77) 1 3 one_file
      = Some (Socket_of 10, k', tr)
    /\ adapters k' !! 10 = Some a
    /\ sock_inv a.
Proof.
  eexists _, _, _. split; [reflexivity|]. split; [vm_compute; reflexivity|].
  apply (get_netmap_socket_keeps_inv owned_if_socket true (Some 77) 1 3 one_file
           _ _ _ one_file_inv eq_refl 10).
  vm_compute. reflexivity.
Defined.

(** X20 on a call that fails on the allocation. *)
Lemma get_netmap_socket_file_reference_witness :
  exists p k' tr,
    get_netmap_socket owned_if_socket false None 1 3 one_file = Some (p, k', tr)
    /\ f_count <$> filemem k' !! 20 = Some 2.
Proof.
  eexists _, _, _. split; [reflexivity|].
  rewrite (get_netmap_socket_file_reference owned_if_socket false None 1 3
             one_file _ _ _ 20 _ eq_refl eq_refl eq_refl).
  rewrite lookup_insert_eq. reflexivity.
Defined.

(** X21 on a netmap file that has not been opened yet. *)
Lemma fresh_file_has_no_socket_witness :
  exists f' k',
    linux_netmap_open true
      {| f_op := Fops_netmap; private_data := None; f_count := 1 |} = (0, f')
    /\ get_netmap_socket owned_if_socket true (Some 77) 1 3
         {| fdtable := fdtable one_file;
            filemem := <[20 := f']> (filemem one_file);
            adapters := adapters one_file |}
       = Some (ERR_PTR EBADF, k', [Ev_NMG_LOCK; Ev_NMG_UNLOCK])
    /\ adapters k' = adapters one_file.
Proof.
  destruct (fresh_file_has_no_socket owned_if_socket true (Some 77) 1 3 one_file
              20 {| f_op := Fops_netmap; private_data := None; f_count := 1 |})
    as (_ & f' & Hopen & k' & Hcall & Ha).
  - reflexivity.
  - reflexivity.
  - exists f', k'. auto.
Defined.

(** X22 on a synchronisation command with a wild argument. *)
Lemma ioctl_without_argument_witness :
  linux_netmap_ioctl Z 0 Z counting_ioctl 1 2 1 12345 ∅ 0 = (0, ∅, 1).
Proof.
  rewrite (ioctl_without_argument Z 0 Z counting_ioctl 1 2 1 12345 ∅ 0)
    by (left; reflexivity).
  reflexivity.
Defined.

(** X23 on a request in read-only user memory. *)
Lemma ioctl_with_argument_witness :
  linux_netmap_ioctl Z 0 Z counting_ioctl 1 2 9 100 {[ 100 := (5, false) ]} 0
  = (- EFAULT, {[ 100 := (5, false) ]}, 1).
Proof.
  rewrite (ioctl_with_argument Z 0 Z counting_ioctl 1 2 9 100
             {[ 100 := (5, false) ]} 0) by discriminate.
  reflexivity.
Defined.

(** X24 on two pages of 4096 bytes, with memory behind every offset and
    a kernel that accepts every remapping. *)
Lemma mmap_maps_range_witness :
  exists r d,
    linux_netmap_mmap 12 (fun ofs => ofs + 0x100000) (fun _ _ => 0)
      0 0x10000 0x12000 3
    = Some (r, map (mmap_page 12 (fun ofs => ofs + 0x100000) 0x10000 3) (seq 0 d))
    /\ mmap_outcome 12 (fun ofs => ofs + 0x100000) (fun _ _ => 0) 0x10000 3
         (mmap_pages 12 0x10000 0x12000) r d.
Proof.
  apply (mmap_maps_range 12 (fun ofs => ofs + 0x100000) (fun _ _ => 0)
           0x10000 0x12000 3).
  - lia.
  - lia.
  - lia.
  - lia.
  - reflexivity.
  - reflexivity.
Defined.

(** X25 on the first slot of a ring whose slot 0 holds a packet of its
    own: asked for one byte, the call delivers the four bytes of the
    slot. *)
Lemma recvmsg_single_slot_witness :
  let na := {| tx_rings0 := blank_ring 4 4 0 4;
               rx_rings0 :=
                 {| num_slots := 4; nr_buf_size := 4; cur := 0; avail := 1;
                    slot := [ {| buf_idx := 2; len := 4; flags := 0 |} ] |};
               nm_mem := {[ 2 := [x01; x02; x03; x04] ]} |} in
  exists res,
    netmap_socket_recvmsg (Some na)
      {| msg_iov := [[x00; x00; x00; x00; x00]; [x00]] |} 1 0 = Some res
    /\ rx_ret res = 4
    /\ msg_iov (rx_msg_out res) = [[x01; x02; x03; x04; x00]; [x00]]
    /\ (cur <$> rx_ring_out res) = Some 0
    /\ (avail <$> rx_ring_out res) = Some 1.
Proof.
  intros na. eexists. split.
  - apply (recvmsg_single_slot na [x00; x00; x00; x00; x00] [[x00]] 1 0).
    + vm_compute. discriminate.
    + vm_compute. reflexivity.
    + vm_compute. split; [reflexivity|discriminate].
    + vm_compute. discriminate.
    + lia.
  - vm_compute. auto.
Defined.

(** * Life cycles: the descriptor and the mitigation timer *)

(** X26.  Opening and releasing a descriptor: [linux_netmap_release]
    always returns 0; after a successful [linux_netmap_open] it hands
    the private data of the file, bound to no adapter, to [netmap_dtor]
    exactly once, and after an open that failed for lack of memory
    (which returns [-ENOMEM] and leaves the file without private data)
    it calls nothing. *)
Theorem open_then_release f :
  private_data f = None ->
  fst (linux_netmap_open true f) = 0
  /\ linux_netmap_release (snd (linux_netmap_open true f))
     = (0, [Ev_netmap_dtor {| np_na := None |}])
  /\ fst (linux_netmap_open false f) = - ENOMEM
  /\ linux_netmap_release (snd (linux_netmap_open false f)) = (0, [])
  /\ forall g, fst (linux_netmap_release g) = 0.
Proof.
  intros Hnone. unfold linux_netmap_open, linux_netmap_release.
  cbn [negb fst snd private_data]. rewrite Hnone.
  repeat split. intros g. destruct (private_data g); reflexivity.
Qed.

Lemma open_then_release_witness :
  linux_netmap_release
    (snd (linux_netmap_open true
            {| f_op := Fops_netmap; private_data := None; f_count := 1 |}))
  = (0, [Ev_netmap_dtor {| np_na := None |}]).
Proof.
  exact (proj1 (proj2 (open_then_release
                         {| f_op := Fops_netmap; private_data := None;
                            f_count := 1 |} eq_refl))).
Defined.

Section MitigationLifeCycle.
Context {K : netmap_consts}.

(** X27.  The mitigation timer through its life: whatever the adapter
    held before, after [netmap_mitigation_init] and
    [netmap_mitigation_start] the timer is active and nothing is
    pending, so an expiry with no arrival in between raises no
    notification and lets the timer stop; and after
    [netmap_mitigation_cleanup] the timer is not active, whatever was
    pending. *)
Theorem mitigation_life_cycle gna :
  let armed := netmap_mitigation_start (netmap_mitigation_init gna) in
  netmap_mitigation_active (netmap_mitigation_init gna) = 0
  /\ netmap_mitigation_active armed = 1
  /\ mit_pending armed = 0
  /\ snd (mit_timer_expiry armed) = []
  /\ netmap_mitigation_active (fst (mit_timer_expiry armed)) = 0
  /\ netmap_mitigation_active (netmap_mitigation_cleanup gna) = 0
  /\ mit_pending (netmap_mitigation_cleanup gna) = mit_pending gna.
Proof.
  cbv zeta. unfold mit_timer_expiry.
  rewrite generic_timer_handler_idle by reflexivity.
  cbn. auto 10.
Qed.

End MitigationLifeCycle.
